(** * Counting finite Dynkin (lambda) systems: a model of [dynkin.c]

    The C program enumerates the Dynkin systems over an [n]-element ground
    set.  Subsets are machine integers (bit patterns), families of subsets
    are fixed-capacity bitsets of [MAX_SUBSETS] bits stored in
    [BITSET_WORDS] 64-bit words.

    The embedding below follows the C text function by function.  Machine
    integers are [Z] with the wrap-around written out, arrays are lists read
    and written by index, and every array access is bounds-checked: an access
    outside the array (undefined behaviour in C) yields [OutOfBounds].  Loops
    whose termination is not structural carry a fuel argument; running out of
    fuel yields [OutOfFuel]; the theorems show that on families and ground
    sets that fit the bitset every run returns a result. *)

From Stdlib Require Import ZArith Lia List Bool String DecimalString.
From stdpp Require Import base list.

Local Open Scope Z_scope.

(** ** Outcomes of running C code *)

Inductive result (A : Type) : Type :=
| Ok (a : A)
| OutOfBounds
| OutOfFuel.

Arguments Ok {A} a.
Arguments OutOfBounds {A}.
Arguments OutOfFuel {A}.

Definition bind {A B : Type} (m : result A) (k : A -> result B) : result B :=
  match m with
  | Ok a => k a
  | OutOfBounds => OutOfBounds
  | OutOfFuel => OutOfFuel
  end.

Notation "'let*' x ':=' m 'in' k" := (bind m (fun x => k))
  (at level 10, x pattern, m at level 100, k at level 200).

(** ** Machine integers *)

(** [uint32_t] and [uint64_t] / [size_t] arithmetic wraps around. *)
Definition u32 (z : Z) : Z := z mod 2 ^ 32.
Definition u64 (z : Z) : Z := z mod 2 ^ 64.

(** A C integer used as a truth value. *)
Definition truthy (z : Z) : bool := negb (z =? 0).

(** [__builtin_ctzll]: the number of trailing zero bits of a non-zero word. *)
Fixpoint ctz_pos (p : positive) : Z :=
  match p with
  | xO p' => 1 + ctz_pos p'
  | _ => 0
  end.

Definition ctzll (word : Z) : Z :=
  match word with
  | Zpos p => ctz_pos p
  | _ => 0
  end.

(** ** Arrays *)

Definition arr_get {A : Type} (a : list A) (i : Z) : result A :=
  if i <? 0 then OutOfBounds
  else match a !! Z.to_nat i with
       | Some v => Ok v
       | None => OutOfBounds
       end.

Definition arr_set {A : Type} (a : list A) (i : Z) (v : A) : result (list A) :=
  if i <? 0 then OutOfBounds
  else if i <? Z.of_nat (length a) then Ok (<[Z.to_nat i := v]> a)
  else OutOfBounds.

(** ** The bitset *)

Definition MAX_N : Z := 7.
Definition MAX_SUBSETS : Z := Z.shiftl 1 MAX_N.
Definition BITSET_WORDS : Z := MAX_SUBSETS / 64.

Record Bitset : Type := mkBitset { bits : list Z }.

(** [bs_clear]: [memset] of the whole word array. *)
Definition bs_clear : Bitset :=
  mkBitset (replicate (Z.to_nat BITSET_WORDS) 0).

(** [bs_copy]: [memcpy] of the whole word array; the new value of [*dst]. *)
Definition bs_copy (src : Bitset) : Bitset :=
  mkBitset (bits src).

(** [bs->bits[idx >> 6] |= (uint64_t)1 << (idx & 63)] *)
Definition bs_set (bs : Bitset) (idx : Z) : result Bitset :=
  let* word := arr_get (bits bs) (Z.shiftr idx 6) in
  let* bits' := arr_set (bits bs) (Z.shiftr idx 6)
                  (Z.lor word (u64 (Z.shiftl 1 (Z.land idx 63)))) in
  Ok (mkBitset bits').

(** [(bs->bits[idx >> 6] >> (idx & 63)) & 1] *)
Definition bs_get (bs : Bitset) (idx : Z) : result Z :=
  let* word := arr_get (bits bs) (Z.shiftr idx 6) in
  Ok (Z.land (Z.shiftr word (Z.land idx 63)) 1).

(** ** Closure extension *)

(** The local state of [extend_closure]: the closure under construction and
    the work queue with its read and write positions. *)
Record cstate : Type := mkCstate {
  closure : Bitset;
  queue : list Z;
  qs : Z;
  qe : Z
}.

(** The block that [extend_closure] runs for a forced subset [z] (once for
    the complement, once for each disjoint union):
<<
    if (!bs_get(closure, z)) {
        if (bs_get(excluded, z)) return 0;
        bs_set(closure, z);
        queue[qe++] = z;
    }
>>
    The boolean is [false] when [return 0] was executed. *)
Definition force (excluded : Bitset) (st : cstate) (z : Z)
  : result (bool * cstate) :=
  let* c := bs_get (closure st) z in
  if truthy c then Ok (true, st)
  else
    let* e := bs_get excluded z in
    if truthy e then Ok (false, st)
    else
      let* cl := bs_set (closure st) z in
      let* q := arr_set (queue st) (qe st) z in
      Ok (true, mkCstate cl q (qs st) (qe st + 1)).

(** [while (word) { bit = ctz(word); word &= word - 1; ... }] for the
    snapshot [word] of word [w] of the closure. *)
Fixpoint scan_word (fuel : nat) (excluded : Bitset) (x w word : Z)
    (st : cstate) : result (bool * cstate) :=
  if word =? 0 then Ok (true, st)
  else
    match fuel with
    | O => OutOfFuel
    | S fuel' =>
        let bit := ctzll word in
        let word' := Z.land word (word - 1) in
        let y := u32 (Z.shiftl w 6 + bit) in
        if Z.land x y =? 0 then
          let z := Z.lor x y in
          let* r := force excluded st z in
          match r with
          | (false, st') => Ok (false, st')
          | (true, st') => scan_word fuel' excluded x w word' st'
          end
        else scan_word fuel' excluded x w word' st
    end.

(** [for (int w = 0; w < BITSET_WORDS; ++w)], with [n] iterations left. *)
Fixpoint scan_words (n : nat) (excluded : Bitset) (x w : Z) (st : cstate)
  : result (bool * cstate) :=
  match n with
  | O => Ok (true, st)
  | S n' =>
      let* word := arr_get (bits (closure st)) w in
      let* r := scan_word 64 excluded x w word st in
      match r with
      | (false, st') => Ok (false, st')
      | (true, st') => scan_words n' excluded x (w + 1) st'
      end
  end.

(** One iteration of [while (qs < qe)]: pop [x], force its complement, scan
    the closure for disjoint partners. *)
Definition process (omega : Z) (excluded : Bitset) (st : cstate)
  : result (bool * cstate) :=
  let* x := arr_get (queue st) (qs st) in
  let st1 := mkCstate (closure st) (queue st) (qs st + 1) (qe st) in
  let comp := Z.lxor omega x in
  let* r := force excluded st1 comp in
  match r with
  | (false, st2) => Ok (false, st2)
  | (true, st2) => scan_words (Z.to_nat BITSET_WORDS) excluded x 0 st2
  end.

Fixpoint closure_loop (fuel : nat) (omega : Z) (excluded : Bitset)
    (st : cstate) : result (bool * cstate) :=
  if qs st <? qe st then
    match fuel with
    | O => OutOfFuel
    | S fuel' =>
        let* r := process omega excluded st in
        match r with
        | (false, st') => Ok (false, st')
        | (true, st') => closure_loop fuel' omega excluded st'
        end
    end
  else Ok (true, st).

(** The state on entry to the [while] loop.  The queue array is
    uninitialised in C; its cells are only read after being written. *)
Definition extend_init (included : Bitset) (extension : Z) : result cstate :=
  let* cl := bs_set (bs_copy included) extension in
  let* q := arr_set (replicate (Z.to_nat MAX_SUBSETS) 0) 0 extension in
  Ok (mkCstate cl q 0 1).

(** [extend_closure] with its whole final local state. *)
Definition extend_closure_run (omega : Z) (included : Bitset) (extension : Z)
    (excluded : Bitset) : result (bool * cstate) :=
  let* st := extend_init included extension in
  closure_loop (Z.to_nat MAX_SUBSETS) omega excluded st.

(** [extend_closure]: the returned flag ([true] for 1, [false] for 0) and
    the contents of the out-parameter [closure]. *)
Definition extend_closure (omega : Z) (included : Bitset) (extension : Z)
    (excluded : Bitset) : result (bool * Bitset) :=
  let* r := extend_closure_run omega included extension excluded in
  Ok (fst r, closure (snd r)).

(** ** The enumerator *)

Definition midpoint (omega : Z) : Z := Z.shiftr (u32 (omega + 1)) 1.

(** The [for] loop of [inner] from index [m] on, with running [count].
    [excluded] is the caller's bitset, mutated in place by the loop; the
    recursive call works on the copies [new_inc] and [new_exc].  [fuel]
    bounds the loop iterations and nested calls still to come: each of them
    moves the index one step closer to the midpoint. *)
Fixpoint inner_from (fuel : nat) (omega m : Z) (included excluded : Bitset)
    (count : Z) : result Z :=
  if m <? midpoint omega then
    match fuel with
    | O => OutOfFuel
    | S fuel' =>
        let* i := bs_get included m in
        if truthy i then inner_from fuel' omega (m + 1) included excluded count
        else
          let* e := bs_get excluded m in
          if truthy e then
            inner_from fuel' omega (m + 1) included excluded count
          else
            let* r := extend_closure omega included m excluded in
            let* count' :=
              match r with
              | (true, cl) =>
                  let new_inc := bs_copy cl in
                  let new_exc := bs_copy excluded in
                  let* c := inner_from fuel' omega (m + 1) new_inc new_exc 1 in
                  Ok (u64 (count + c))
              | (false, _) => Ok count
              end in
            let* excluded1 := bs_set excluded m in
            let* excluded2 := bs_set excluded1 (Z.lxor omega m) in
            inner_from fuel' omega (m + 1) included excluded2 count'
    end
  else Ok count.

Definition inner_fuel (omega lb : Z) : nat := Z.to_nat (midpoint omega - lb).

Definition inner (omega lb : Z) (included excluded : Bitset) : result Z :=
  inner_from (inner_fuel omega lb) omega lb included excluded 1.

(** ** The driver *)

(** [omega = (n > 0) ? ((1u << n) - 1) : 0] *)
Definition omega_of (n : Z) : Z :=
  if 0 <? n then u32 (u32 (Z.shiftl 1 n) - 1) else 0.

(** The base family: the empty set and the whole set. *)
Definition base_included (omega : Z) : result Bitset :=
  let* b := bs_set bs_clear 0 in
  bs_set b omega.

(** The serial precomputation of [root_excluded]: [k] iterations left, the
    next index to fill is [m]. *)
Fixpoint root_excluded_from (k : nat) (omega m : Z) (re : list Bitset)
  : result (list Bitset) :=
  match k with
  | O => Ok re
  | S k' =>
      let* prev := arr_get re (m - 1) in
      let* b1 := bs_set (bs_copy prev) m in
      let* b2 := bs_set b1 (Z.lxor omega m) in
      let* re' := arr_set re m b2 in
      root_excluded_from k' omega (m + 1) re'
  end.

Definition root_excluded (omega : Z) : result (list Bitset) :=
  let limit := midpoint omega in
  let* re := arr_set (replicate (Z.to_nat limit) bs_clear) 0 bs_clear in
  root_excluded_from (Z.to_nat (limit - 1)) omega 1 re.

(** The body of the top-level loop for index [m], run by one worker:
    [total] before and after.  [continue] and a failed extension leave
    [total] as it is. *)
Definition branch (omega : Z) (included : Bitset) (re : list Bitset)
    (m total : Z) : result Z :=
  let* ex_here := arr_get re (m - 1) in
  let* i := bs_get included m in
  if truthy i then Ok total
  else
    let* e := bs_get ex_here m in
    if truthy e then Ok total
    else
      let* r := extend_closure omega included m ex_here in
      match r with
      | (true, cl) =>
          let new_exc := bs_copy ex_here in
          let* new_exc1 := bs_set new_exc m in
          let* new_exc2 := bs_set new_exc1 (Z.lxor omega m) in
          let* c := inner omega (m + 1) cl new_exc2 in
          Ok (u64 (total + c))
      | (false, _) => Ok total
      end.

(** The top-level loop with its sum reduction, [k] iterations left.  The
    workers share nothing but [total], and the sum does not depend on the
    order of the additions; the reduction is modelled in index order. *)
Fixpoint split_from (k : nat) (omega : Z) (included : Bitset)
    (re : list Bitset) (m total : Z) : result Z :=
  match k with
  | O => Ok total
  | S k' =>
      let* total' := branch omega included re m total in
      split_from k' omega included re (m + 1) total'
  end.

(** The count that the driver prints for [n]. *)
Definition driver_count (n : Z) : result Z :=
  let omega := omega_of n in
  let* included := base_included omega in
  let limit := midpoint omega in
  if limit =? 0 then Ok 1
  else
    let* re := root_excluded omega in
    let* total := split_from (Z.to_nat (limit - 1)) omega included re 1 0 in
    Ok (u64 (total + 1)).

(** [printf("%u %zu\n", n, total)] *)
Definition decimal (z : Z) : string :=
  NilZero.string_of_uint (N.to_uint (Z.to_N z)).

Definition newline : string := String (Ascii.ascii_of_nat 10) EmptyString.

Definition print_line (n total : Z) : string :=
  (decimal n ++ " " ++ decimal total ++ newline)%string.

Definition driver_line (n : Z) : result string :=
  let* total := driver_count n in
  Ok (print_line n total).

(** [main]: the lines printed for [n = 0 .. MAX_N], [k] of them left. *)
Fixpoint main_from (k : nat) (n : Z) : result (list string) :=
  match k with
  | O => Ok []
  | S k' =>
      let* line := driver_line n in
      let* rest := main_from k' (n + 1) in
      Ok (line :: rest)
  end.

Definition main : result (list string) :=
  main_from (Z.to_nat (MAX_N + 1)) 0.


(** * Verification *)

(** ** Elementary facts about the outcome monad and arrays *)

Lemma bind_Ok {A B : Type} (m : result A) (k : A -> result B) (b : B) :
  bind m k = Ok b <-> exists a, m = Ok a /\ k a = Ok b.
Proof.
  destruct m; simpl; split; try (intros [a0 [H _]]; discriminate H);
    try discriminate.
  - intros H. exists a. auto.
  - intros [a0 [H1 H2]]. inversion H1; subst. exact H2.
Qed.

Lemma arr_get_Ok {A : Type} (a : list A) (i : Z) (v : A) :
  arr_get a i = Ok v <-> 0 <= i /\ a !! Z.to_nat i = Some v.
Proof.
  unfold arr_get. destruct (Z.ltb_spec i 0).
  - split; [discriminate | lia].
  - destruct (a !! Z.to_nat i) eqn:E; split; intros H1;
      try discriminate; try (inversion H1; subst; auto; fail).
    + destruct H1 as [_ H1]. inversion H1; subst. reflexivity.
    + destruct H1 as [_ H1]. discriminate.
Qed.

Lemma arr_set_Ok {A : Type} (a : list A) (i : Z) (v : A) (a' : list A) :
  arr_set a i v = Ok a' <->
  0 <= i < Z.of_nat (length a) /\ a' = <[Z.to_nat i := v]> a.
Proof.
  unfold arr_set. destruct (Z.ltb_spec i 0).
  - split; [discriminate | lia].
  - destruct (Z.ltb_spec i (Z.of_nat (length a))); split; intros H1;
      try discriminate; try lia.
    + inversion H1; subst. auto.
    + destruct H1 as [_ ->]. reflexivity.
Qed.

(** ** Bit-level facts *)

Lemma truthy_b2z (b : bool) : truthy (Z.b2z b) = b.
Proof. destruct b; reflexivity. Qed.

Lemma land_shiftr_1 (w k : Z) :
  0 <= k -> Z.land (Z.shiftr w k) 1 = Z.b2z (Z.testbit w k).
Proof.
  intros Hk. change 1 with (Z.ones 1).
  rewrite Z.land_ones by lia. change (2 ^ 1) with 2.
  rewrite <- Z.bit0_mod, Z.shiftr_spec by lia. reflexivity.
Qed.

Lemma idx_split (s : Z) :
  s = 64 * Z.shiftr s 6 + Z.land s 63 /\ 0 <= Z.land s 63 < 64.
Proof.
  rewrite Z.shiftr_div_pow2 by lia. change 63 with (Z.ones 6).
  rewrite Z.land_ones by lia. change (2 ^ 6) with 64.
  pose proof (Z.div_mod s 64). pose proof (Z.mod_pos_bound s 64). lia.
Qed.

Lemma idx_join (w b : Z) :
  0 <= b < 64 -> Z.shiftr (64 * w + b) 6 = w /\ Z.land (64 * w + b) 63 = b.
Proof.
  intros Hb. rewrite Z.shiftr_div_pow2 by lia. change 63 with (Z.ones 6).
  rewrite Z.land_ones by lia. change (2 ^ 6) with 64.
  split.
  - symmetry. apply (Z.div_unique _ 64 w b); lia.
  - symmetry. apply (Z.mod_unique _ 64 w b); lia.
Qed.

Lemma idx_eq (i j : Z) :
  Z.shiftr i 6 = Z.shiftr j 6 -> Z.land i 63 = Z.land j 63 -> i = j.
Proof.
  intros H1 H2. destruct (idx_split i) as [Hi _].
  destruct (idx_split j) as [Hj _]. lia.
Qed.

(** Trailing zeros and clearing the lowest set bit. *)

Lemma ctz_pos_nonneg (p : positive) : 0 <= ctz_pos p.
Proof. induction p; simpl; lia. Qed.

Lemma ctz_pos_spec (p : positive) :
  Z.testbit (Zpos p) (ctz_pos p) = true /\
  forall j, 0 <= j < ctz_pos p -> Z.testbit (Zpos p) j = false.
Proof.
  induction p as [p IH | p IH |]; simpl ctz_pos.
  - split; [reflexivity | lia].
  - destruct IH as [IH1 IH2].
    pose proof (ctz_pos_nonneg p) as Hn.
    change (Zpos p~0) with (2 * Zpos p). split.
    + rewrite Z.double_bits. replace (Z.pred (1 + ctz_pos p)) with (ctz_pos p) by lia.
      exact IH1.
    + intros j Hj. rewrite Z.double_bits.
      destruct (Z.eq_dec j 0) as [-> | Hj0]; [reflexivity |].
      apply IH2. lia.
  - split; [reflexivity | lia].
Qed.

Lemma clear_lowest_pos (p : positive) (j : Z) :
  0 <= j ->
  Z.testbit (Z.land (Zpos p) (Zpos p - 1)) j =
  Z.testbit (Zpos p) j && negb (j =? ctz_pos p).
Proof.
  revert j. induction p as [p IH | p IH |]; intros j Hj.
  - (* 2a+1: the predecessor only clears bit 0 *)
    simpl ctz_pos. rewrite Z.land_spec.
    replace (Zpos p~1 - 1) with (2 * Zpos p) by lia.
    change (Zpos p~1) with (2 * Zpos p + Z.b2z true).
    destruct (Z.eq_dec j 0) as [-> | Hj0].
    + rewrite Z.testbit_even_0. rewrite andb_false_r. rewrite andb_false_r.
      reflexivity.
    + replace (j =? 0) with false by (symmetry; apply Z.eqb_neq; lia).
      rewrite andb_true_r. replace j with (Z.succ (Z.pred j)) by lia.
      rewrite Z.testbit_succ_r by lia.
      rewrite Z.double_bits. rewrite Z.pred_succ. apply andb_diag.
  - (* 2a: recurse on a *)
    simpl ctz_pos. pose proof (ctz_pos_nonneg p) as Hn.
    rewrite Z.land_spec.
    replace (Zpos p~0 - 1) with (2 * (Zpos p - 1) + Z.b2z true)
      by (simpl Z.b2z; lia).
    change (Zpos p~0) with (2 * Zpos p).
    destruct (Z.eq_dec j 0) as [-> | Hj0].
    + rewrite Z.testbit_even_0. reflexivity.
    + replace j with (Z.succ (Z.pred j)) by lia.
      rewrite Z.testbit_succ_r by lia.
      rewrite Z.double_bits. rewrite Z.pred_succ.
      rewrite <- Z.land_spec. rewrite IH by lia.
      f_equal. f_equal.
      destruct (Z.eqb_spec (Z.pred j) (ctz_pos p));
        destruct (Z.eqb_spec (Z.succ (Z.pred j)) (1 + ctz_pos p)); lia || reflexivity.
  - simpl. destruct j; reflexivity.
Qed.

Lemma ctzll_spec (word : Z) :
  0 < word ->
  0 <= ctzll word /\
  Z.testbit word (ctzll word) = true /\
  (forall j, 0 <= j < ctzll word -> Z.testbit word j = false) /\
  (forall j, 0 <= j ->
     Z.testbit (Z.land word (word - 1)) j =
     Z.testbit word j && negb (j =? ctzll word)).
Proof.
  intros Hw. destruct word as [| p | p]; try lia. simpl ctzll.
  pose proof (ctz_pos_spec p) as [H1 H2].
  split; [apply ctz_pos_nonneg |].
  split; [exact H1 |]. split; [exact H2 |].
  intros j Hj. apply clear_lowest_pos. exact Hj.
Qed.

(** ** The bitset as a family of subsets *)

(** A subset index that fits the bitset. *)
Definition in_range (s : Z) : Prop := 0 <= s < MAX_SUBSETS.

(** The C type: [BITSET_WORDS] words of 64 bits. *)
Definition wf_bitset (bs : Bitset) : Prop :=
  length (bits bs) = Z.to_nat BITSET_WORDS /\
  Forall (fun w => 0 <= w < 2 ^ 64) (bits bs).

(** [s] is marked in [bs]: [bs_get] reads the bit without leaving the array
    and finds it set. *)
Definition mem (bs : Bitset) (s : Z) : Prop := bs_get bs s = Ok 1.

Definition bit (bs : Bitset) (s : Z) : bool :=
  match bits bs !! Z.to_nat (Z.shiftr s 6) with
  | Some w => Z.testbit w (Z.land s 63)
  | None => false
  end.

Lemma in_range_words (s : Z) :
  in_range s <-> 0 <= Z.shiftr s 6 < BITSET_WORDS.
Proof.
  unfold in_range. change MAX_SUBSETS with 128. change BITSET_WORDS with 2.
  destruct (idx_split s) as [Hs Hb]. lia.
Qed.

Lemma in_range_word_nonneg (s : Z) : in_range s -> 0 <= Z.shiftr s 6.
Proof. intros H. apply in_range_words in H. lia. Qed.

Lemma wf_lookup (bs : Bitset) (s : Z) :
  wf_bitset bs -> in_range s ->
  exists w, bits bs !! Z.to_nat (Z.shiftr s 6) = Some w /\ 0 <= w < 2 ^ 64.
Proof.
  intros [Hlen Hall] Hs. apply in_range_words in Hs.
  destruct (lookup_lt_is_Some_2 (bits bs) (Z.to_nat (Z.shiftr s 6))) as [w Hw].
  { rewrite Hlen. lia. }
  exists w. split; [exact Hw |].
  rewrite Forall_lookup in Hall. exact (Hall _ _ Hw).
Qed.

Lemma bs_get_in_range (bs : Bitset) (s : Z) :
  wf_bitset bs -> in_range s -> bs_get bs s = Ok (Z.b2z (bit bs s)).
Proof.
  intros Hwf Hs. destruct (wf_lookup bs s Hwf Hs) as [w [Hw _]].
  unfold bs_get, bit. rewrite Hw.
  replace (arr_get (bits bs) (Z.shiftr s 6)) with (Ok w).
  - simpl. rewrite land_shiftr_1; [reflexivity |].
    destruct (idx_split s); lia.
  - symmetry. apply arr_get_Ok. apply in_range_words in Hs. split; [lia | exact Hw].
Qed.

Lemma bs_get_Ok_range (bs : Bitset) (s v : Z) :
  wf_bitset bs -> bs_get bs s = Ok v -> in_range s.
Proof.
  intros [Hlen _] H. unfold bs_get in H. apply bind_Ok in H.
  destruct H as [w [Hw _]]. apply arr_get_Ok in Hw. destruct Hw as [H0 Hw].
  apply lookup_lt_Some in Hw. rewrite Hlen in Hw.
  apply in_range_words. lia.
Qed.

Lemma mem_bit (bs : Bitset) (s : Z) :
  wf_bitset bs -> mem bs s <-> in_range s /\ bit bs s = true.
Proof.
  intros Hwf. unfold mem. split.
  - intros H. pose proof (bs_get_Ok_range _ _ _ Hwf H) as Hs.
    split; [exact Hs |]. rewrite (bs_get_in_range _ _ Hwf Hs) in H.
    destruct (bit bs s); [reflexivity | discriminate].
  - intros [Hs Hb]. rewrite (bs_get_in_range _ _ Hwf Hs), Hb. reflexivity.
Qed.

Lemma mem_in_range (bs : Bitset) (s : Z) :
  wf_bitset bs -> mem bs s -> in_range s.
Proof. intros Hwf H. apply (mem_bit _ _ Hwf) in H. tauto. Qed.

Lemma mem_dec (bs : Bitset) (s : Z) : mem bs s \/ ~ mem bs s.
Proof.
  unfold mem. destruct (bs_get bs s) as [v | |]; try (right; discriminate).
  destruct (Z.eq_dec v 1) as [-> | Hv]; [left; reflexivity |].
  right. intros H. inversion H. contradiction.
Qed.

Lemma bs_get_truthy (bs : Bitset) (s v : Z) :
  wf_bitset bs -> bs_get bs s = Ok v ->
  (truthy v = true <-> mem bs s).
Proof.
  intros Hwf H. pose proof (bs_get_Ok_range _ _ _ Hwf H) as Hs.
  unfold mem. rewrite H. rewrite (bs_get_in_range _ _ Hwf Hs) in H.
  inversion H; subst. destruct (bit bs s); simpl; split; intros H1;
    try reflexivity; discriminate H1.
Qed.

Lemma wf_bs_clear : wf_bitset bs_clear.
Proof.
  split; [reflexivity |]. simpl. repeat constructor; lia.
Qed.

Lemma wf_bs_copy (bs : Bitset) : wf_bitset bs -> wf_bitset (bs_copy bs).
Proof. intros H. exact H. Qed.

Lemma mem_bs_copy (bs : Bitset) (s : Z) : mem (bs_copy bs) s <-> mem bs s.
Proof. reflexivity. Qed.

Lemma bs_copy_eq (bs : Bitset) : bs_copy bs = bs.
Proof. destruct bs. reflexivity. Qed.

Lemma mem_bs_clear (s : Z) : ~ mem bs_clear s.
Proof.
  intros H. apply (mem_bit _ _ wf_bs_clear) in H. destruct H as [Hs Hb].
  apply in_range_words in Hs. change BITSET_WORDS with 2 in Hs.
  unfold bit in Hb. simpl in Hb.
  destruct (Z.to_nat (Z.shiftr s 6)) as [| [| k]]; simpl in Hb;
    try discriminate; rewrite ?Z.bits_0 in Hb; discriminate.
Qed.

(** What [bs_set] does to a well-formed bitset. *)
Lemma bs_set_spec (bs : Bitset) (i : Z) :
  wf_bitset bs -> in_range i ->
  exists bs', bs_set bs i = Ok bs' /\ wf_bitset bs' /\
              forall j, mem bs' j <-> j = i \/ mem bs j.
Proof.
  intros Hwf Hi. destruct (wf_lookup bs i Hwf Hi) as [w [Hw Hwr]].
  pose proof Hi as Hi'. apply in_range_words in Hi'.
  destruct Hwf as [Hlen Hall].
  destruct (idx_split i) as [_ Hb].
  set (w' := Z.lor w (u64 (Z.shiftl 1 (Z.land i 63)))).
  assert (Hpow : u64 (Z.shiftl 1 (Z.land i 63)) = 2 ^ Z.land i 63).
  { unfold u64. rewrite Z.shiftl_1_l. apply Z.mod_small.
    split; [apply Z.pow_nonneg; lia |]. apply Z.pow_lt_mono_r; lia. }
  assert (Hw'r : 0 <= w' < 2 ^ 64).
  { apply Z.bounded_iff_bits_nonneg'; [lia | |].
    - unfold w'. apply Z.lor_nonneg. rewrite Hpow.
      split; [lia | apply Z.pow_nonneg; lia].
    - intros l Hl. unfold w'. rewrite Z.lor_spec, Hpow.
      rewrite Z.pow2_bits_false by lia.
      rewrite orb_false_r.
      apply (proj1 (Z.bounded_iff_bits_nonneg' 64 w ltac:(lia) ltac:(lia)));
        [exact Hwr | exact Hl]. }
  exists (mkBitset (<[Z.to_nat (Z.shiftr i 6) := w']> (bits bs))).
  assert (Hwf' : wf_bitset (mkBitset (<[Z.to_nat (Z.shiftr i 6) := w']> (bits bs)))).
  { split; simpl.
    - rewrite length_insert. exact Hlen.
    - apply Forall_insert; assumption. }
  split; [| split; [exact Hwf' |]].
  - unfold bs_set.
    replace (arr_get (bits bs) (Z.shiftr i 6)) with (Ok w)
      by (symmetry; apply arr_get_Ok; split; [lia | exact Hw]).
    simpl. fold w'.
    replace (arr_set (bits bs) (Z.shiftr i 6) w')
      with (Ok (<[Z.to_nat (Z.shiftr i 6) := w']> (bits bs))); [reflexivity |].
    symmetry. apply arr_set_Ok. split; [| reflexivity]. rewrite Hlen. lia.
  - intros j. rewrite (mem_bit _ _ Hwf'), (mem_bit _ _ (conj Hlen Hall)).
    unfold bit. simpl.
    destruct (Z.eq_dec (Z.shiftr j 6) (Z.shiftr i 6)) as [Heq | Hne].
    + rewrite Heq, Hw. rewrite list_lookup_insert_eq
        by (apply lookup_lt_Some in Hw; exact Hw).
      unfold w'. rewrite Z.lor_spec, Hpow, Z.pow2_bits_eqb by lia.
      destruct (Z.eqb_spec (Z.land i 63) (Z.land j 63)) as [Hb2 | Hb2].
      * rewrite orb_true_r. assert (j = i) by (apply idx_eq; congruence).
        subst j. tauto.
      * rewrite orb_false_r. split; [tauto |].
        intros [-> | H]; [contradiction | exact H].
    + destruct (Z.eq_dec j i) as [-> | Hji]; [contradiction |].
      destruct (Z_lt_dec (Z.shiftr j 6) 0) as [Hneg | Hnn].
      * unfold in_range. change MAX_SUBSETS with 128.
        destruct (idx_split j). split; [intros [? _]; lia |].
        intros [? | [? _]]; [contradiction | lia].
      * rewrite list_lookup_insert_ne by lia.
        split; [tauto |]. intros [? | H]; [contradiction | exact H].
Qed.

Lemma bs_set_Ok (bs bs' : Bitset) (i : Z) :
  wf_bitset bs -> bs_set bs i = Ok bs' ->
  in_range i /\ wf_bitset bs' /\ forall j, mem bs' j <-> j = i \/ mem bs j.
Proof.
  intros Hwf H.
  assert (Hi : in_range i).
  { unfold bs_set in H. apply bind_Ok in H. destruct H as [w [Hw _]].
    apply arr_get_Ok in Hw. destruct Hw as [H0 Hw].
    apply lookup_lt_Some in Hw. destruct Hwf as [Hlen _]. rewrite Hlen in Hw.
    apply in_range_words. lia. }
  destruct (bs_set_spec bs i Hwf Hi) as [bs2 [H2 [Hwf2 Hmem]]].
  rewrite H in H2. inversion H2; subst. auto.
Qed.

(** Two well-formed bitsets with the same members are the same bitset. *)
Lemma bitset_ext (a b : Bitset) :
  wf_bitset a -> wf_bitset b -> (forall s, mem a s <-> mem b s) -> a = b.
Proof.
  intros Ha Hb Hext. destruct a as [la], b as [lb]. f_equal.
  apply list_eq_same_length with (n := Z.to_nat BITSET_WORDS);
    [apply Hb | apply Ha |].
  intros k wa wb Hk Hwa Hwb.
  change (Z.to_nat BITSET_WORDS) with 2%nat in Hk.
  assert (Hra : 0 <= wa < 2 ^ 64).
  { destruct Ha as [_ Hr]. rewrite Forall_lookup in Hr. exact (Hr _ _ Hwa). }
  assert (Hrb : 0 <= wb < 2 ^ 64).
  { destruct Hb as [_ Hr]. rewrite Forall_lookup in Hr. exact (Hr _ _ Hwb). }
  apply Z.bits_inj'. intros n Hn.
  destruct (Z_lt_dec n 64) as [Hlt | Hge].
  - destruct (idx_join (Z.of_nat k) n ltac:(lia)) as [Hq Hr].
    specialize (Hext (64 * Z.of_nat k + n)).
    rewrite (mem_bit _ _ Ha), (mem_bit _ _ Hb) in Hext.
    assert (Hin : in_range (64 * Z.of_nat k + n))
      by (unfold in_range; change MAX_SUBSETS with 128; lia).
    unfold bit in Hext. simpl in Hext.
    rewrite Hq, Hr, Nat2Z.id, Hwa, Hwb in Hext.
    destruct (Z.testbit wa n), (Z.testbit wb n); try reflexivity;
      [ assert (false = true) by tauto | assert (false = true) by tauto ];
      discriminate.
  - rewrite (proj1 (Z.bounded_iff_bits_nonneg' 64 wa ltac:(lia) ltac:(lia)) Hra n ltac:(lia)).
    rewrite (proj1 (Z.bounded_iff_bits_nonneg' 64 wb ltac:(lia) ltac:(lia)) Hrb n ltac:(lia)).
    reflexivity.
Qed.

Lemma bs_set_mem_id (bs : Bitset) (i : Z) :
  wf_bitset bs -> mem bs i -> bs_set bs i = Ok bs.
Proof.
  intros Hwf Hm. pose proof (mem_in_range _ _ Hwf Hm) as Hi.
  destruct (bs_set_spec bs i Hwf Hi) as [bs' [H [Hwf' Hmem]]].
  rewrite H. f_equal. apply bitset_ext; auto.
  intros s. rewrite Hmem. split; [intros [-> | ?]; assumption | tauto].
Qed.

(** ** Subset arithmetic stays inside the bitset *)

Lemma in_range_bits (a : Z) :
  in_range a <-> 0 <= a /\ forall l, 7 <= l -> Z.testbit a l = false.
Proof.
  unfold in_range. change MAX_SUBSETS with (2 ^ 7). split.
  - intros H. split; [lia |].
    apply (Z.bounded_iff_bits_nonneg' 7 a); lia.
  - intros [H0 H]. apply (Z.bounded_iff_bits_nonneg' 7 a); try lia. exact H.
Qed.

Lemma lor_in_range (a b : Z) :
  in_range a -> in_range b -> in_range (Z.lor a b).
Proof.
  rewrite !in_range_bits. intros [Ha Ha'] [Hb Hb']. split.
  - apply Z.lor_nonneg. auto.
  - intros l Hl. rewrite Z.lor_spec, Ha', Hb' by exact Hl. reflexivity.
Qed.

Lemma lxor_in_range (a b : Z) :
  in_range a -> in_range b -> in_range (Z.lxor a b).
Proof.
  rewrite !in_range_bits. intros [Ha Ha'] [Hb Hb']. split.
  - apply Z.lxor_nonneg. tauto.
  - intros l Hl. rewrite Z.lxor_spec, Ha', Hb' by exact Hl. reflexivity.
Qed.

Lemma range_nodup_length (l : list Z) :
  NoDup l -> (forall s, s ∈ l -> in_range s) ->
  (length l <= Z.to_nat MAX_SUBSETS)%nat.
Proof.
  intros Hnd Hr. rewrite <- (length_seqZ 0 MAX_SUBSETS).
  apply submseteq_length, NoDup_submseteq; [exact Hnd |].
  intros x Hx. apply elem_of_seqZ. specialize (Hr x Hx).
  unfold in_range in Hr. lia.
Qed.

(** ** The work queue *)

(** The indices enqueued so far: the cells [queue[0 .. qe)]. *)
Definition enq (st : cstate) : list Z := take (Z.to_nat (qe st)) (queue st).

Lemma enq_push (st : cstate) (z : Z) (cl : Bitset) (q : list Z) :
  0 <= qe st -> arr_set (queue st) (qe st) z = Ok q ->
  enq (mkCstate cl q (qs st) (qe st + 1)) = enq st ++ [z] /\
  length q = length (queue st).
Proof.
  intros H0 H. apply arr_set_Ok in H. destruct H as [Hlt ->].
  unfold enq. simpl. split; [| apply length_insert].
  replace (Z.to_nat (qe st + 1)) with (S (Z.to_nat (qe st))) by lia.
  rewrite (take_S_r _ _ z) by (apply list_lookup_insert_eq; lia).
  rewrite take_insert. destruct (decide (Z.to_nat (qe st) < Z.to_nat (qe st))%nat);
    [lia | reflexivity].
Qed.

(** ** What the closure axioms force *)

(** The subsets that complement and disjoint union force into a family
    that holds [included] and [extension]. *)
Inductive generated (omega : Z) (included : Bitset) (extension : Z)
  : Z -> Prop :=
| gen_included s :
    mem included s -> generated omega included extension s
| gen_extension :
    generated omega included extension extension
| gen_complement s :
    generated omega included extension s ->
    generated omega included extension (Z.lxor omega s)
| gen_union x y :
    generated omega included extension x ->
    generated omega included extension y ->
    Z.land x y = 0 ->
    generated omega included extension (Z.lor x y).

(** A family of subsets closed under complement in [omega] and under union
    of disjoint members. *)
Definition dynkin_closed (omega : Z) (D : Z -> Prop) : Prop :=
  (forall s, D s -> D (Z.lxor omega s)) /\
  (forall x y, D x -> D y -> Z.land x y = 0 -> D (Z.lor x y)).

Lemma generated_least (omega : Z) (included : Bitset) (extension : Z)
    (D : Z -> Prop) :
  dynkin_closed omega D ->
  (forall s, mem included s -> D s) -> D extension ->
  forall s, generated omega included extension s -> D s.
Proof.
  intros [Hc Hu] Hi He s Hg. induction Hg; auto.
Qed.

Lemma generated_in_closed (omega : Z) (included : Bitset) (extension : Z) :
  dynkin_closed omega (mem included) -> mem included extension ->
  forall s, generated omega included extension s -> mem included s.
Proof.
  intros Hd He. apply generated_least; auto.
Qed.

(** ** The invariant of [extend_closure] *)

Section Closure.
Variables (omega : Z) (included excluded : Bitset) (extension : Z).
Hypothesis wf_included : wf_bitset included.
Hypothesis wf_excluded : wf_bitset excluded.
Hypothesis omega_in_range : in_range omega.

Local Abbreviation gen := (generated omega included extension).

(** The invariant of the [while] loop.  [k] is the number of queue cells
    whose propagation is complete: the cells before [k] are closed against
    every member of the closure that is not itself waiting in the queue. *)
Record Inv (k : nat) (st : cstate) : Prop := mkInv {
  inv_wf : wf_bitset (closure st);
  inv_len : length (queue st) = Z.to_nat MAX_SUBSETS;
  inv_qe : 0 <= qe st <= MAX_SUBSETS;
  inv_k : (k <= length (enq st))%nat;
  inv_head : enq st !! 0%nat = Some extension;
  inv_nodup : NoDup (enq st);
  inv_mem : forall s, mem (closure st) s <-> mem included s \/ s ∈ enq st;
  inv_gen : forall s, s ∈ enq st -> gen s;
  inv_new : forall s, s ∈ drop 1 (enq st) ->
                      ~ mem included s /\ ~ mem excluded s;
  inv_closed : forall x, x ∈ take k (enq st) ->
    mem (closure st) (Z.lxor omega x) /\
    forall y, mem (closure st) y -> y ∉ drop k (enq st) ->
              Z.land x y = 0 -> mem (closure st) (Z.lor x y)
}.

(** The queue only grows, and the read position stays. *)
Definition grows (st st' : cstate) : Prop :=
  qs st' = qs st /\ exists l, enq st' = enq st ++ l.

(** A contradiction: a forced subset is excluded. *)
Definition failed (st : cstate) : Prop :=
  exists z, gen z /\ mem excluded z /\ ~ mem (closure st) z.

Lemma grows_refl (st : cstate) : grows st st.
Proof. split; [reflexivity |]. exists []. symmetry. apply app_nil_r. Qed.

Lemma grows_trans (st1 st2 st3 : cstate) :
  grows st1 st2 -> grows st2 st3 -> grows st1 st3.
Proof.
  intros [Hq1 [l1 H1]] [Hq2 [l2 H2]]. split; [congruence |].
  exists (l1 ++ l2). rewrite H2, H1. symmetry. apply app_assoc.
Qed.

Lemma enq_length (k : nat) (st : cstate) :
  Inv k st -> length (enq st) = Z.to_nat (qe st).
Proof.
  intros H. unfold enq. rewrite length_take, (inv_len _ _ H).
  pose proof (inv_qe _ _ H). lia.
Qed.

Lemma Inv_mem_gen (k : nat) (st : cstate) (s : Z) :
  Inv k st -> mem (closure st) s -> gen s.
Proof.
  intros H Hm. apply (inv_mem _ _ H) in Hm. destruct Hm as [Hm | Hm].
  - apply gen_included. exact Hm.
  - apply (inv_gen _ _ H). exact Hm.
Qed.

Lemma Inv_mono (k k' : nat) (st st' : cstate) (s : Z) :
  Inv k st -> Inv k' st' -> grows st st' ->
  mem (closure st) s -> mem (closure st') s.
Proof.
  intros H H' [_ [l Hl]] Hm. apply (inv_mem _ _ H'). rewrite Hl.
  apply (inv_mem _ _ H) in Hm. rewrite elem_of_app. tauto.
Qed.

Lemma Inv_qs (k : nat) (st : cstate) (q : Z) :
  Inv k st -> Inv k (mkCstate (closure st) (queue st) q (qe st)).
Proof. intros [H1 H2 H3 H4 H5 H6 H7 H8 H9 H10]. split; assumption. Qed.

(** The forcing block either finds [z] present, or finds it excluded and
    gives up, or marks and enqueues it; the queue cannot overflow. *)
Lemma force_spec (k : nat) (st : cstate) (z : Z) :
  Inv k st -> gen z -> in_range z ->
  exists b st', force excluded st z = Ok (b, st') /\ Inv k st' /\
    grows st st' /\
    (b = true -> mem (closure st') z) /\
    (b = false -> failed st').
Proof.
  intros HI Hg Hz. unfold force.
  rewrite (bs_get_in_range _ _ (inv_wf _ _ HI) Hz). simpl.
  rewrite truthy_b2z.
  destruct (bit (closure st) z) eqn:Hc.
  { exists true, st. split; [reflexivity |]. split; [exact HI |].
    split; [apply grows_refl |]. split; [| discriminate].
    intros _. apply (mem_bit _ _ (inv_wf _ _ HI)). auto. }
  assert (Hnc : ~ mem (closure st) z).
  { intros Hm. apply (mem_bit _ _ (inv_wf _ _ HI)) in Hm.
    destruct Hm as [_ Hm]. congruence. }
  rewrite (bs_get_in_range _ _ wf_excluded Hz). simpl.
  rewrite truthy_b2z.
  destruct (bit excluded z) eqn:He.
  { exists false, st. split; [reflexivity |]. split; [exact HI |].
    split; [apply grows_refl |]. split; [discriminate |].
    intros _. exists z. split; [exact Hg |]. split; [| exact Hnc].
    apply (mem_bit _ _ wf_excluded). auto. }
  assert (Hne : ~ mem excluded z).
  { intros Hm. apply (mem_bit _ _ wf_excluded) in Hm.
    destruct Hm as [_ Hm]. congruence. }
  destruct (bs_set_spec _ _ (inv_wf _ _ HI) Hz) as [cl [Hset [Hwf Hmem]]].
  rewrite Hset. simpl.
  assert (Hnz : z ∉ enq st).
  { intros Hin. apply Hnc. apply (inv_mem _ _ HI). auto. }
  assert (Hnd : NoDup (enq st ++ [z])).
  { apply NoDup_app. split; [apply HI |]. split.
    - intros x Hx Hx'. apply list_elem_of_singleton in Hx'. subst x. auto.
    - apply NoDup_singleton. }
  assert (Hlen : (length (enq st ++ [z]) <= Z.to_nat MAX_SUBSETS)%nat).
  { apply range_nodup_length; [exact Hnd |].
    intros s Hs. apply elem_of_app in Hs. destruct Hs as [Hs | Hs].
    - apply (mem_in_range (closure st)); [apply HI |].
      apply (inv_mem _ _ HI). auto.
    - apply list_elem_of_singleton in Hs. subst s. exact Hz. }
  rewrite length_app, (enq_length _ _ HI) in Hlen. simpl in Hlen.
  pose proof (inv_qe _ _ HI) as Hqe. pose proof (inv_len _ _ HI) as Hql.
  destruct (arr_set (queue st) (qe st) z) as [q | |] eqn:Hq;
    try (unfold arr_set in Hq;
         destruct (Z.ltb_spec (qe st) 0); [lia |];
         destruct (Z.ltb_spec (qe st) (Z.of_nat (length (queue st))));
         [discriminate | lia]).
  simpl. destruct (enq_push st z cl q ltac:(lia) Hq) as [Henq Hlq].
  set (st' := mkCstate cl q (qs st) (qe st + 1)) in *.
  assert (H1 : (1 <= length (enq st))%nat).
  { pose proof (inv_head _ _ HI) as Hh. apply lookup_lt_Some in Hh. lia. }
  exists true, st'. split; [reflexivity |]. split; [| split; [| split]].
  - split.
    + exact Hwf.
    + simpl. congruence.
    + simpl. lia.
    + rewrite Henq, length_app. pose proof (inv_k _ _ HI). lia.
    + rewrite Henq, lookup_app_l by lia. apply HI.
    + rewrite Henq. exact Hnd.
    + intros s. simpl closure. rewrite Hmem, Henq, elem_of_app,
        list_elem_of_singleton, (inv_mem _ _ HI). tauto.
    + intros s. rewrite Henq, elem_of_app, list_elem_of_singleton.
      intros [Hs | ->]; [apply (inv_gen _ _ HI); exact Hs | exact Hg].
    + intros s. rewrite Henq, drop_app_le by lia.
      rewrite elem_of_app, list_elem_of_singleton.
      intros [Hs | ->]; [apply (inv_new _ _ HI); exact Hs |].
      split; [| exact Hne]. intros Hm. apply Hnc, (inv_mem _ _ HI). auto.
    + intros x. rewrite Henq, take_app_le, drop_app_le by apply HI.
      intros Hx. destruct (inv_closed _ _ HI x Hx) as [Hcx Hux].
      simpl closure. split; [apply Hmem; auto |].
      intros y Hy Hny Hxy. apply Hmem. right.
      apply not_elem_of_app in Hny. destruct Hny as [Hny Hyz].
      apply Hmem in Hy. destruct Hy as [-> | Hy].
      * exfalso. apply Hyz. apply list_elem_of_singleton. reflexivity.
      * apply Hux; assumption.
  - split; [reflexivity |]. exists [z]. exact Henq.
  - intros _. simpl. apply Hmem. auto.
  - discriminate.
Qed.

Lemma word_index (w j : Z) :
  0 <= w < BITSET_WORDS -> 0 <= j < 64 ->
  u32 (Z.shiftl w 6 + j) = 64 * w + j /\ in_range (64 * w + j).
Proof.
  change BITSET_WORDS with 2. intros Hw Hj.
  rewrite Z.shiftl_mul_pow2 by lia. change (2 ^ 6) with 64. split.
  - unfold u32. rewrite Z.mod_small; lia.
  - unfold in_range. change MAX_SUBSETS with 128. lia.
Qed.

Lemma word_bits_zero (word : Z) :
  0 <= word < 2 ^ 64 ->
  (forall j, 0 <= j < 64 -> Z.testbit word j = false) -> word = 0.
Proof.
  intros Hr Hz. apply Z.bits_inj'. intros n Hn. rewrite Z.bits_0.
  destruct (Z_lt_dec n 64); [apply Hz; lia |].
  apply (Z.bounded_iff_bits_nonneg' 64 word); lia.
Qed.

Lemma word_bit_lt (word j : Z) :
  0 <= word < 2 ^ 64 -> 0 <= j -> Z.testbit word j = true -> j < 64.
Proof.
  intros Hr Hj Hb. destruct (Z_lt_dec j 64) as [H | H]; [exact H |].
  rewrite (proj1 (Z.bounded_iff_bits_nonneg' 64 word ltac:(lia) ltac:(lia)) Hr j)
    in Hb by lia.
  discriminate.
Qed.

(** The scan of one snapshot word visits every set bit of the snapshot. *)
Lemma scan_word_spec (fuel : nat) :
  forall (k : nat) (st : cstate) (x w word p : Z),
  Inv k st -> in_range x -> mem (closure st) x ->
  0 <= w < BITSET_WORDS ->
  0 <= word < 2 ^ 64 -> 0 <= p <= 64 ->
  (forall j, 0 <= j < p -> Z.testbit word j = false) ->
  64 <= Z.of_nat fuel + p ->
  (forall j, 0 <= j -> Z.testbit word j = true ->
             mem (closure st) (64 * w + j)) ->
  exists b st', scan_word fuel excluded x w word st = Ok (b, st') /\
    Inv k st' /\ grows st st' /\
    (b = true -> forall j, 0 <= j -> Z.testbit word j = true ->
       Z.land x (64 * w + j) = 0 ->
       mem (closure st') (Z.lor x (64 * w + j))) /\
    (b = false -> failed st').
Proof.
  induction fuel as [| fuel IH];
    intros k st x w word p HI Hx Hmx Hw Hr Hp Hlow Hfuel Hsnap.
  - assert (word = 0) by (apply word_bits_zero; [exact Hr |];
                          intros j Hj; apply Hlow; lia).
    subst word. exists true, st. simpl.
    split; [reflexivity |]. split; [exact HI |].
    split; [apply grows_refl |]. split; [| discriminate].
    intros _ j _ Hb. rewrite Z.bits_0 in Hb. discriminate.
  - simpl. destruct (Z.eqb_spec word 0) as [-> | Hne].
    { exists true, st.
      split; [reflexivity |]. split; [exact HI |].
      split; [apply grows_refl |]. split; [| discriminate].
      intros _ j _ Hb. rewrite Z.bits_0 in Hb. discriminate. }
    destruct (ctzll_spec word ltac:(lia)) as [Hb0 [Hb1 [Hb2 Hb3]]].
    set (bit0 := ctzll word) in *.
    pose proof (word_bit_lt _ _ Hr Hb0 Hb1) as Hb64.
    assert (Hbp : p <= bit0).
    { destruct (Z_le_dec p bit0) as [H | H]; [exact H |].
      rewrite Hlow in Hb1 by lia. discriminate. }
    set (word' := Z.land word (word - 1)) in *.
    assert (Hr' : 0 <= word' < 2 ^ 64).
    { apply (Z.bounded_iff_bits_nonneg' 64 word'); [lia | |].
      - apply Z.land_nonneg. left. lia.
      - intros l Hl. rewrite Hb3 by lia.
        rewrite (proj1 (Z.bounded_iff_bits_nonneg' 64 word ltac:(lia) ltac:(lia))
                   Hr l Hl).
        reflexivity. }
    assert (Hlow' : forall j, 0 <= j < bit0 + 1 -> Z.testbit word' j = false).
    { intros j Hj. rewrite Hb3 by lia.
      destruct (Z.eqb_spec j bit0) as [-> | Hjb].
      - apply andb_false_r.
      - rewrite Hb2 by lia. reflexivity. }
    assert (Hsub : forall j, 0 <= j -> Z.testbit word' j = true ->
                             Z.testbit word j = true /\ j <> bit0).
    { intros j Hj Hb. rewrite Hb3 in Hb by lia.
      apply andb_true_iff in Hb. destruct Hb as [Hb Hn]. split; [exact Hb |].
      intros ->. rewrite Z.eqb_refl in Hn. discriminate. }
    destruct (word_index w bit0 Hw ltac:(lia)) as [Hy Hyr].
    rewrite Hy. set (y := 64 * w + bit0) in *.
    assert (Hmy : mem (closure st) y) by (apply Hsnap; assumption).
    destruct (Z.eqb_spec (Z.land x y) 0) as [Hdisj | Hdisj].
    + destruct (force_spec k st (Z.lor x y) HI) as [b1 [st1 [Hf [HI1 [Hg1 [Ht1 Hf1]]]]]].
      { apply gen_union; [apply (Inv_mem_gen _ _ _ HI Hmx)
                         | apply (Inv_mem_gen _ _ _ HI Hmy) | exact Hdisj]. }
      { apply lor_in_range; assumption. }
      rewrite Hf. simpl. destruct b1.
      * destruct (IH k st1 x w word' (bit0 + 1) HI1 Hx) as
          [b2 [st2 [Hs [HI2 [Hg2 [Ht2 Hf2]]]]]]; try assumption; try lia.
        { apply (Inv_mono _ _ _ _ _ HI HI1 Hg1 Hmx). }
        { intros j Hj Hb. apply (Inv_mono _ _ _ _ _ HI HI1 Hg1).
          apply Hsnap; [exact Hj |]. apply (Hsub j Hj Hb). }
        exists b2, st2. split; [exact Hs |]. split; [exact HI2 |].
        split; [apply (grows_trans _ _ _ Hg1 Hg2) |]. split; [| exact Hf2].
        intros -> j Hj Hb Hjd.
        destruct (Z.eq_dec j bit0) as [-> | Hjb].
        -- apply (Inv_mono _ _ _ _ _ HI1 HI2 Hg2). apply Ht1. reflexivity.
        -- apply Ht2; try assumption; try reflexivity.
           rewrite Hb3 by lia. rewrite Hb. simpl.
           destruct (Z.eqb_spec j bit0); [contradiction | reflexivity].
      * exists false, st1. split; [reflexivity |]. split; [exact HI1 |].
        split; [exact Hg1 |]. split; [discriminate | exact Hf1].
    + destruct (IH k st x w word' (bit0 + 1) HI Hx) as
        [b2 [st2 [Hs [HI2 [Hg2 [Ht2 Hf2]]]]]]; try assumption; try lia.
      { intros j Hj Hb. apply Hsnap; [exact Hj |]. apply (Hsub j Hj Hb). }
      exists b2, st2. split; [exact Hs |]. split; [exact HI2 |].
      split; [exact Hg2 |]. split; [| exact Hf2].
      intros -> j Hj Hb Hjd.
      destruct (Z.eq_dec j bit0) as [-> | Hjb]; [contradiction |].
      apply Ht2; try assumption; try reflexivity.
      rewrite Hb3 by lia. rewrite Hb. simpl.
      destruct (Z.eqb_spec j bit0); [contradiction | reflexivity].
Qed.

(** The scan of all words visits every member that the closure had when
    the scan began. *)
Lemma scan_words_spec (n : nat) :
  forall (k : nat) (st : cstate) (x w : Z),
  Inv k st -> in_range x -> mem (closure st) x ->
  0 <= w -> w + Z.of_nat n = BITSET_WORDS ->
  exists b st', scan_words n excluded x w st = Ok (b, st') /\
    Inv k st' /\ grows st st' /\
    (b = true -> forall y, mem (closure st) y -> w <= Z.shiftr y 6 ->
       Z.land x y = 0 -> mem (closure st') (Z.lor x y)) /\
    (b = false -> failed st').
Proof.
  induction n as [| n IH]; intros k st x w HI Hx Hmx Hw0 Hwn.
  - exists true, st. split; [reflexivity |]. split; [exact HI |].
    split; [apply grows_refl |]. split; [| discriminate].
    intros _ y Hy Hwy _. apply (mem_in_range _ _ (inv_wf _ _ HI)) in Hy.
    apply in_range_words in Hy. lia.
  - assert (Hw : 0 <= w < BITSET_WORDS) by lia.
    destruct (idx_join w 0 ltac:(lia)) as [Hq0 _].
    destruct (wf_lookup (closure st) (64 * w + 0) (inv_wf _ _ HI))
      as [word [Hword Hr]].
    { apply in_range_words. rewrite Hq0. exact Hw. }
    rewrite Hq0 in Hword.
    assert (Hbit : forall j, 0 <= j < 64 ->
              bit (closure st) (64 * w + j) = Z.testbit word j).
    { intros j Hj. unfold bit. destruct (idx_join w j Hj) as [-> ->].
      rewrite Hword. reflexivity. }
    cbn [scan_words].
    replace (arr_get (bits (closure st)) w) with (Ok word)
      by (symmetry; apply arr_get_Ok; split; [lia | exact Hword]).
    cbn [bind].
    destruct (scan_word_spec 64 k st x w word 0 HI Hx Hmx Hw Hr)
      as [b1 [st1 [Hs1 [HI1 [Hg1 [Ht1 Hf1]]]]]]; try lia.
    { intros j Hj Hb. pose proof (word_bit_lt _ _ Hr Hj Hb) as Hj64.
      apply (mem_bit _ _ (inv_wf _ _ HI)). split.
      - apply (word_index w j Hw). lia.
      - rewrite Hbit by lia. exact Hb. }
    rewrite Hs1. cbn [bind]. destruct b1.
    + destruct (IH k st1 x (w + 1) HI1 Hx) as
        [b2 [st2 [Hs2 [HI2 [Hg2 [Ht2 Hf2]]]]]]; try lia.
      { apply (Inv_mono _ _ _ _ _ HI HI1 Hg1 Hmx). }
      exists b2, st2. split; [exact Hs2 |]. split; [exact HI2 |].
      split; [apply (grows_trans _ _ _ Hg1 Hg2) |]. split; [| exact Hf2].
      intros -> y Hy Hwy Hxy.
      destruct (Z.eq_dec (Z.shiftr y 6) w) as [Heq | Hneq].
      * destruct (idx_split y) as [Hys Hyb].
        assert (Hye : y = 64 * w + Z.land y 63) by lia.
        apply (Inv_mono _ _ _ _ _ HI1 HI2 Hg2). rewrite Hye.
        apply Ht1; [reflexivity | lia | | rewrite <- Hye; exact Hxy].
        rewrite <- Hbit by lia. rewrite <- Hye.
        apply (mem_bit _ _ (inv_wf _ _ HI)) in Hy. tauto.
      * apply Ht2; [reflexivity | | lia | exact Hxy].
        apply (Inv_mono _ _ _ _ _ HI HI1 Hg1 Hy).
    + exists false, st1. split; [reflexivity |]. split; [exact HI1 |].
      split; [exact Hg1 |]. split; [discriminate | exact Hf1].
Qed.

(** One iteration of the [while] loop completes the propagation of the
    popped index. *)
Lemma process_spec (st : cstate) :
  Inv (Z.to_nat (qs st)) st -> 0 <= qs st < qe st ->
  exists b st', process omega excluded st = Ok (b, st') /\
    qs st' = qs st + 1 /\
    (b = true -> Inv (S (Z.to_nat (qs st))) st') /\
    (b = false -> Inv (Z.to_nat (qs st)) st' /\ failed st').
Proof.
  intros HI Hq. set (k := Z.to_nat (qs st)) in *.
  pose proof (enq_length _ _ HI) as Hlen.
  destruct (lookup_lt_is_Some_2 (enq st) k ltac:(lia)) as [x Hx].
  assert (Hqx : queue st !! k = Some x).
  { unfold enq in Hx. apply lookup_take_Some in Hx. tauto. }
  assert (Hin : x ∈ enq st) by (apply list_elem_of_lookup; eauto).
  assert (Hmx : mem (closure st) x) by (apply (inv_mem _ _ HI); auto).
  pose proof (mem_in_range _ _ (inv_wf _ _ HI) Hmx) as Hxr.
  unfold process.
  replace (arr_get (queue st) (qs st)) with (Ok x)
    by (symmetry; apply arr_get_Ok; split; [lia | exact Hqx]).
  cbn [bind].
  set (st1 := mkCstate (closure st) (queue st) (qs st + 1) (qe st)).
  assert (HI1 : Inv k st1) by (apply Inv_qs; exact HI).
  destruct (force_spec k st1 (Z.lxor omega x) HI1)
    as [b1 [st2 [Hf [HI2 [Hg2 [Ht2 Hf2]]]]]].
  { apply gen_complement, (inv_gen _ _ HI), Hin. }
  { apply lxor_in_range; assumption. }
  rewrite Hf. cbn [bind]. destruct Hg2 as [Hqs2 [l2 Hl2]].
  change (enq st1) with (enq st) in Hl2. change (qs st1) with (qs st + 1) in Hqs2.
  destruct b1.
  2:{ exists false, st2. split; [reflexivity |]. split; [exact Hqs2 |].
      split; [discriminate |]. intros _. split; [exact HI2 | exact (Hf2 eq_refl)]. }
  assert (Hm2 : forall s, mem (closure st) s -> mem (closure st2) s).
  { intros s Hs. apply (inv_mem _ _ HI2). rewrite Hl2, elem_of_app.
    apply (inv_mem _ _ HI) in Hs. tauto. }
  destruct (scan_words_spec (Z.to_nat BITSET_WORDS) k st2 x 0 HI2 Hxr)
    as [b3 [st3 [Hs3 [HI3 [Hg3 [Ht3 Hf3]]]]]];
    [apply Hm2, Hmx | lia | reflexivity |].
  rewrite Hs3. destruct Hg3 as [Hqs3 [l3 Hl3]].
  exists b3, st3. split; [reflexivity |]. split; [congruence |].
  split; [| intros Hb; split; [exact HI3 | exact (Hf3 Hb)]].
  intros ->. specialize (Ht3 eq_refl). specialize (Ht2 eq_refl).
  assert (Henq3 : enq st3 = enq st ++ (l2 ++ l3))
    by (rewrite Hl3, Hl2; symmetry; apply app_assoc).
  assert (Hx3 : enq st3 !! k = Some x)
    by (rewrite Henq3; apply lookup_app_l_Some; exact Hx).
  assert (Hm3 : forall s, mem (closure st2) s -> mem (closure st3) s).
  { intros s Hs. apply (inv_mem _ _ HI3). rewrite Hl3, elem_of_app.
    apply (inv_mem _ _ HI2) in Hs. tauto. }
  assert (Htk : forall s, s ∈ take (S k) (enq st3) -> mem (closure st2) s).
  { intros s Hs. apply Hm2, (inv_mem _ _ HI). right.
    rewrite Henq3, take_app_le in Hs by lia.
    apply elem_of_take in Hs. destruct Hs as [i [Hi _]].
    apply list_elem_of_lookup. eauto. }
  destruct HI3 as [H1 H2 H3 H4 H5 H6 H7 H8 H9 H10]. split; try assumption.
  - apply lookup_lt_Some in Hx3. lia.
  - intros x'. rewrite (take_S_r _ _ _ Hx3), elem_of_app, list_elem_of_singleton.
    rewrite (drop_S _ _ _ Hx3) in H10.
    intros [Hx' | ->].
    + destruct (H10 x' Hx') as [Hc Hu]. split; [exact Hc |].
      intros y Hy Hny Hxy. destruct (Z.eq_dec y x) as [-> | Hyx].
      * rewrite Z.lor_comm. apply Ht3.
        -- apply Htk. rewrite (take_S_r _ _ _ Hx3), elem_of_app. auto.
        -- apply in_range_word_nonneg, (mem_in_range (closure st2));
             [apply HI2 |].
           apply Htk. rewrite (take_S_r _ _ _ Hx3), elem_of_app. auto.
        -- rewrite Z.land_comm. exact Hxy.
      * apply Hu; [exact Hy | | exact Hxy].
        rewrite not_elem_of_cons. auto.
    + split; [apply Hm3, Ht2 |].
      intros y Hy Hny Hxy.
      assert (Hy2 : mem (closure st2) y).
      { apply H7 in Hy. destruct Hy as [Hy | Hy].
        - apply (inv_mem _ _ HI2). auto.
        - apply Htk. rewrite <- (take_drop (S k) (enq st3)) in Hy.
          apply elem_of_app in Hy. tauto. }
      apply Ht3; [exact Hy2 | | exact Hxy].
      apply in_range_word_nonneg, (mem_in_range (closure st2));
        [apply HI2 | exact Hy2].
Qed.

Lemma closure_loop_spec (fuel : nat) :
  forall st, Inv (Z.to_nat (qs st)) st -> 0 <= qs st <= qe st ->
    MAX_SUBSETS <= Z.of_nat fuel + qs st ->
    exists b st', closure_loop fuel omega excluded st = Ok (b, st') /\
      (b = true -> Inv (length (enq st')) st' /\ qs st' = qe st') /\
      (b = false -> (exists k, Inv k st') /\ failed st').
Proof.
  induction fuel as [| fuel IH]; intros st HI Hq Hfuel;
    pose proof (inv_qe _ _ HI) as Hqe;
    pose proof (enq_length _ _ HI) as Hlen;
    cbn [closure_loop]; destruct (Z.ltb_spec (qs st) (qe st)) as [Hlt | Hge];
    try lia;
    try (exists true, st; split; [reflexivity |]; split; [| discriminate];
         intros _; replace (length (enq st)) with (Z.to_nat (qs st)) by lia;
         split; [exact HI | lia]).
  destruct (process_spec st HI ltac:(lia)) as [b [st' [Hp [Hqs [Ht Hf]]]]].
  rewrite Hp. cbn [bind]. destruct b.
  - specialize (Ht eq_refl).
    replace (S (Z.to_nat (qs st))) with (Z.to_nat (qs st')) in Ht by lia.
    pose proof (inv_k _ _ Ht) as Hk. rewrite (enq_length _ _ Ht) in Hk.
    apply IH; [exact Ht | lia | lia].
  - exists false, st'. split; [reflexivity |]. split; [discriminate |].
    intros _. destruct (Hf eq_refl) as [HI' Hfail]. eauto.
Qed.

Lemma extend_init_spec :
  in_range extension ->
  exists st, extend_init included extension = Ok st /\ Inv 0 st /\
             qs st = 0 /\ qe st = 1.
Proof.
  intros He. unfold extend_init. rewrite bs_copy_eq.
  destruct (bs_set_spec _ _ wf_included He) as [cl [Hset [Hwf Hmem]]].
  rewrite Hset. cbn [bind].
  exists (mkCstate cl (<[0%nat := extension]> (replicate (Z.to_nat MAX_SUBSETS) 0)) 0 1).
  split; [reflexivity |]. split; [| split; reflexivity].
  assert (Henq : enq (mkCstate cl
            (<[0%nat := extension]> (replicate (Z.to_nat MAX_SUBSETS) 0)) 0 1)
          = [extension]) by reflexivity.
  split; rewrite ?Henq; simpl closure; simpl qe.
  - exact Hwf.
  - reflexivity.
  - change MAX_SUBSETS with 128. lia.
  - simpl. lia.
  - reflexivity.
  - apply NoDup_singleton.
  - intros s. rewrite Hmem, list_elem_of_singleton. tauto.
  - intros s Hs. apply list_elem_of_singleton in Hs. subst s. apply gen_extension.
  - intros s Hs. simpl in Hs. apply elem_of_nil in Hs. contradiction.
  - intros x Hx. simpl in Hx. apply elem_of_nil in Hx. contradiction.
Qed.

(** [extend_closure] always returns, without leaving its arrays.  On
    success the propagation of every enqueued index is complete. *)
Lemma extend_closure_run_spec :
  in_range extension ->
  exists b st,
    extend_closure_run omega included extension excluded = Ok (b, st) /\
    (b = true -> Inv (length (enq st)) st /\ qs st = qe st) /\
    (b = false -> (exists k, Inv k st) /\ failed st).
Proof.
  intros He. unfold extend_closure_run.
  destruct (extend_init_spec He) as [st0 [H0 [HI0 [Hqs Hqe]]]].
  rewrite H0. cbn [bind].
  apply closure_loop_spec.
  - rewrite Hqs. exact HI0.
  - lia.
  - rewrite Hqs. change MAX_SUBSETS with 128. lia.
Qed.

End Closure.

(** ** What [extend_closure] returns *)

Lemma enq_head_tail (omega : Z) (included excluded : Bitset) (extension : Z)
    (k : nat) (st : cstate) (s : Z) :
  Inv omega included excluded extension k st ->
  s ∈ enq st -> s = extension \/ s ∈ drop 1 (enq st).
Proof.
  intros HI Hs. pose proof (inv_head _ _ _ _ _ _ HI) as Hh.
  destruct (enq st) as [| a l]; [discriminate |].
  simpl in Hh. inversion Hh; subst a. simpl.
  apply elem_of_cons in Hs. exact Hs.
Qed.

(** The facts about a call of [extend_closure] on arguments that fit the
    bitset.  The call returns; the closure holds [included] and [extension]
    and only subsets that the closure axioms force; whatever was added to it
    is not excluded; on success it is closed wherever a new member is
    involved; on failure a forced subset is excluded. *)
Lemma extend_closure_facts (omega : Z) (included : Bitset) (extension : Z)
    (excluded : Bitset) :
  wf_bitset included -> wf_bitset excluded ->
  in_range omega -> in_range extension ->
  exists b cl,
    extend_closure omega included extension excluded = Ok (b, cl) /\
    wf_bitset cl /\
    (forall s, mem included s -> mem cl s) /\
    mem cl extension /\
    (forall s, mem cl s -> generated omega included extension s) /\
    (forall s, mem cl s ->
               mem included s \/ s = extension \/ ~ mem excluded s) /\
    (b = true ->
       forall x, mem cl x -> ~ mem included x ->
         mem cl (Z.lxor omega x) /\
         forall y, mem cl y -> Z.land x y = 0 -> mem cl (Z.lor x y)) /\
    (b = false ->
       exists z, generated omega included extension z /\
                 mem excluded z /\ ~ mem cl z).
Proof.
  intros Hwi Hwe Ho He.
  destruct (extend_closure_run_spec omega included excluded extension
              Hwi Hwe Ho He) as [b [st [Hrun [Ht Hf]]]].
  unfold extend_closure. rewrite Hrun. cbn [bind fst snd].
  exists b, (closure st). split; [reflexivity |].
  assert (HI : exists k, Inv omega included excluded extension k st).
  { destruct b; [exists (length (enq st)); apply Ht; reflexivity |].
    apply Hf. reflexivity. }
  destruct HI as [k HI].
  split; [apply HI |]. split; [| split; [| split; [| split; [| split]]]].
  - intros s Hs. apply (inv_mem _ _ _ _ _ _ HI). auto.
  - apply (inv_mem _ _ _ _ _ _ HI). right.
    apply list_elem_of_lookup. exists 0%nat. apply HI.
  - intros s Hs. exact (Inv_mem_gen _ _ _ _ _ _ _ HI Hs).
  - intros s Hs. apply (inv_mem _ _ _ _ _ _ HI) in Hs.
    destruct Hs as [Hs | Hs]; [auto |].
    destruct (enq_head_tail _ _ _ _ _ _ _ HI Hs) as [-> | Hd]; [auto |].
    right. right. apply (inv_new _ _ _ _ _ _ HI). exact Hd.
  - intros ->. destruct (Ht eq_refl) as [HI' _].
    intros x Hx Hnx. apply (inv_mem _ _ _ _ _ _ HI') in Hx.
    destruct Hx as [Hx | Hx]; [contradiction |].
    destruct (inv_closed _ _ _ _ _ _ HI' x) as [Hc Hu].
    { rewrite firstn_all. exact Hx. }
    split; [exact Hc |]. intros y Hy Hxy. apply Hu; [exact Hy | | exact Hxy].
    rewrite drop_all. apply not_elem_of_nil.
  - intros ->. destruct (Hf eq_refl) as [_ Hfail]. exact Hfail.
Qed.

(** On a family that is already closed, success yields a closed family. *)
Lemma extend_closure_closed (omega : Z) (included : Bitset) (extension : Z)
    (excluded cl : Bitset) :
  wf_bitset included -> wf_bitset excluded ->
  in_range omega -> in_range extension ->
  dynkin_closed omega (mem included) ->
  extend_closure omega included extension excluded = Ok (true, cl) ->
  dynkin_closed omega (mem cl).
Proof.
  intros Hwi Hwe Ho He [Hdc Hdu] Hext.
  destruct (extend_closure_facts omega included extension excluded
              Hwi Hwe Ho He) as [b [cl' [H [_ [Hsup [_ [_ [_ [Hcl _]]]]]]]]].
  rewrite Hext in H. inversion H; subst b cl'. specialize (Hcl eq_refl).
  split.
  - intros s Hs. destruct (mem_dec included s) as [Hi | Hi].
    + apply Hsup, Hdc, Hi.
    + apply (Hcl s Hs Hi).
  - intros x y Hx Hy Hxy. destruct (mem_dec included x) as [Hix | Hix].
    + destruct (mem_dec included y) as [Hiy | Hiy].
      * apply Hsup, Hdu; assumption.
      * rewrite Z.lor_comm. apply (Hcl y Hy Hiy); [exact Hx |].
        rewrite Z.land_comm. exact Hxy.
    + apply (Hcl x Hx Hix); assumption.
Qed.

(** ** Fuel *)

(** The run did not stop for lack of fuel, and if it returned the result
    satisfies [P]. *)
Definition terminates {A : Type} (P : A -> Prop) (r : result A) : Prop :=
  match r with
  | Ok a => P a
  | OutOfBounds => True
  | OutOfFuel => False
  end.

Lemma terminates_bind {A B : Type} (P : A -> Prop) (Q : B -> Prop)
    (m : result A) (k : A -> result B) :
  terminates P m -> (forall a, m = Ok a -> P a -> terminates Q (k a)) ->
  terminates Q (bind m k).
Proof.
  destruct m; simpl; intros H1 H2; auto.
Qed.

Lemma arr_get_terminates {A : Type} (a : list A) (i : Z) :
  terminates (fun v => a !! Z.to_nat i = Some v /\ 0 <= i) (arr_get a i).
Proof.
  destruct (arr_get a i) eqn:E; simpl; auto.
  - apply arr_get_Ok in E. tauto.
  - unfold arr_get in E. destruct (i <? 0); [discriminate |].
    destruct (a !! Z.to_nat i); discriminate.
Qed.

Lemma arr_set_terminates {A : Type} (a : list A) (i : Z) (v : A) :
  terminates (fun a' => length a' = length a /\ 0 <= i < Z.of_nat (length a))
             (arr_set a i v).
Proof.
  destruct (arr_set a i v) eqn:E; simpl; auto.
  - apply arr_set_Ok in E. destruct E as [H ->]. rewrite length_insert. auto.
  - unfold arr_set in E. destruct (i <? 0); [discriminate |].
    destruct (i <? Z.of_nat (length a)); discriminate.
Qed.

Lemma bs_get_terminates (bs : Bitset) (s : Z) :
  terminates (fun _ => True) (bs_get bs s).
Proof.
  unfold bs_get. eapply terminates_bind; [apply arr_get_terminates |].
  intros; exact I.
Qed.

Lemma bs_set_terminates (bs : Bitset) (s : Z) :
  wf_bitset bs -> terminates wf_bitset (bs_set bs s).
Proof.
  intros Hwf. destruct (bs_set bs s) eqn:E; simpl; auto.
  - apply (bs_set_Ok _ _ _ Hwf) in E. tauto.
  - unfold bs_set in E.
    pose proof (arr_get_terminates (bits bs) (Z.shiftr s 6)) as H1.
    destruct (arr_get (bits bs) (Z.shiftr s 6)) as [w | |];
      simpl in *; try discriminate; try contradiction.
    pose proof (arr_set_terminates (bits bs) (Z.shiftr s 6)
                  (Z.lor w (u64 (Z.shiftl 1 (Z.land s 63))))) as H2.
    destruct (arr_set (bits bs) (Z.shiftr s 6) _) as [l | |];
      simpl in *; try discriminate; try contradiction.
Qed.

(** Fuel beyond the distance to the midpoint is never used by [inner]. *)
Lemma inner_from_fuel (omega : Z) (fuel : nat) :
  forall (fuel' : nat) (m : Z) (included excluded : Bitset) (count : Z),
    midpoint omega - m <= Z.of_nat fuel ->
    midpoint omega - m <= Z.of_nat fuel' ->
    inner_from fuel omega m included excluded count =
    inner_from fuel' omega m included excluded count.
Proof.
  induction fuel as [| fuel IH]; intros fuel' m inc exc count H1 H2;
    destruct fuel' as [| fuel']; cbn [inner_from];
    destruct (Z.ltb_spec m (midpoint omega)) as [Hlt | Hge];
    try reflexivity; try lia.
  destruct (bs_get inc m) as [i | |]; try reflexivity. cbn [bind].
  destruct (truthy i); [apply IH; lia |].
  destruct (bs_get exc m) as [e | |]; try reflexivity. cbn [bind].
  destruct (truthy e); [apply IH; lia |].
  destruct (extend_closure omega inc m exc) as [[b cl] | |];
    try reflexivity. cbn [bind].
  rewrite (IH fuel' (m + 1) (bs_copy cl) (bs_copy exc) 1) by lia.
  destruct b.
  - destruct (inner_from fuel' omega (m + 1) (bs_copy cl) (bs_copy exc) 1);
      try reflexivity. cbn [bind].
    destruct (bs_set exc m) as [e1 | |]; try reflexivity. cbn [bind].
    destruct (bs_set e1 (Z.lxor omega m)) as [e2 | |]; try reflexivity.
    cbn [bind]. apply IH; lia.
  - cbn [bind].
    destruct (bs_set exc m) as [e1 | |]; try reflexivity. cbn [bind].
    destruct (bs_set e1 (Z.lxor omega m)) as [e2 | |]; try reflexivity.
    cbn [bind]. apply IH; lia.
Qed.

(** ** One iteration of the enumerator *)

Lemma midpoint_in_range (omega : Z) :
  in_range omega ->
  midpoint omega = (omega + 1) / 2 /\ 0 <= midpoint omega <= 64.
Proof.
  unfold in_range, midpoint, u32. change MAX_SUBSETS with 128. intros H.
  rewrite Z.mod_small by lia. rewrite Z.shiftr_div_pow2 by lia.
  change (2 ^ 1) with 2. split; [reflexivity |].
  split; [apply Z.div_pos; lia |].
  apply Z.div_le_upper_bound; lia.
Qed.

Lemma midpoint_le (omega : Z) :
  0 <= omega -> midpoint omega <= (omega + 1) / 2.
Proof.
  intros H. unfold midpoint, u32. rewrite Z.shiftr_div_pow2 by lia.
  change (2 ^ 1) with 2. apply Z.div_le_mono; [lia |].
  apply Z.mod_le; lia.
Qed.

Lemma below_midpoint_in_range (omega m : Z) :
  in_range omega -> 0 <= m < midpoint omega ->
  in_range m /\ in_range (Z.lxor omega m) /\ m < omega.
Proof.
  intros Ho Hm. destruct (midpoint_in_range omega Ho) as [He Hr].
  assert (Hm' : in_range m)
    by (unfold in_range; change MAX_SUBSETS with 128; lia).
  split; [exact Hm' |]. split; [apply lxor_in_range; assumption |].
  rewrite He in Hm. unfold in_range in Ho.
  assert (2 * ((omega + 1) / 2) <= omega + 1)
    by (apply Z.mul_div_le; lia).
  assert (0 < omega) by (destruct (Z.eq_dec omega 0) as [-> | ?];
                         [simpl in Hm; lia | lia]).
  lia.
Qed.

(** The exclude-commit of [m]: [bs_set(excluded, m)] followed by
    [bs_set(excluded, omega ^ m)]. *)
Definition commit (omega m : Z) (excluded : Bitset) : result Bitset :=
  let* e1 := bs_set excluded m in
  bs_set e1 (Z.lxor omega m).

Lemma commit_spec (omega m : Z) (excluded : Bitset) :
  wf_bitset excluded -> in_range m -> in_range (Z.lxor omega m) ->
  exists e2, commit omega m excluded = Ok e2 /\ wf_bitset e2 /\
    forall s, mem e2 s <-> s = m \/ s = Z.lxor omega m \/ mem excluded s.
Proof.
  intros Hwf Hm Hc. unfold commit.
  destruct (bs_set_spec _ _ Hwf Hm) as [e1 [H1 [Hwf1 Hm1]]].
  destruct (bs_set_spec _ _ Hwf1 Hc) as [e2 [H2 [Hwf2 Hm2]]].
  rewrite H1. cbn [bind]. exists e2. split; [exact H2 |].
  split; [exact Hwf2 |]. intros s. rewrite Hm2, Hm1. tauto.
Qed.

(** The two ways through the loop body of [inner], for an index below the
    midpoint and families that fit the bitset. *)
Lemma inner_from_skip (omega : Z) (fuel : nat) (m : Z)
    (included excluded : Bitset) (count : Z) :
  wf_bitset included -> wf_bitset excluded -> in_range omega ->
  0 <= m < midpoint omega ->
  mem included m \/ mem excluded m ->
  inner_from (S fuel) omega m included excluded count =
  inner_from fuel omega (m + 1) included excluded count.
Proof.
  intros Hwi Hwe Ho Hm Hskip.
  destruct (below_midpoint_in_range _ _ Ho Hm) as [Hmr _].
  cbn [inner_from]. destruct (Z.ltb_spec m (midpoint omega)); [| lia].
  rewrite (bs_get_in_range _ _ Hwi Hmr). cbn [bind]. rewrite truthy_b2z.
  destruct (bit included m) eqn:Hi; [reflexivity |].
  rewrite (bs_get_in_range _ _ Hwe Hmr). cbn [bind]. rewrite truthy_b2z.
  destruct (bit excluded m) eqn:He; [reflexivity |].
  exfalso. destruct Hskip as [Hs | Hs];
    apply mem_bit in Hs; try assumption; destruct Hs; congruence.
Qed.

Lemma inner_from_try (omega : Z) (fuel : nat) (m : Z)
    (included excluded : Bitset) (count : Z) :
  wf_bitset included -> wf_bitset excluded -> in_range omega ->
  0 <= m < midpoint omega ->
  ~ mem included m -> ~ mem excluded m ->
  exists b cl e2,
    extend_closure omega included m excluded = Ok (b, cl) /\
    commit omega m excluded = Ok e2 /\
    inner_from (S fuel) omega m included excluded count =
    if b then
      let* c := inner_from fuel omega (m + 1) cl excluded 1 in
      inner_from fuel omega (m + 1) included e2 (u64 (count + c))
    else inner_from fuel omega (m + 1) included e2 count.
Proof.
  intros Hwi Hwe Ho Hm Hni Hne.
  destruct (below_midpoint_in_range _ _ Ho Hm) as [Hmr [Hcr _]].
  destruct (extend_closure_facts omega included m excluded Hwi Hwe Ho Hmr)
    as [b [cl [Hext _]]].
  destruct (commit_spec omega m excluded Hwe Hmr Hcr) as [e2 [Hc _]].
  exists b, cl, e2. split; [exact Hext |]. split; [exact Hc |].
  cbn [inner_from]. destruct (Z.ltb_spec m (midpoint omega)); [| lia].
  rewrite (bs_get_in_range _ _ Hwi Hmr). cbn [bind]. rewrite truthy_b2z.
  destruct (bit included m) eqn:Hi.
  { exfalso. apply Hni. apply mem_bit; auto. }
  rewrite (bs_get_in_range _ _ Hwe Hmr). cbn [bind]. rewrite truthy_b2z.
  destruct (bit excluded m) eqn:He.
  { exfalso. apply Hne. apply mem_bit; auto. }
  rewrite Hext. cbn [bind]. rewrite !bs_copy_eq.
  unfold commit in Hc.
  destruct (bs_set excluded m) as [e1 | |]; try discriminate.
  cbn [bind] in Hc.
  destruct b.
  - destruct (inner_from fuel omega (m + 1) cl excluded 1) as [c | |];
      try reflexivity.
    cbn [bind]. rewrite Hc. reflexivity.
  - cbn [bind]. rewrite Hc. reflexivity.
Qed.

(** ** The size of the count *)

(** The run returns a count between [lo] and [hi]. *)
Definition counts (r : result Z) (lo hi : Z) : Prop :=
  exists c, r = Ok c /\ lo <= c <= hi.

Lemma pow2_S (f : nat) : 2 ^ Z.of_nat (S f) = 2 * 2 ^ Z.of_nat f.
Proof. rewrite Nat2Z.inj_succ, Z.pow_succ_r by lia. reflexivity. Qed.

Lemma pow2_pos (f : nat) : 1 <= 2 ^ Z.of_nat f.
Proof. pose proof (Z.pow_pos_nonneg 2 (Z.of_nat f)). lia. Qed.

(** One iteration, given a bound [R] on the count of the include-branch and
    a bound [C] on what the rest of the loop adds. *)
Lemma inner_step_rule (omega : Z) (fuel : nat) (m : Z)
    (included excluded : Bitset) (count R C : Z) :
  wf_bitset included -> wf_bitset excluded -> in_range omega ->
  0 <= m < midpoint omega ->
  0 <= count -> 0 <= R -> 1 <= C -> count + R + C - 1 < 2 ^ 64 ->
  (forall cl, wf_bitset cl -> (forall s, mem included s -> mem cl s) ->
     mem cl m ->
     (forall y, mem cl y -> Z.land m y = 0 -> mem cl (Z.lor m y)) ->
     counts (inner_from fuel omega (m + 1) cl excluded 1) 1 R) ->
  (forall e count', wf_bitset e -> 0 <= count' ->
     count' + C - 1 < 2 ^ 64 ->
     counts (inner_from fuel omega (m + 1) included e count')
            count' (count' + C - 1)) ->
  counts (inner_from (S fuel) omega m included excluded count)
         count (count + R + C - 1).
Proof.
  intros Hwi Hwe Ho Hm Hc0 HR HC Hsum Hrec Hcont.
  destruct (below_midpoint_in_range _ _ Ho Hm) as [Hmr [Hcr _]].
  destruct (mem_dec included m) as [Hi | Hni];
    [| destruct (mem_dec excluded m) as [He | Hne]].
  - rewrite inner_from_skip by auto.
    destruct (Hcont excluded count Hwe Hc0 ltac:(lia)) as [c [Hc Hb]].
    exists c. split; [exact Hc | lia].
  - rewrite inner_from_skip by auto.
    destruct (Hcont excluded count Hwe Hc0 ltac:(lia)) as [c [Hc Hb]].
    exists c. split; [exact Hc | lia].
  - destruct (inner_from_try omega fuel m included excluded count
                Hwi Hwe Ho Hm Hni Hne) as [b [cl [e2 [Hext [Hcom Hstep]]]]].
    rewrite Hstep.
    destruct (commit_spec omega m excluded Hwe Hmr Hcr) as [e2' [Hcom' [Hwe2 _]]].
    rewrite Hcom in Hcom'. inversion Hcom'; subst e2'.
    destruct b.
    + destruct (extend_closure_facts omega included m excluded Hwi Hwe Ho Hmr)
        as [b' [cl' [Hext' [Hwcl [Hsup [Hmm [_ [_ [Hcl _]]]]]]]]].
      rewrite Hext in Hext'. inversion Hext'; subst b' cl'.
      destruct (Hrec cl Hwcl Hsup Hmm) as [r [Hr Hrb]].
      { intros y Hy Hmy. apply (Hcl eq_refl m Hmm Hni); assumption. }
      rewrite Hr. cbn [bind].
      assert (Hu : u64 (count + r) = count + r)
        by (unfold u64; apply Z.mod_small; lia).
      rewrite Hu.
      destruct (Hcont e2 (count + r) Hwe2 ltac:(lia) ltac:(lia))
        as [c [Hc Hb]].
      exists c. split; [exact Hc | lia].
    + destruct (Hcont e2 count Hwe2 Hc0 ltac:(lia)) as [c [Hc Hb]].
      exists c. split; [exact Hc | lia].
Qed.

(** Each undecided index at most doubles the count. *)
Lemma inner_from_bound (omega : Z) (fuel : nat) :
  forall (m : Z) (included excluded : Bitset) (count : Z),
    wf_bitset included -> wf_bitset excluded -> in_range omega ->
    0 <= m -> midpoint omega - m <= Z.of_nat fuel ->
    0 <= count -> count + 2 ^ Z.of_nat fuel - 1 < 2 ^ 64 ->
    counts (inner_from fuel omega m included excluded count)
           count (count + 2 ^ Z.of_nat fuel - 1).
Proof.
  induction fuel as [| fuel IH];
    intros m inc exc count Hwi Hwe Ho Hm Hfuel Hc0 Hsum.
  - cbn [inner_from]. destruct (Z.ltb_spec m (midpoint omega)); [lia |].
    exists count. split; [reflexivity |]. simpl. lia.
  - pose proof (pow2_pos fuel) as Hp. rewrite pow2_S in *.
    destruct (Z_lt_dec m (midpoint omega)) as [Hlt | Hge].
    + replace (count + 2 * 2 ^ Z.of_nat fuel - 1)
        with (count + 2 ^ Z.of_nat fuel + 2 ^ Z.of_nat fuel - 1) by lia.
      apply inner_step_rule; auto; try lia.
      * intros cl Hwcl _ _ _.
        replace (2 ^ Z.of_nat fuel) with (1 + 2 ^ Z.of_nat fuel - 1) by lia.
        apply IH; auto; lia.
      * intros e count' Hwe' Hc' Hs'. apply IH; auto; lia.
    + cbn [inner_from]. destruct (Z.ltb_spec m (midpoint omega)); [lia |].
      exists count. split; [reflexivity | lia].
Qed.

(** Index 3 is skipped when it is a member. *)
Lemma inner_from_bound3 (omega : Z) (f : nat)
    (included excluded : Bitset) :
  wf_bitset included -> wf_bitset excluded -> in_range omega ->
  3 < midpoint omega -> midpoint omega - 3 <= Z.of_nat (S f) ->
  (Z.of_nat f <= 60)%Z -> mem included 3 ->
  counts (inner_from (S f) omega 3 included excluded 1) 1 (2 ^ Z.of_nat f).
Proof.
  intros Hwi Hwe Ho H3 Hfuel Hf Hm.
  assert (Hp : 2 ^ Z.of_nat f <= 2 ^ 60) by (apply Z.pow_le_mono_r; lia).
  rewrite inner_from_skip by (auto; lia).
  replace (2 ^ Z.of_nat f) with (1 + 2 ^ Z.of_nat f - 1) by lia.
  apply inner_from_bound; auto; lia.
Qed.

(** With 1 a member, including 2 forces 3. *)
Lemma inner_from_bound2 (omega : Z) (f : nat)
    (included excluded : Bitset) :
  wf_bitset included -> wf_bitset excluded -> in_range omega ->
  3 < midpoint omega -> midpoint omega - 2 <= Z.of_nat (S (S f)) ->
  (Z.of_nat f <= 60)%Z -> mem included 1 ->
  counts (inner_from (S (S f)) omega 2 included excluded 1)
         1 (3 * 2 ^ Z.of_nat f).
Proof.
  intros Hwi Hwe Ho H3 Hfuel Hf Hm.
  assert (Hp : 2 ^ Z.of_nat f <= 2 ^ 60) by (apply Z.pow_le_mono_r; lia).
  pose proof (pow2_pos f) as Hp1.
  replace (3 * 2 ^ Z.of_nat f)
    with (1 + 2 ^ Z.of_nat f + 2 ^ Z.of_nat (S f) - 1)
    by (rewrite pow2_S; lia).
  apply inner_step_rule; auto; try lia.
  - rewrite pow2_S. lia.
  - intros cl Hwcl Hsup _ Hcl. apply inner_from_bound3; auto; try lia.
    apply (Hcl 1); [apply Hsup, Hm | reflexivity].
  - intros e count' Hwe' Hc' Hs'. apply inner_from_bound; auto; lia.
Qed.

Lemma inner_from_bound1 (omega : Z) (f : nat)
    (included excluded : Bitset) :
  wf_bitset included -> wf_bitset excluded -> in_range omega ->
  3 < midpoint omega -> midpoint omega - 1 <= Z.of_nat (S (S (S f))) ->
  (Z.of_nat f <= 60)%Z ->
  counts (inner_from (S (S (S f))) omega 1 included excluded 1)
         1 (7 * 2 ^ Z.of_nat f).
Proof.
  intros Hwi Hwe Ho H3 Hfuel Hf.
  assert (Hp : 2 ^ Z.of_nat f <= 2 ^ 60) by (apply Z.pow_le_mono_r; lia).
  pose proof (pow2_pos f) as Hp1.
  replace (7 * 2 ^ Z.of_nat f)
    with (1 + 3 * 2 ^ Z.of_nat f + 2 ^ Z.of_nat (S (S f)) - 1)
    by (rewrite !pow2_S; lia).
  apply inner_step_rule; auto; try lia.
  - rewrite !pow2_S. lia.
  - intros cl Hwcl _ Hm1 _. apply inner_from_bound2; auto; lia.
  - intros e count' Hwe' Hc' Hs'. apply inner_from_bound; auto; lia.
Qed.

Lemma inner_from_bound0 (omega : Z) (f : nat)
    (included excluded : Bitset) :
  wf_bitset included -> wf_bitset excluded -> in_range omega ->
  3 < midpoint omega -> midpoint omega <= Z.of_nat (S (S (S (S f)))) ->
  (Z.of_nat f <= 60)%Z ->
  counts (inner_from (S (S (S (S f)))) omega 0 included excluded 1)
         1 (15 * 2 ^ Z.of_nat f).
Proof.
  intros Hwi Hwe Ho H3 Hfuel Hf.
  assert (Hp : 2 ^ Z.of_nat f <= 2 ^ 60) by (apply Z.pow_le_mono_r; lia).
  pose proof (pow2_pos f) as Hp1.
  replace (15 * 2 ^ Z.of_nat f)
    with (1 + 7 * 2 ^ Z.of_nat f + 2 ^ Z.of_nat (S (S (S f))) - 1)
    by (rewrite !pow2_S; lia).
  apply inner_step_rule; auto; try lia.
  - rewrite !pow2_S. lia.
  - intros cl Hwcl _ _ _. apply inner_from_bound1; auto; lia.
  - intros e count' Hwe' Hc' Hs'. apply inner_from_bound; auto; lia.
Qed.

(** On families that fit the bitset, [inner] returns a count of at least
    1: the sums stay below [15 * 2 ^ 60], so that no addition reaches
    [2 ^ 64]. *)
Lemma inner_counts (omega lb : Z) (included excluded : Bitset) :
  wf_bitset included -> wf_bitset excluded -> in_range omega -> 0 <= lb ->
  counts (inner omega lb included excluded) 1 (2 ^ 64 - 1).
Proof.
  intros Hwi Hwe Ho Hlb. unfold inner.
  destruct (midpoint_in_range omega Ho) as [_ Hmid].
  assert (Hf : (inner_fuel omega lb <= 64)%nat) by (unfold inner_fuel; lia).
  destruct (Nat.eq_dec (inner_fuel omega lb) 64%nat) as [H64 | Hlt].
  - assert (lb = 0) by (unfold inner_fuel in H64; lia). subst lb.
    assert (Hm64 : midpoint omega = 64) by (unfold inner_fuel in H64; lia).
    rewrite H64. change 64%nat with (S (S (S (S 60)))).
    destruct (inner_from_bound0 omega 60 included excluded Hwi Hwe Ho)
      as [c [Hc Hb]]; try lia.
    exists c. split; [exact Hc |].
    change (2 ^ Z.of_nat 60) with (2 ^ 60) in Hb. lia.
  - assert (Hp : 2 ^ Z.of_nat (inner_fuel omega lb) <= 2 ^ 63)
      by (apply Z.pow_le_mono_r; lia).
    destruct (inner_from_bound omega (inner_fuel omega lb) lb included excluded 1
                Hwi Hwe Ho Hlb) as [c [Hc Hb]];
      try (unfold inner_fuel; lia); try lia.
    exists c. split; [exact Hc | lia].
Qed.

(** ** The excluded family only matters outside the included one *)

(** On a closed family, a successful extension returns exactly the forced
    subsets. *)
Lemma extend_closure_generated (omega : Z) (included : Bitset) (extension : Z)
    (excluded cl : Bitset) :
  wf_bitset included -> wf_bitset excluded ->
  in_range omega -> in_range extension ->
  dynkin_closed omega (mem included) ->
  extend_closure omega included extension excluded = Ok (true, cl) ->
  forall s, mem cl s <-> generated omega included extension s.
Proof.
  intros Hwi Hwe Ho He Hd Hext.
  pose proof (extend_closure_closed _ _ _ _ _ Hwi Hwe Ho He Hd Hext) as Hcl.
  destruct (extend_closure_facts omega included extension excluded
              Hwi Hwe Ho He) as [b [cl' [H [_ [Hsup [Hme [Hgen _]]]]]]].
  rewrite Hext in H. inversion H; subst b cl'.
  intros s. split; [apply Hgen |].
  apply generated_least; assumption.
Qed.

Lemma extend_closure_agree (omega : Z) (included : Bitset) (extension : Z)
    (exc exc' : Bitset) :
  wf_bitset included -> wf_bitset exc -> wf_bitset exc' ->
  in_range omega -> in_range extension ->
  dynkin_closed omega (mem included) ->
  (forall s, ~ mem included s -> (mem exc s <-> mem exc' s)) ->
  exists b cl cl',
    extend_closure omega included extension exc = Ok (b, cl) /\
    extend_closure omega included extension exc' = Ok (b, cl') /\
    (b = true -> cl = cl').
Proof.
  intros Hwi Hwe Hwe' Ho He Hd Hag.
  destruct (extend_closure_facts omega included extension exc
              Hwi Hwe Ho He)
    as [b [cl [H [Hw [Hsup [Hme [Hgen [Hnew [_ Hfail]]]]]]]]].
  destruct (extend_closure_facts omega included extension exc'
              Hwi Hwe' Ho He)
    as [b' [cl' [H' [Hw' [Hsup' [Hme' [Hgen' [Hnew' [_ Hfail']]]]]]]]].
  assert (Hclash : forall (e1 e2 c1 c2 : Bitset),
    (forall s, ~ mem included s -> (mem e1 s <-> mem e2 s)) ->
    (forall s, mem c1 s <-> generated omega included extension s) ->
    (forall s, mem c1 s -> mem included s \/ s = extension \/ ~ mem e1 s) ->
    (forall s, mem included s -> mem c2 s) -> mem c2 extension ->
    (exists z, generated omega included extension z /\ mem e2 z /\ ~ mem c2 z) ->
    False).
  { intros e1 e2 c1 c2 Hag12 Hg1 Hn1 Hs2 Hm2 [z [Hz [Hez Hcz]]].
    assert (Hzi : ~ mem included z) by (intros Hi; apply Hcz, Hs2, Hi).
    destruct (Hn1 z (proj2 (Hg1 z) Hz)) as [Hi | [-> | Hne]].
    - contradiction.
    - contradiction.
    - apply Hne, Hag12; assumption. }
  destruct b, b'.
  - exists true, cl, cl'. split; [exact H |]. split; [exact H' |].
    intros _. apply bitset_ext; try assumption. intros s.
    rewrite (extend_closure_generated _ _ _ _ _ Hwi Hwe Ho He Hd H).
    rewrite (extend_closure_generated _ _ _ _ _ Hwi Hwe' Ho He Hd H').
    tauto.
  - exfalso. apply (Hclash exc exc' cl cl'); auto.
    apply (extend_closure_generated _ _ _ _ _ Hwi Hwe Ho He Hd H).
  - exfalso. apply (Hclash exc' exc cl' cl); auto.
    + intros s Hs. symmetry. apply Hag, Hs.
    + apply (extend_closure_generated _ _ _ _ _ Hwi Hwe' Ho He Hd H').
  - exists false, cl, cl'. split; [exact H |]. split; [exact H' |].
    discriminate.
Qed.

Lemma inner_from_agree (omega : Z) (fuel : nat) :
  forall (m : Z) (included exc exc' : Bitset) (count : Z),
    wf_bitset included -> wf_bitset exc -> wf_bitset exc' ->
    in_range omega -> 0 <= m ->
    dynkin_closed omega (mem included) ->
    (forall s, ~ mem included s -> (mem exc s <-> mem exc' s)) ->
    inner_from fuel omega m included exc count =
    inner_from fuel omega m included exc' count.
Proof.
  induction fuel as [| fuel IH];
    intros m inc exc exc' count Hwi Hwe Hwe' Ho Hm Hd Hag.
  - reflexivity.
  - destruct (Z_lt_dec m (midpoint omega)) as [Hlt | Hge].
    2:{ cbn [inner_from]. destruct (Z.ltb_spec m (midpoint omega));
        [lia | reflexivity]. }
    destruct (below_midpoint_in_range _ _ Ho (conj Hm Hlt)) as [Hmr [Hcr _]].
    destruct (mem_dec inc m) as [Hi | Hni].
    { rewrite !inner_from_skip by auto. apply IH; auto; lia. }
    destruct (mem_dec exc m) as [He | Hne].
    { rewrite !inner_from_skip by (auto; right; apply Hag; auto).
      apply IH; auto; lia. }
    assert (Hne' : ~ mem exc' m) by (intros H; apply Hne, Hag; auto).
    destruct (inner_from_try omega fuel m inc exc count
                Hwi Hwe Ho (conj Hm Hlt) Hni Hne)
      as [b [cl [e2 [Hext [Hcom Hstep]]]]].
    destruct (inner_from_try omega fuel m inc exc' count
                Hwi Hwe' Ho (conj Hm Hlt) Hni Hne')
      as [b' [cl' [e2' [Hext' [Hcom' Hstep']]]]].
    rewrite Hstep, Hstep'.
    destruct (extend_closure_agree omega inc m exc exc'
                Hwi Hwe Hwe' Ho Hmr Hd Hag)
      as [b0 [c0 [c0' [H0 [H0' Heq]]]]].
    rewrite Hext in H0. rewrite Hext' in H0'.
    inversion H0; subst b0 c0. inversion H0'; subst b' c0'.
    destruct (commit_spec omega m exc Hwe Hmr Hcr) as [x [Hx [Hwx Hmx]]].
    rewrite Hcom in Hx. inversion Hx; subst x.
    destruct (commit_spec omega m exc' Hwe' Hmr Hcr) as [x' [Hx' [Hwx' Hmx']]].
    rewrite Hcom' in Hx'. inversion Hx'; subst x'.
    assert (Hag2 : forall s, ~ mem inc s -> (mem e2 s <-> mem e2' s)).
    { intros s Hs. rewrite Hmx, Hmx', (Hag s Hs). tauto. }
    destruct b.
    + specialize (Heq eq_refl). subst cl'.
      destruct (extend_closure_facts omega inc m exc Hwi Hwe Ho Hmr)
        as [b1 [cl1 [H1 [Hwcl [Hsup _]]]]].
      rewrite Hext in H1. inversion H1; subst b1 cl1.
      rewrite (IH (m + 1) cl exc exc' 1);
        [ | exact Hwcl | exact Hwe | exact Hwe' | exact Ho | lia
          | apply (extend_closure_closed _ _ _ _ _ Hwi Hwe Ho Hmr Hd Hext)
          | intros s Hs; apply Hag; intros Hi; apply Hs, Hsup, Hi ].
      destruct (inner_from fuel omega (m + 1) cl exc' 1); try reflexivity.
      cbn [bind]. apply IH; auto; lia.
    + apply IH; auto; lia.
Qed.

(** ** The driver *)

Lemma omega_of_spec (n : Z) :
  1 <= n <= MAX_N ->
  omega_of n = 2 ^ n - 1 /\ in_range (omega_of n) /\
  midpoint (omega_of n) = 2 ^ (n - 1) /\ 1 <= midpoint (omega_of n).
Proof.
  change MAX_N with 7. intros Hn.
  assert (H : n = 1 \/ n = 2 \/ n = 3 \/ n = 4 \/ n = 5 \/ n = 6 \/ n = 7)
    by lia.
  destruct H as [-> | [-> | [-> | [-> | [-> | [-> | ->]]]]]];
    (split; [reflexivity |]); (split; [split; vm_compute; congruence |]);
    (split; [reflexivity | vm_compute; congruence]).
Qed.

(** Below the midpoint, a subset and the complement of another one never
    coincide: the complement has the top element. *)
Lemma complement_above (n i m : Z) :
  1 <= n <= MAX_N ->
  0 <= i < midpoint (omega_of n) -> 0 <= m < midpoint (omega_of n) ->
  Z.lxor (omega_of n) i <> m.
Proof.
  intros Hn Hi Hm. destruct (omega_of_spec n Hn) as [Ho [_ [Hmid _]]].
  rewrite Hmid in Hi, Hm. rewrite Ho. intros Heq.
  assert (Hb : Z.testbit (Z.lxor (2 ^ n - 1) i) (n - 1) = true).
  { rewrite Z.lxor_spec.
    replace (2 ^ n - 1) with (Z.ones n) by (rewrite Z.ones_equiv; lia).
    rewrite Z.ones_spec_low by lia.
    rewrite (proj1 (Z.bounded_iff_bits_nonneg' (n - 1) i ltac:(lia) ltac:(lia)))
      by lia.
    reflexivity. }
  rewrite Heq in Hb.
  rewrite (proj1 (Z.bounded_iff_bits_nonneg' (n - 1) m ltac:(lia) ltac:(lia)))
    in Hb by lia.
  discriminate.
Qed.

Lemma base_included_spec (omega : Z) :
  in_range omega ->
  exists base, base_included omega = Ok base /\ wf_bitset base /\
    (forall s, mem base s <-> s = 0 \/ s = omega) /\
    dynkin_closed omega (mem base).
Proof.
  intros Ho. unfold base_included.
  assert (H0 : in_range 0) by (unfold in_range; change MAX_SUBSETS with 128; lia).
  destruct (bs_set_spec _ _ wf_bs_clear H0) as [b [Hb [Hwb Hmb]]].
  destruct (bs_set_spec _ _ Hwb Ho) as [base [Hbase [Hwbase Hmbase]]].
  rewrite Hb. cbn [bind]. exists base. split; [exact Hbase |].
  split; [exact Hwbase |].
  assert (Hmem : forall s, mem base s <-> s = 0 \/ s = omega).
  { intros s. rewrite Hmbase, Hmb. pose proof (mem_bs_clear s). tauto. }
  split; [exact Hmem |]. split.
  - intros s Hs. apply Hmem. apply Hmem in Hs. destruct Hs as [-> | ->].
    + right. apply Z.lxor_0_r.
    + left. apply Z.lxor_nilpotent.
  - intros x y Hx Hy _. apply Hmem. apply Hmem in Hx. apply Hmem in Hy.
    destruct Hx as [-> | ->]; destruct Hy as [-> | ->].
    + left. reflexivity.
    + right. apply Z.lor_0_l.
    + right. apply Z.lor_0_r.
    + right. apply Z.lor_diag.
Qed.

(** The table [root_excluded]: entry 0 is empty and each entry is its
    predecessor with the exclude-commit of its own index. *)
Definition chain (omega : Z) (m : Z) (re : list Bitset) : Prop :=
  re !! 0%nat = Some bs_clear /\
  forall j, 1 <= j < m ->
    exists e e', re !! Z.to_nat (j - 1) = Some e /\
                 re !! Z.to_nat j = Some e' /\
                 commit omega j e = Ok e'.

Lemma root_excluded_from_spec (omega : Z) (k : nat) :
  forall (m : Z) (re : list Bitset),
    in_range omega -> 1 <= m ->
    m + Z.of_nat k = Z.of_nat (length re) ->
    Z.of_nat (length re) <= midpoint omega ->
    Forall wf_bitset re -> chain omega m re ->
    exists re', root_excluded_from k omega m re = Ok re' /\
      length re' = length re /\ Forall wf_bitset re' /\
      chain omega (Z.of_nat (length re)) re'.
Proof.
  induction k as [| k IH]; intros m re Ho Hm Hlen Hmid Hwf Hch.
  - exists re. split; [reflexivity |]. split; [reflexivity |].
    split; [exact Hwf |]. replace (Z.of_nat (length re)) with m by lia.
    exact Hch.
  - cbn [root_excluded_from].
    destruct (lookup_lt_is_Some_2 re (Z.to_nat (m - 1)) ltac:(lia)) as [prev Hprev].
    replace (arr_get re (m - 1)) with (Ok prev)
      by (symmetry; apply arr_get_Ok; split; [lia | exact Hprev]).
    cbn [bind]. rewrite bs_copy_eq.
    assert (Hwp : wf_bitset prev).
    { rewrite Forall_lookup in Hwf. exact (Hwf _ _ Hprev). }
    destruct (below_midpoint_in_range omega m Ho ltac:(lia)) as [Hmr [Hcr _]].
    destruct (commit_spec omega m prev Hwp Hmr Hcr) as [b2 [Hcom [Hw2 _]]].
    pose proof Hcom as Hcom'. unfold commit in Hcom'.
    destruct (bs_set prev m) as [b1 | |]; try discriminate.
    cbn [bind] in Hcom' |- *. rewrite Hcom'. cbn [bind].
    replace (arr_set re m b2) with (Ok (<[Z.to_nat m := b2]> re))
      by (symmetry; apply arr_set_Ok; split; [lia | reflexivity]).
    cbn [bind].
    destruct (IH (m + 1) (<[Z.to_nat m := b2]> re) Ho) as [re' [H1 [H2 [H3 H4]]]];
      rewrite ?length_insert; try lia.
    + apply Forall_insert; assumption.
    + destruct Hch as [Hc0 Hcj]. split.
      * rewrite list_lookup_insert_ne by lia. exact Hc0.
      * intros j Hj. destruct (Z.eq_dec j m) as [-> | Hjm].
        -- exists prev, b2. rewrite list_lookup_insert_ne by lia.
           rewrite list_lookup_insert_eq by lia. auto.
        -- destruct (Hcj j ltac:(lia)) as [e [e' [He [He' Hc]]]].
           exists e, e'. rewrite !list_lookup_insert_ne by lia. auto.
    + exists re'. rewrite length_insert in H2, H4. auto.
Qed.

Lemma root_excluded_spec (omega : Z) :
  in_range omega -> 1 <= midpoint omega ->
  exists re, root_excluded omega = Ok re /\
    Z.of_nat (length re) = midpoint omega /\ Forall wf_bitset re /\
    chain omega (midpoint omega) re.
Proof.
  intros Ho Hmid. unfold root_excluded.
  set (re0 := replicate (Z.to_nat (midpoint omega)) bs_clear).
  assert (Hl0 : length re0 = Z.to_nat (midpoint omega))
    by apply length_replicate.
  replace (arr_set re0 0 bs_clear) with (Ok (<[0%nat := bs_clear]> re0))
    by (symmetry; apply arr_set_Ok; split; [lia | reflexivity]).
  cbn [bind].
  destruct (root_excluded_from_spec omega (Z.to_nat (midpoint omega - 1)) 1
              (<[0%nat := bs_clear]> re0) Ho) as [re [H1 [H2 [H3 H4]]]];
    rewrite ?length_insert; try lia.
  - apply Forall_insert; [| exact wf_bs_clear].
    apply Forall_replicate. exact wf_bs_clear.
  - split; [apply list_lookup_insert_eq; lia | intros j Hj; lia].
  - exists re. rewrite length_insert in H2, H4.
    replace (Z.of_nat (length re0)) with (midpoint omega) in H4 by lia.
    split; [exact H1 |]. split; [lia |]. auto.
Qed.

(** The members of entry [j] of the table: the indices up to [j] and their
    complements. *)
Lemma chain_members (omega : Z) (re : list Bitset) (j : nat) :
  in_range omega -> Forall wf_bitset re ->
  chain omega (Z.of_nat (length re)) re ->
  Z.of_nat (length re) <= midpoint omega ->
  forall e, re !! j = Some e ->
    forall s, mem e s <->
      exists i, 1 <= i <= Z.of_nat j /\ (s = i \/ s = Z.lxor omega i).
Proof.
  intros Ho Hwf [Hc0 Hcj] Hmid. induction j as [| j IH]; intros e He s.
  - rewrite Hc0 in He. inversion He; subst e. split.
    + intros H. exfalso. exact (mem_bs_clear s H).
    + intros [i [Hi _]]. lia.
  - pose proof (lookup_lt_Some _ _ _ He) as Hlt.
    destruct (Hcj (Z.of_nat (S j)) ltac:(lia)) as [p [e' [Hp [He' Hcom]]]].
    rewrite Nat2Z.id in He'. rewrite He in He'. inversion He'; subst e'.
    replace (Z.to_nat (Z.of_nat (S j) - 1)) with j in Hp by lia.
    assert (Hwp : wf_bitset p).
    { rewrite Forall_lookup in Hwf. exact (Hwf _ _ Hp). }
    destruct (below_midpoint_in_range omega (Z.of_nat (S j)) Ho ltac:(lia))
      as [Hmr [Hcr _]].
    destruct (commit_spec omega _ p Hwp Hmr Hcr) as [x [Hx [_ Hmx]]].
    rewrite Hcom in Hx. inversion Hx; subst x.
    rewrite Hmx, (IH p Hp s). split.
    + intros [-> | [-> | [i [Hi Hs]]]].
      * exists (Z.of_nat (S j)). split; [lia | auto].
      * exists (Z.of_nat (S j)). split; [lia | auto].
      * exists i. split; [lia | exact Hs].
    + intros [i [Hi Hs]].
      destruct (Z.eq_dec i (Z.of_nat (S j))) as [-> | Hne]; [tauto |].
      right. right. exists i. split; [lia | exact Hs].
Qed.

Lemma bs_get_not_mem (bs : Bitset) (s : Z) :
  wf_bitset bs -> in_range s -> ~ mem bs s -> bs_get bs s = Ok 0.
Proof.
  intros Hwf Hs Hn. rewrite (bs_get_in_range _ _ Hwf Hs).
  destruct (bit bs s) eqn:Hb; [| reflexivity].
  exfalso. apply Hn, mem_bit; auto.
Qed.

Lemma u64_shift (t r : Z) : u64 (u64 (t + 1) + r) = u64 (u64 (t + r) + 1).
Proof.
  unfold u64. rewrite !Z.add_mod_idemp_l by lia. f_equal. lia.
Qed.

(** The serial loop from [m] on and the split loop from [m] on count the
    same, when the serial loop starts from the table entry [m - 1]. *)
Lemma split_serial (n : Z) (base : Bitset) (re : list Bitset) (k : nat) :
  1 <= n <= MAX_N ->
  wf_bitset base ->
  (forall s, mem base s <-> s = 0 \/ s = omega_of n) ->
  dynkin_closed (omega_of n) (mem base) ->
  Z.of_nat (length re) = midpoint (omega_of n) ->
  Forall wf_bitset re ->
  chain (omega_of n) (midpoint (omega_of n)) re ->
  forall (m t c : Z) (e : Bitset),
    1 <= m -> m + Z.of_nat k = midpoint (omega_of n) ->
    re !! Z.to_nat (m - 1) = Some e -> c = u64 (t + 1) ->
    inner_from k (omega_of n) m base e c =
    let* T := split_from k (omega_of n) base re m t in Ok (u64 (T + 1)).
Proof.
  intros Hn Hwb Hmb Hdb Hlen Hwf Hch.
  destruct (omega_of_spec n Hn) as [_ [Ho _]].
  induction k as [| k IH]; intros m t c e Hm Hk He Hc.
  - cbn [inner_from split_from bind].
    destruct (Z.ltb_spec m (midpoint (omega_of n))); [lia |]. congruence.
  - assert (Hlt : 0 <= m < midpoint (omega_of n)) by lia.
    destruct (below_midpoint_in_range (omega_of n) m Ho Hlt) as [Hmr [Hcr Hmo]].
    assert (Hwe : wf_bitset e).
    { rewrite Forall_lookup in Hwf. exact (Hwf _ _ He). }
    assert (Hnb : ~ mem base m) by (rewrite Hmb; lia).
    assert (Hne : ~ mem e m).
    { rewrite (chain_members (omega_of n) re _ Ho Hwf
                 ltac:(rewrite Hlen; exact Hch) ltac:(lia) e He m).
      intros [i [Hi [Heq | Heq]]]; [lia |].
      symmetry in Heq. revert Heq. apply (complement_above n); lia. }
    destruct (inner_from_try (omega_of n) k m base e c Hwb Hwe Ho Hlt Hnb Hne)
      as [b [cl [e2 [Hext [Hcom Hstep]]]]].
    rewrite Hstep. clear Hstep.
    assert (He2 : re !! Z.to_nat m = Some e2).
    { destruct Hch as [_ Hcj].
      destruct (Hcj m ltac:(lia)) as [e0 [e' [H0 [H' Hc0]]]].
      rewrite He in H0. inversion H0; subst e0. congruence. }
    destruct (commit_spec (omega_of n) m e Hwe Hmr Hcr) as [x [Hx [Hwe2 Hme2]]].
    rewrite Hcom in Hx. inversion Hx; subst x. clear Hx.
    cbn [split_from]. unfold branch.
    replace (arr_get re (m - 1)) with (Ok e)
      by (symmetry; apply arr_get_Ok; split; [lia | exact He]).
    cbn [bind]. rewrite (bs_get_not_mem _ _ Hwb Hmr Hnb). cbn [bind truthy].
    change (negb (0 =? 0)) with false. cbv iota.
    rewrite (bs_get_not_mem _ _ Hwe Hmr Hne). cbn [bind truthy].
    change (negb (0 =? 0)) with false. cbv iota.
    rewrite Hext. cbn [bind]. rewrite bs_copy_eq.
    assert (Hnext : re !! Z.to_nat (m + 1 - 1) = Some e2)
      by (replace (m + 1 - 1) with m by lia; exact He2).
    destruct b.
    + pose proof Hcom as Hcom'. unfold commit in Hcom'.
      destruct (bs_set e m) as [e1 | |]; try discriminate.
      cbn [bind] in Hcom' |- *. rewrite Hcom'. cbn [bind].
      unfold inner. replace (inner_fuel (omega_of n) (m + 1)) with k
        by (unfold inner_fuel; lia).
      destruct (extend_closure_facts (omega_of n) base m e Hwb Hwe Ho Hmr)
        as [b1 [cl1 [H1 [Hwcl [Hsup [Hmm [_ [_ [Hcl _]]]]]]]]].
      rewrite Hext in H1. inversion H1; subst b1 cl1.
      rewrite (inner_from_agree (omega_of n) k (m + 1) cl e2 e 1);
        [ | exact Hwcl | exact Hwe2 | exact Hwe | exact Ho | lia
          | apply (extend_closure_closed _ _ _ _ _ Hwb Hwe Ho Hmr Hdb Hext)
          | ].
      2:{ intros s Hs. rewrite Hme2. split; [| tauto].
          intros [-> | [-> | H]]; [contradiction | | exact H].
          exfalso. apply Hs. apply (Hcl eq_refl m Hmm Hnb). }
      destruct (inner_from k (omega_of n) (m + 1) cl e 1) as [r | |];
        try reflexivity.
      cbn [bind]. apply IH; try assumption; try lia.
      rewrite Hc. apply u64_shift.
    + apply IH; try assumption; lia.
Qed.

(** The driver's count is the count of one serial call of [inner] on the
    base family. *)
Lemma driver_serial (n : Z) :
  1 <= n <= MAX_N ->
  exists base c,
    base_included (omega_of n) = Ok base /\
    driver_count n = Ok c /\
    inner (omega_of n) 1 base bs_clear = Ok c /\
    1 <= c < 2 ^ 64.
Proof.
  intros Hn. destruct (omega_of_spec n Hn) as [_ [Ho [_ Hmid]]].
  destruct (base_included_spec _ Ho) as [base [Hbase [Hwb [Hmb Hdb]]]].
  destruct (root_excluded_spec _ Ho Hmid) as [re [Hre [Hlen [Hwf Hch]]]].
  destruct (inner_counts (omega_of n) 1 base bs_clear Hwb wf_bs_clear Ho
              ltac:(lia)) as [c [Hc Hcb]].
  exists base, c. split; [exact Hbase |]. split; [| split; [exact Hc | lia]].
  unfold driver_count. rewrite Hbase. cbn [bind].
  destruct (Z.eqb_spec (midpoint (omega_of n)) 0); [lia |].
  rewrite Hre. cbn [bind]. rewrite <- Hc. unfold inner.
  symmetry.
  rewrite (split_serial n base re (inner_fuel (omega_of n) 1) Hn Hwb Hmb Hdb
             Hlen Hwf Hch 1 0 1 bs_clear); try lia; try reflexivity.
  - unfold inner_fuel. lia.
  - apply Hch.
Qed.

(** ** The search states *)

(** The states [(lb, included, excluded)] that the program reaches for the
    ground set [omega].  The first index tells whether the state lies below
    a top-level branch of the driver, and which.

    - [reach_base]: the driver's base family with nothing excluded.
    - [reach_skip], [reach_include], [reach_exclude]: the three ways through
      the loop body of [inner] at index [m]: [continue]; the recursive call
      on the closure and the copy of [excluded]; the exclude-commit.  From
      the base state these are the states of a serial run, and the
      exclude-commits alone give the driver's table [root_excluded].
    - [reach_dispatch]: the call of [inner] by worker [m] of the driver, on
      the closure and on [ex_here] with [m] and its complement marked. *)
Inductive reachable (omega : Z)
  : option Z -> Z -> Bitset -> Bitset -> Prop :=
| reach_base base :
    base_included omega = Ok base ->
    reachable omega None 1 base bs_clear
| reach_skip top m inc exc :
    reachable omega top m inc exc ->
    m < midpoint omega -> mem inc m \/ mem exc m ->
    reachable omega top (m + 1) inc exc
| reach_include top m inc exc cl :
    reachable omega top m inc exc ->
    m < midpoint omega -> ~ mem inc m -> ~ mem exc m ->
    extend_closure omega inc m exc = Ok (true, cl) ->
    reachable omega top (m + 1) (bs_copy cl) (bs_copy exc)
| reach_exclude top m inc exc e2 :
    reachable omega top m inc exc ->
    m < midpoint omega -> ~ mem inc m -> ~ mem exc m ->
    commit omega m exc = Ok e2 ->
    reachable omega top (m + 1) inc e2
| reach_dispatch base re m e cl e2 :
    base_included omega = Ok base ->
    root_excluded omega = Ok re ->
    1 <= m < midpoint omega ->
    arr_get re (m - 1) = Ok e ->
    ~ mem base m -> ~ mem e m ->
    extend_closure omega base m e = Ok (true, cl) ->
    commit omega m (bs_copy e) = Ok e2 ->
    reachable omega (Some m) (m + 1) cl e2.

(** What every search state satisfies. *)
Definition state_ok (omega : Z) (top : option Z) (lb : Z)
    (inc exc : Bitset) : Prop :=
  1 <= lb /\ wf_bitset inc /\ wf_bitset exc /\
  mem inc 0 /\ mem inc omega /\ dynkin_closed omega (mem inc) /\
  forall s, mem inc s -> mem exc s ->
    exists m, top = Some m /\ (s = m \/ s = Z.lxor omega m).

Lemma lxor_involutive (omega s : Z) : Z.lxor omega (Z.lxor omega s) = s.
Proof.
  rewrite <- Z.lxor_assoc, Z.lxor_nilpotent. apply Z.lxor_0_l.
Qed.

Lemma reachable_state_ok (omega : Z) (top : option Z) (lb : Z)
    (inc exc : Bitset) :
  in_range omega ->
  reachable omega top lb inc exc -> state_ok omega top lb inc exc.
Proof.
  intros Ho Hr. induction Hr as
    [ base Hbase
    | top m inc exc Hr IH Hm Hskip
    | top m inc exc cl Hr IH Hm Hni Hne Hext
    | top m inc exc e2 Hr IH Hm Hni Hne Hcom
    | base re m e cl e2 Hbase Hre Hm He Hnb Hne Hext Hcom ].
  - destruct (base_included_spec omega Ho) as [b [Hb [Hwb [Hmb Hdb]]]].
    rewrite Hbase in Hb. inversion Hb; subst b.
    split; [lia |]. split; [exact Hwb |]. split; [exact wf_bs_clear |].
    split; [apply Hmb; auto |]. split; [apply Hmb; auto |].
    split; [exact Hdb |].
    intros s _ Hs. exfalso. exact (mem_bs_clear s Hs).
  - destruct IH as [H1 [H2 [H3 [H4 [H5 [H6 H7]]]]]].
    split; [lia |]. repeat (split; [assumption |]). exact H7.
  - destruct IH as [H1 [H2 [H3 [H4 [H5 [H6 H7]]]]]].
    destruct (below_midpoint_in_range omega m Ho ltac:(lia)) as [Hmr _].
    destruct (extend_closure_facts omega inc m exc H2 H3 Ho Hmr)
      as [b [cl' [H [Hwcl [Hsup [Hmm [_ [Hnew _]]]]]]]].
    rewrite Hext in H. inversion H; subst b cl'.
    rewrite !bs_copy_eq.
    split; [lia |]. split; [exact Hwcl |]. split; [exact H3 |].
    split; [apply Hsup, H4 |]. split; [apply Hsup, H5 |].
    split; [apply (extend_closure_closed _ _ _ _ _ H2 H3 Ho Hmr H6 Hext) |].
    intros s Hs Hes. destruct (Hnew s Hs) as [Hi | [-> | Hn]].
    + apply H7; assumption.
    + contradiction.
    + contradiction.
  - destruct IH as [H1 [H2 [H3 [H4 [H5 [H6 H7]]]]]].
    destruct (below_midpoint_in_range omega m Ho ltac:(lia)) as [Hmr [Hcr _]].
    destruct (commit_spec omega m exc H3 Hmr Hcr) as [x [Hx [Hwx Hmx]]].
    rewrite Hcom in Hx. inversion Hx; subst x.
    split; [lia |]. split; [exact H2 |]. split; [exact Hwx |].
    split; [exact H4 |]. split; [exact H5 |]. split; [exact H6 |].
    intros s Hs Hes. apply Hmx in Hes. destruct Hes as [-> | [-> | Hes]].
    + contradiction.
    + exfalso. apply Hni. rewrite <- (lxor_involutive omega m).
      apply H6. exact Hs.
    + apply H7; assumption.
  - destruct (base_included_spec omega Ho) as [b [Hb [Hwb [Hmb Hdb]]]].
    rewrite Hbase in Hb. inversion Hb; subst b.
    destruct (root_excluded_spec omega Ho ltac:(lia))
      as [re' [Hre' [Hlen [Hwf Hch]]]].
    rewrite Hre in Hre'. inversion Hre'; subst re'.
    apply arr_get_Ok in He. destruct He as [_ He].
    assert (Hwe : wf_bitset e).
    { rewrite Forall_lookup in Hwf. exact (Hwf _ _ He). }
    destruct (below_midpoint_in_range omega m Ho ltac:(lia)) as [Hmr [Hcr Hmo]].
    destruct (extend_closure_facts omega base m e Hwb Hwe Ho Hmr)
      as [b [cl' [H [Hwcl [Hsup [Hmm [_ [Hnew [Hcl _]]]]]]]]].
    rewrite Hext in H. inversion H; subst b cl'.
    rewrite bs_copy_eq in Hcom.
    destruct (commit_spec omega m e Hwe Hmr Hcr) as [x [Hx [Hwx Hmx]]].
    rewrite Hcom in Hx. inversion Hx; subst x.
    split; [lia |]. split; [exact Hwcl |]. split; [exact Hwx |].
    split; [apply Hsup, Hmb; auto |]. split; [apply Hsup, Hmb; auto |].
    split; [apply (extend_closure_closed _ _ _ _ _ Hwb Hwe Ho Hmr Hdb Hext) |].
    intros s Hs Hes. exists m. split; [reflexivity |].
    apply Hmx in Hes. destruct Hes as [-> | [-> | Hes]]; [auto | auto |].
    exfalso. destruct (Hnew s Hs) as [Hi | [-> | Hn]];
      [| contradiction | contradiction].
    rewrite (chain_members omega re _ Ho Hwf
               ltac:(rewrite Hlen; exact Hch) ltac:(lia) e He s) in Hes.
    destruct Hes as [i [Hir Hsi]]. apply Hmb in Hi.
    assert (Hinv : i = Z.lxor omega (Z.lxor omega i))
      by (symmetry; apply lxor_involutive).
    destruct Hi as [-> | ->]; destruct Hsi as [Hsi | Hsi]; try lia.
    + rewrite <- Hsi, Z.lxor_0_r in Hinv. lia.
    + rewrite <- Hsi, Z.lxor_nilpotent in Hinv. lia.
Qed.

(** ** The sum reduction does not depend on the order *)

(** The counts that the workers [m, m + 1, ...] contribute, each started
    from its private [total = 0]. *)
Fixpoint worker_counts (k : nat) (omega : Z) (included : Bitset)
    (re : list Bitset) (m : Z) : result (list Z) :=
  match k with
  | O => Ok []
  | S k' =>
      let* c := branch omega included re m 0 in
      let* cs := worker_counts k' omega included re (m + 1) in
      Ok (c :: cs)
  end.

Definition sum_counts (cs : list Z) : Z := foldr Z.add 0 cs.

Lemma sum_counts_permutation (cs cs' : list Z) :
  Permutation cs cs' -> sum_counts cs = sum_counts cs'.
Proof.
  intros H. induction H; simpl; try lia.
Qed.

Lemma u64_range (z : Z) : 0 <= u64 z < 2 ^ 64.
Proof. unfold u64. apply Z.mod_pos_bound. lia. Qed.

Lemma u64_add_r (a b : Z) : u64 (a + u64 b) = u64 (a + b).
Proof. unfold u64. apply Z.add_mod_idemp_r. lia. Qed.

Lemma u64_add_l (a b : Z) : u64 (u64 a + b) = u64 (a + b).
Proof. unfold u64. apply Z.add_mod_idemp_l. lia. Qed.

(** A worker adds to [total] what it would add to 0. *)
Lemma branch_from_zero (omega : Z) (included : Bitset) (re : list Bitset)
    (m total : Z) :
  0 <= total < 2 ^ 64 ->
  branch omega included re m total =
  let* c := branch omega included re m 0 in Ok (u64 (total + c)).
Proof.
  intros Ht.
  assert (H0 : Ok total = Ok (u64 (total + 0)) :> result Z).
  { f_equal. unfold u64. rewrite Z.add_0_r, Z.mod_small; lia. }
  unfold branch.
  destruct (arr_get re (m - 1)) as [e | |]; try reflexivity. cbn [bind].
  destruct (bs_get included m) as [i | |]; try reflexivity. cbn [bind].
  destruct (truthy i); [exact H0 |].
  destruct (bs_get e m) as [x | |]; try reflexivity. cbn [bind].
  destruct (truthy x); [exact H0 |].
  destruct (extend_closure omega included m e) as [[b cl] | |];
    try reflexivity. cbn [bind].
  destruct b; [| exact H0].
  destruct (bs_set (bs_copy e) m) as [e1 | |]; try reflexivity. cbn [bind].
  destruct (bs_set e1 (Z.lxor omega m)) as [e2 | |]; try reflexivity.
  cbn [bind].
  destruct (inner omega (m + 1) cl e2) as [c | |]; try reflexivity.
  cbn [bind]. f_equal. rewrite Z.add_0_l. symmetry. apply u64_add_r.
Qed.

(** The top-level loop returns the sum of the workers' counts. *)
Lemma split_from_sum (omega : Z) (included : Bitset) (re : list Bitset)
    (k : nat) :
  forall m total, 0 <= total < 2 ^ 64 ->
    split_from k omega included re m total =
    let* cs := worker_counts k omega included re m in
    Ok (u64 (total + sum_counts cs)).
Proof.
  induction k as [| k IH]; intros m total Ht.
  - cbn [split_from worker_counts bind sum_counts foldr]. f_equal.
    unfold u64. rewrite Z.add_0_r, Z.mod_small; lia.
  - cbn [split_from worker_counts]. rewrite (branch_from_zero _ _ _ _ _ Ht).
    destruct (branch omega included re m 0) as [c | |]; try reflexivity.
    cbn [bind]. rewrite IH by apply u64_range.
    destruct (worker_counts k omega included re (m + 1)) as [cs | |];
      try reflexivity.
    cbn [bind sum_counts foldr]. f_equal. fold (sum_counts cs).
    rewrite u64_add_l. f_equal. lia.
Qed.

(** The driver's total is the sum of the workers' counts plus 1, in
    whatever order the counts are added. *)
Lemma driver_count_reduction (n : Z) (base : Bitset) (re : list Bitset)
    (c : Z) :
  base_included (omega_of n) = Ok base ->
  root_excluded (omega_of n) = Ok re ->
  midpoint (omega_of n) <> 0 ->
  driver_count n = Ok c ->
  exists cs,
    worker_counts (Z.to_nat (midpoint (omega_of n) - 1)) (omega_of n)
                  base re 1 = Ok cs /\
    forall cs', Permutation cs' cs -> u64 (sum_counts cs' + 1) = c.
Proof.
  intros Hbase Hre Hmid Hc. unfold driver_count in Hc.
  rewrite Hbase in Hc. cbn [bind] in Hc.
  destruct (Z.eqb_spec (midpoint (omega_of n)) 0); [contradiction |].
  rewrite Hre in Hc. cbn [bind] in Hc.
  rewrite split_from_sum in Hc by lia.
  destruct (worker_counts _ _ _ _ _) as [cs | |]; try discriminate.
  cbn [bind] in Hc. inversion Hc; subst c. exists cs.
  split; [reflexivity |]. intros cs' Hp.
  rewrite (sum_counts_permutation _ _ Hp), Z.add_0_l.
  symmetry. apply u64_add_l.
Qed.

(** ** Deciding the hypotheses on a given family *)

Definition wf_bitsetb (bs : Bitset) : bool :=
  (Z.of_nat (length (bits bs)) =? BITSET_WORDS) &&
  forallb (fun w => (0 <=? w) && (w <? 2 ^ 64)) (bits bs).

Definition memb (bs : Bitset) (s : Z) : bool :=
  match bs_get bs s with
  | Ok v => v =? 1
  | _ => false
  end.

Definition members (bs : Bitset) : list Z :=
  List.filter (memb bs) (seqZ 0 MAX_SUBSETS).

Definition closedb (omega : Z) (bs : Bitset) : bool :=
  forallb (fun x =>
    memb bs (Z.lxor omega x) &&
    forallb (fun y => implb (Z.land x y =? 0) (memb bs (Z.lor x y)))
            (members bs))
    (members bs).

Definition boundedb (omega : Z) (bs : Bitset) : bool :=
  forallb (fun s => s <=? omega) (members bs).

Lemma wf_bitsetb_spec (bs : Bitset) : wf_bitsetb bs = true -> wf_bitset bs.
Proof.
  unfold wf_bitsetb, wf_bitset. intros H. apply andb_true_iff in H.
  destruct H as [H1 H2]. split.
  - apply Z.eqb_eq in H1. lia.
  - apply Forall_forall. intros w Hw. rewrite forallb_forall in H2.
    apply list_elem_of_In in Hw. specialize (H2 w Hw).
    apply andb_true_iff in H2. destruct H2 as [H2 H3]. lia.
Qed.

Lemma memb_spec (bs : Bitset) (s : Z) : memb bs s = true <-> mem bs s.
Proof.
  unfold memb, mem. destruct (bs_get bs s) as [v | |]; split; intros H;
    try discriminate.
  - apply Z.eqb_eq in H. congruence.
  - inversion H. reflexivity.
Qed.

Lemma members_spec (bs : Bitset) (s : Z) :
  wf_bitset bs -> mem bs s <-> In s (members bs).
Proof.
  intros Hwf. unfold members. rewrite filter_In, memb_spec.
  rewrite <- list_elem_of_In, elem_of_seqZ. split; [| tauto].
  intros H. split; [| exact H]. apply (mem_in_range _ _ Hwf) in H.
  unfold in_range in H. lia.
Qed.

Lemma closed_on_list (omega : Z) (bs : Bitset) (l : list Z) :
  (forall s, mem bs s -> In s l) ->
  forallb (fun x =>
    memb bs (Z.lxor omega x) &&
    forallb (fun y => implb (Z.land x y =? 0) (memb bs (Z.lor x y))) l) l
  = true ->
  dynkin_closed omega (mem bs).
Proof.
  intros Hl H. pose proof (proj1 (forallb_forall _ _) H) as H'. clear H.
  split.
  - intros s Hs. specialize (H' s (Hl s Hs)).
    apply andb_true_iff in H'. apply memb_spec. tauto.
  - intros x y Hx Hy Hxy. specialize (H' x (Hl x Hx)).
    apply andb_true_iff in H'. destruct H' as [_ H].
    pose proof (proj1 (forallb_forall _ _) H y (Hl y Hy)) as H2.
    cbv beta in H2. rewrite Hxy in H2. apply memb_spec. exact H2.
Qed.

Lemma closedb_spec (omega : Z) (bs : Bitset) :
  wf_bitset bs -> closedb omega bs = true -> dynkin_closed omega (mem bs).
Proof.
  unfold closedb. intros Hwf. apply closed_on_list.
  intros s Hs. apply (members_spec _ _ Hwf). exact Hs.
Qed.

Lemma bounded_on_list (omega : Z) (bs : Bitset) (l : list Z) :
  (forall s, mem bs s -> In s l) ->
  forallb (fun s => s <=? omega) l = true ->
  forall s, mem bs s -> s <= omega.
Proof.
  intros Hl H s Hs.
  pose proof (proj1 (forallb_forall _ _) H s (Hl s Hs)) as H2.
  cbv beta in H2. lia.
Qed.

Lemma boundedb_spec (omega : Z) (bs : Bitset) :
  wf_bitset bs -> boundedb omega bs = true ->
  forall s, mem bs s -> 0 <= s <= omega.
Proof.
  unfold boundedb. intros Hwf H s Hs.
  pose proof (mem_in_range _ _ Hwf Hs) as Hr. unfold in_range in Hr.
  split; [lia |]. clear Hr. revert H s Hs. apply bounded_on_list.
  intros s' Hs'. apply (members_spec _ _ Hwf). exact Hs'.
Qed.

(** Sample families over the two-element ground set ([omega = 3]). *)
Definition family_trivial : Bitset := mkBitset [9; 0].
Definition family_full : Bitset := mkBitset [15; 0].
Definition family_only_1 : Bitset := mkBitset [2; 0].
Definition family_1_and_2 : Bitset := mkBitset [6; 0].

(** ** The model at work *)

(** The driver's counts for the ground sets of up to five elements. *)
Example driver_counts_small :
  map driver_count [0; 1; 2; 3; 4; 5] =
  [Ok 1; Ok 1; Ok 2; Ok 5; Ok 19; Ok 137].
Proof. vm_compute. reflexivity. Qed.

(** Forcing 1 into [{0, 3}] forces its complement 2. *)
Example extend_closure_forces_complement :
  extend_closure 3 family_trivial 1 bs_clear = Ok (true, family_full).
Proof. vm_compute. reflexivity. Qed.

(** With 2 excluded the same extension is a contradiction; the
    out-parameter is left with the partial closure [{0, 1, 3}]. *)
Example extend_closure_contradiction :
  extend_closure 3 family_trivial 1 family_1_and_2 =
  Ok (false, mkBitset [11; 0]).
Proof. vm_compute. reflexivity. Qed.

(** The driver's table for the three-element ground set. *)
Example root_excluded_7 :
  root_excluded 7 =
  Ok [bs_clear; mkBitset [66; 0]; mkBitset [102; 0]; mkBitset [126; 0]].
Proof. vm_compute. reflexivity. Qed.

(** * The claims *)

(** ** C1: a successful extension is the least closed family *)

(** C1.  Let [included] hold the empty set and [omega], have all its members
    at most [omega], and be closed under complement and disjoint union, and
    let [extension] be at most [omega].  If [extend_closure] succeeds, the
    closure it returns holds every member of [included] and [extension], is
    closed under complement ([omega] XOR) and under union of disjoint
    members, and is contained in every family with these properties. *)
Theorem extend_closure_least_closed (omega : Z) (included excluded : Bitset)
    (extension : Z) (cl : Bitset) :
  wf_bitset included -> wf_bitset excluded ->
  mem included 0 -> mem included omega ->
  (forall s, mem included s -> 0 <= s <= omega) ->
  dynkin_closed omega (mem included) ->
  0 <= extension <= omega ->
  extend_closure omega included extension excluded = Ok (true, cl) ->
  (forall s, mem included s -> mem cl s) /\
  mem cl extension /\
  dynkin_closed omega (mem cl) /\
  forall D : Z -> Prop,
    dynkin_closed omega D ->
    (forall s, mem included s -> D s) -> D extension ->
    forall s, mem cl s -> D s.
Proof.
  intros Hwi Hwe _ Hio _ Hd He Hext.
  pose proof (mem_in_range _ _ Hwi Hio) as Ho.
  assert (Her : in_range extension) by (unfold in_range in *; lia).
  destruct (extend_closure_facts omega included extension excluded
              Hwi Hwe Ho Her) as [b [cl' [H [_ [Hsup [Hme [Hgen _]]]]]]].
  rewrite Hext in H. inversion H; subst b cl'.
  split; [exact Hsup |]. split; [exact Hme |].
  split; [apply (extend_closure_closed _ _ _ _ _ Hwi Hwe Ho Her Hd Hext) |].
  intros D HD Hi HDe s Hs.
  apply (generated_least omega included extension D HD Hi HDe).
  apply Hgen, Hs.
Qed.

Lemma extend_closure_least_closed_witness :
  (forall s, mem family_trivial s -> mem family_full s) /\
  mem family_full 1 /\
  dynkin_closed 3 (mem family_full) /\
  forall D : Z -> Prop,
    dynkin_closed 3 D ->
    (forall s, mem family_trivial s -> D s) -> D 1 ->
    forall s, mem family_full s -> D s.
Proof.
  apply (extend_closure_least_closed 3 family_trivial bs_clear 1 family_full).
  - apply wf_bitsetb_spec. vm_compute. reflexivity.
  - apply wf_bitsetb_spec. vm_compute. reflexivity.
  - vm_compute. reflexivity.
  - vm_compute. reflexivity.
  - apply boundedb_spec; [apply wf_bitsetb_spec |]; vm_compute; reflexivity.
  - apply closedb_spec; [apply wf_bitsetb_spec |]; vm_compute; reflexivity.
  - lia.
  - vm_compute. reflexivity.
Defined.

(** ** C6: extending by a member changes nothing *)

(** C6.  Let [included] hold the empty set and [omega], have all its members
    at most [omega], and be closed under complement and disjoint union.  If
    [extension] is already a member of [included], then [extend_closure]
    succeeds and the closure it returns is [included] itself. *)
Theorem extend_closure_member_noop (omega : Z) (included excluded : Bitset)
    (extension : Z) :
  wf_bitset included -> wf_bitset excluded ->
  mem included 0 -> mem included omega ->
  (forall s, mem included s -> 0 <= s <= omega) ->
  dynkin_closed omega (mem included) ->
  mem included extension ->
  extend_closure omega included extension excluded = Ok (true, included).
Proof.
  intros Hwi Hwe _ Hio _ Hd Hm.
  pose proof (mem_in_range _ _ Hwi Hio) as Ho.
  pose proof (mem_in_range _ _ Hwi Hm) as Her.
  destruct (extend_closure_facts omega included extension excluded
              Hwi Hwe Ho Her)
    as [b [cl [H [Hwcl [Hsup [Hme [Hgen [_ [_ Hfail]]]]]]]]].
  assert (Hin : forall s, mem cl s -> mem included s).
  { intros s Hs. apply (generated_in_closed omega included extension Hd Hm).
    apply Hgen, Hs. }
  destruct b.
  - rewrite H. f_equal. f_equal. apply bitset_ext; try assumption.
    intros s. split; [apply Hin | apply Hsup].
  - exfalso. destruct (Hfail eq_refl) as [z [Hz [_ Hnz]]].
    apply Hnz, Hsup.
    apply (generated_in_closed omega included extension Hd Hm z Hz).
Qed.

Lemma extend_closure_member_noop_witness :
  extend_closure 3 family_full 1 family_only_1 = Ok (true, family_full).
Proof.
  apply (extend_closure_member_noop 3 family_full family_only_1 1).
  - apply wf_bitsetb_spec. vm_compute. reflexivity.
  - apply wf_bitsetb_spec. vm_compute. reflexivity.
  - vm_compute. reflexivity.
  - vm_compute. reflexivity.
  - apply boundedb_spec; [apply wf_bitsetb_spec |]; vm_compute; reflexivity.
  - apply closedb_spec; [apply wf_bitsetb_spec |]; vm_compute; reflexivity.
  - vm_compute. reflexivity.
Defined.

(** ** C9: the queue and the bitsets are accessed in bounds *)

Lemma extend_closure_run_safe (omega : Z) (included excluded : Bitset)
    (extension : Z) :
  wf_bitset included -> wf_bitset excluded ->
  in_range omega -> in_range extension ->
  exists b st,
    extend_closure_run omega included extension excluded = Ok (b, st) /\
    0 <= qe st <= MAX_SUBSETS /\
    NoDup (enq st) /\
    (forall z, z ∈ enq st -> 0 <= z < MAX_SUBSETS) /\
    (forall s, mem (closure st) s <-> mem included s \/ s ∈ enq st).
Proof.
  intros Hwi Hwe Ho He.
  destruct (extend_closure_run_spec omega included excluded extension
              Hwi Hwe Ho He) as [b [st [Hrun [Ht Hf]]]].
  exists b, st. split; [exact Hrun |].
  assert (HI : exists k, Inv omega included excluded extension k st).
  { destruct b; [exists (length (enq st)); apply Ht; reflexivity |].
    apply Hf. reflexivity. }
  destruct HI as [k HI].
  split; [apply HI |]. split; [apply HI |]. split; [| apply HI].
  intros z Hz. apply (mem_in_range (closure st)); [apply HI |].
  apply (inv_mem _ _ _ _ _ _ HI). auto.
Qed.

(** C9.  Let [omega] be below [MAX_SUBSETS], [extension] at most [omega],
    and every member of [included] and [excluded] at most [omega].  Then
    [extend_closure] runs to its end without an access outside the queue or
    a bitset (the run is [Ok]); the queue write position [qe] is at most
    [MAX_SUBSETS]; the enqueued indices are pairwise distinct and below
    [MAX_SUBSETS]; and the members of the closure are those of [included]
    and the enqueued indices. *)
Theorem extend_closure_in_bounds (omega : Z) (included excluded : Bitset)
    (extension : Z) :
  wf_bitset included -> wf_bitset excluded ->
  0 <= omega < MAX_SUBSETS ->
  0 <= extension <= omega ->
  (forall s, mem included s -> s <= omega) ->
  (forall s, mem excluded s -> s <= omega) ->
  exists b st,
    extend_closure_run omega included extension excluded = Ok (b, st) /\
    0 <= qe st <= MAX_SUBSETS /\
    NoDup (enq st) /\
    (forall z, z ∈ enq st -> 0 <= z < MAX_SUBSETS) /\
    (forall s, mem (closure st) s <-> mem included s \/ s ∈ enq st).
Proof.
  intros Hwi Hwe Ho He _ _.
  apply extend_closure_run_safe; try assumption.
  unfold in_range. lia.
Qed.

Lemma extend_closure_in_bounds_witness :
  exists b st,
    extend_closure_run 3 family_trivial 1 bs_clear = Ok (b, st) /\
    0 <= qe st <= MAX_SUBSETS /\
    NoDup (enq st) /\
    (forall z, z ∈ enq st -> 0 <= z < MAX_SUBSETS) /\
    (forall s, mem (closure st) s <-> mem family_trivial s \/ s ∈ enq st).
Proof.
  apply (extend_closure_in_bounds 3 family_trivial bs_clear 1).
  - apply wf_bitsetb_spec. vm_compute. reflexivity.
  - apply wf_bitsetb_spec. vm_compute. reflexivity.
  - change MAX_SUBSETS with 128. lia.
  - lia.
  - apply boundedb_spec; [apply wf_bitsetb_spec |]; vm_compute; reflexivity.
  - intros s Hs. exfalso. exact (mem_bs_clear s Hs).
Defined.

(** ** C4: which subsets are checked against [excluded] *)

(** C4, as stated, fails: the seed [extension] is marked in the closure
    without being looked up in [excluded].  Here 1 is excluded and the
    extension by 1 succeeds. *)
Lemma extend_closure_excluded_seed_succeeds :
  mem family_only_1 1 /\
  extend_closure 3 family_trivial 1 family_only_1 = Ok (true, family_full).
Proof. split; vm_compute; reflexivity. Qed.

(** C4, amended.  For [omega] and [extension] below [MAX_SUBSETS]:
    [extend_closure] returns, and every subset that the propagation adds (a
    complement or a disjoint union) was checked against [excluded] first.
    The seed is not checked.  On success no member of the closure other than
    the members of [included] and [extension] is excluded; on failure a
    subset forced by the closure axioms, other than those, is excluded. *)
Theorem extend_closure_checks_forced (omega : Z) (included excluded : Bitset)
    (extension : Z) :
  wf_bitset included -> wf_bitset excluded ->
  0 <= omega < MAX_SUBSETS -> 0 <= extension < MAX_SUBSETS ->
  exists b cl,
    extend_closure omega included extension excluded = Ok (b, cl) /\
    (b = true ->
       forall s, mem cl s ->
                 mem included s \/ s = extension \/ ~ mem excluded s) /\
    (b = false ->
       exists z, generated omega included extension z /\
                 ~ mem included z /\ z <> extension /\ mem excluded z).
Proof.
  intros Hwi Hwe Ho He.
  destruct (extend_closure_facts omega included extension excluded
              Hwi Hwe Ho He)
    as [b [cl [H [_ [Hsup [Hme [_ [Hnew [_ Hfail]]]]]]]]].
  exists b, cl. split; [exact H |]. split; [intros _; exact Hnew |].
  intros Hb. destruct (Hfail Hb) as [z [Hz [Hez Hnz]]].
  exists z. split; [exact Hz |]. split; [| split; [| exact Hez]].
  - intros Hi. apply Hnz, Hsup, Hi.
  - intros ->. contradiction.
Qed.

Lemma extend_closure_checks_forced_witness :
  exists b cl,
    extend_closure 3 family_trivial 1 family_1_and_2 = Ok (b, cl) /\
    (b = true ->
       forall s, mem cl s ->
                 mem family_trivial s \/ s = 1 \/ ~ mem family_1_and_2 s) /\
    (b = false ->
       exists z, generated 3 family_trivial 1 z /\
                 ~ mem family_trivial z /\ z <> 1 /\ mem family_1_and_2 z).
Proof.
  apply (extend_closure_checks_forced 3 family_trivial family_1_and_2 1).
  - apply wf_bitsetb_spec. vm_compute. reflexivity.
  - apply wf_bitsetb_spec. vm_compute. reflexivity.
  - change MAX_SUBSETS with 128. lia.
  - change MAX_SUBSETS with 128. lia.
Defined.

(** ** C8: the count is at least 1 *)

(** C8.  For every [omega] that the bitset can hold (below [MAX_SUBSETS]),
    all families in it and every lower bound, [inner] returns a count of at
    least 1.  For every [omega], whenever [lb] is at least the midpoint
    [(omega + 1) / 2], the loop body never executes (the run needs no
    iteration at all: it returns on no fuel) and [inner] returns exactly
    1. *)
Theorem inner_count_positive (omega lb : Z) (included excluded : Bitset) :
  wf_bitset included -> wf_bitset excluded -> 0 <= omega -> 0 <= lb ->
  (omega < MAX_SUBSETS ->
   exists c, inner omega lb included excluded = Ok c /\ 1 <= c) /\
  ((omega + 1) / 2 <= lb -> inner omega lb included excluded = Ok 1) /\
  (midpoint omega <= lb ->
   inner_from 0 omega lb included excluded 1 = Ok 1 /\
   inner omega lb included excluded = Ok 1).
Proof.
  intros Hwi Hwe Ho Hlb.
  assert (Hmid : midpoint omega <= lb ->
                 inner_from 0 omega lb included excluded 1 = Ok 1 /\
                 inner omega lb included excluded = Ok 1).
  { intros H. unfold inner.
    replace (inner_fuel omega lb) with 0%nat by (unfold inner_fuel; lia).
    cbn [inner_from]. destruct (Z.ltb_spec lb (midpoint omega)); [lia |].
    split; reflexivity. }
  split; [| split; [| exact Hmid]].
  - intros Hlt.
    destruct (inner_counts omega lb included excluded Hwi Hwe
                ltac:(unfold in_range; lia) Hlb) as [c [Hc Hb]].
    exists c. split; [exact Hc | lia].
  - intros H. apply Hmid. pose proof (midpoint_le omega Ho). lia.
Qed.

Lemma inner_count_positive_witness :
  (3 < MAX_SUBSETS ->
   exists c, inner 3 1 family_trivial bs_clear = Ok c /\ 1 <= c) /\
  ((3 + 1) / 2 <= 1 -> inner 3 1 family_trivial bs_clear = Ok 1) /\
  (midpoint 3 <= 1 ->
   inner_from 0 3 1 family_trivial bs_clear 1 = Ok 1 /\
   inner 3 1 family_trivial bs_clear = Ok 1).
Proof.
  apply (inner_count_positive 3 1 family_trivial bs_clear).
  - apply wf_bitsetb_spec. vm_compute. reflexivity.
  - apply wf_bitsetb_spec. vm_compute. reflexivity.
  - lia.
  - lia.
Defined.

(** ** C10: [inner] terminates *)

(** C10.  [inner] terminates on every input that the bitset can hold
    ([omega] below [MAX_SUBSETS]): it returns a count, on fuel equal to the
    measure [(omega + 1) / 2 - lb] (cut off at 0) and on any larger fuel.
    Each recursive call is made for an index [m] from [lb] on and below the
    midpoint, on the closure that [extend_closure] returned for [m], and it
    is the call [inner(omega, m + 1, closure, excluded)]: its measure is
    strictly smaller than the caller's, it returns, and the loop goes on at
    [m + 1] with the count that it returned added. *)
Theorem inner_terminates (omega lb : Z) (included excluded : Bitset) :
  wf_bitset included -> wf_bitset excluded ->
  0 <= omega < MAX_SUBSETS -> 0 <= lb ->
  (exists c, inner omega lb included excluded = Ok c /\
     forall fuel : nat,
       (inner_fuel omega lb <= fuel)%nat ->
       inner_from fuel omega lb included excluded 1 = Ok c) /\
  Z.of_nat (inner_fuel omega lb) = Z.max 0 ((omega + 1) / 2 - lb) /\
  (forall (m : Z) (e cl : Bitset) (count : Z),
     lb <= m < midpoint omega -> wf_bitset e ->
     ~ mem included m -> ~ mem e m ->
     extend_closure omega included m e = Ok (true, cl) ->
     (inner_fuel omega (m + 1) < inner_fuel omega lb)%nat /\
     exists c' e2,
       inner omega (m + 1) cl e = Ok c' /\
       commit omega m e = Ok e2 /\
       inner_from (inner_fuel omega m) omega m included e count =
       inner_from (inner_fuel omega (m + 1)) omega (m + 1) included e2
                  (u64 (count + c'))).
Proof.
  intros Hwi Hwe Ho Hlb.
  assert (Hr : in_range omega) by (unfold in_range; lia).
  destruct (midpoint_in_range omega Hr) as [Hmid Hm64].
  split; [| split].
  - destruct (inner_counts omega lb included excluded Hwi Hwe Hr Hlb)
      as [c [Hc _]].
    exists c. split; [exact Hc |]. intros fuel Hf. rewrite <- Hc.
    unfold inner. apply inner_from_fuel; unfold inner_fuel in *; lia.
  - unfold inner_fuel. rewrite Hmid. lia.
  - intros m e cl count Hm Hwe' Hni Hne Hext.
    split; [unfold inner_fuel; lia |].
    assert (Hm0 : 0 <= m < midpoint omega) by lia.
    destruct (below_midpoint_in_range _ _ Hr Hm0) as [Hmr _].
    destruct (extend_closure_facts omega included m e Hwi Hwe' Hr Hmr)
      as [b [cl' [Hext' [Hwcl _]]]].
    rewrite Hext in Hext'. inversion Hext'; subst b cl'.
    destruct (inner_counts omega (m + 1) cl e Hwcl Hwe' Hr ltac:(lia))
      as [c' [Hc' _]].
    destruct (inner_from_try omega (inner_fuel omega (m + 1)) m included e
                count Hwi Hwe' Hr Hm0 Hni Hne)
      as [b [cl' [e2 [Hext2 [Hcom Hstep]]]]].
    rewrite Hext in Hext2. inversion Hext2; subst b cl'.
    exists c', e2. split; [exact Hc' |]. split; [exact Hcom |].
    replace (inner_fuel omega m) with (S (inner_fuel omega (m + 1)))
      by (unfold inner_fuel; lia).
    rewrite Hstep. unfold inner in Hc'. rewrite Hc'. reflexivity.
Qed.

Lemma inner_terminates_witness :
  (exists c, inner 3 1 family_trivial bs_clear = Ok c /\
     forall fuel : nat,
       (inner_fuel 3 1 <= fuel)%nat ->
       inner_from fuel 3 1 family_trivial bs_clear 1 = Ok c) /\
  Z.of_nat (inner_fuel 3 1) = Z.max 0 ((3 + 1) / 2 - 1) /\
  (forall (m : Z) (e cl : Bitset) (count : Z),
     1 <= m < midpoint 3 -> wf_bitset e ->
     ~ mem family_trivial m -> ~ mem e m ->
     extend_closure 3 family_trivial m e = Ok (true, cl) ->
     (inner_fuel 3 (m + 1) < inner_fuel 3 1)%nat /\
     exists c' e2,
       inner 3 (m + 1) cl e = Ok c' /\
       commit 3 m e = Ok e2 /\
       inner_from (inner_fuel 3 m) 3 m family_trivial e count =
       inner_from (inner_fuel 3 (m + 1)) 3 (m + 1) family_trivial e2
                  (u64 (count + c'))).
Proof.
  apply (inner_terminates 3 1 family_trivial bs_clear).
  - apply wf_bitsetb_spec. vm_compute. reflexivity.
  - apply wf_bitsetb_spec. vm_compute. reflexivity.
  - change MAX_SUBSETS with 128. lia.
  - lia.
Defined.

(** ** C2: the split at the top level counts what a serial run counts *)

(** C2.  For every [n] from 1 to [MAX_N], the total of the driver's
    top-level split (the sum, in whatever order the reduction adds them, of
    the counts of the workers [m] below the midpoint, each entering its
    subtree through [root_excluded[m - 1]], plus 1) is the count that one
    serial call [inner(omega, 1, {0, omega}, {})] returns. *)
Theorem driver_split_equals_serial (n : Z) :
  1 <= n <= MAX_N ->
  exists base re cs c,
    base_included (omega_of n) = Ok base /\
    root_excluded (omega_of n) = Ok re /\
    worker_counts (Z.to_nat (midpoint (omega_of n) - 1)) (omega_of n)
                  base re 1 = Ok cs /\
    (forall cs', Permutation cs' cs -> u64 (sum_counts cs' + 1) = c) /\
    driver_count n = Ok c /\
    inner (omega_of n) 1 base bs_clear = Ok c.
Proof.
  intros Hn. destruct (driver_serial n Hn) as [base [c [H1 [H2 [H3 _]]]]].
  destruct (omega_of_spec n Hn) as [_ [Ho [_ Hmid]]].
  destruct (root_excluded_spec _ Ho Hmid) as [re [Hre _]].
  destruct (driver_count_reduction n base re c H1 Hre ltac:(lia) H2)
    as [cs [Hcs Hperm]].
  exists base, re, cs, c. auto 10.
Qed.

Lemma driver_split_equals_serial_witness :
  exists base re cs c,
    base_included (omega_of 3) = Ok base /\
    root_excluded (omega_of 3) = Ok re /\
    worker_counts (Z.to_nat (midpoint (omega_of 3) - 1)) (omega_of 3)
                  base re 1 = Ok cs /\
    (forall cs', Permutation cs' cs -> u64 (sum_counts cs' + 1) = c) /\
    driver_count 3 = Ok c /\
    inner (omega_of 3) 1 base bs_clear = Ok c.
Proof.
  apply (driver_split_equals_serial 3). change MAX_N with 7. lia.
Defined.

(** ** C3 and C7: the first counts *)

(** C3, as stated, fails: for [n = 2] the driver counts 2, not 4. *)
Lemma driver_n2_is_not_4 :
  driver_count 2 = Ok 2 /\ driver_line 2 <> Ok ("2 4" ++ newline)%string.
Proof.
  split; [vm_compute; reflexivity |]. vm_compute. intros H. discriminate H.
Qed.

(** C3, amended.  For [n = 2] the enumeration yields a count of 2 (the
    trivial system and the power set), and the driver prints the line
    "2 2". *)
Theorem driver_n2 :
  driver_count 2 = Ok 2 /\ driver_line 2 = Ok ("2 2" ++ newline)%string.
Proof. split; vm_compute; reflexivity. Qed.

(** C7.  For [n = 0] and for [n = 1] the count is 1: the driver prints
    "0 1", without enumeration since the midpoint is 0, and "1 1". *)
Theorem driver_n0_n1 :
  midpoint (omega_of 0) = 0 /\
  driver_count 0 = Ok 1 /\ driver_line 0 = Ok ("0 1" ++ newline)%string /\
  driver_count 1 = Ok 1 /\ driver_line 1 = Ok ("1 1" ++ newline)%string.
Proof. repeat split; vm_compute; reflexivity. Qed.

(** ** C5: what every search state satisfies *)

(** C5, as stated, fails: for [n = 2] the driver's worker for index 1 calls
    [inner] on the closure [{0, 1, 2, 3}] and on the excluded family
    [{1, 2}]: 1 is marked in both. *)
Lemma dispatch_state_overlaps :
  reachable (omega_of 2) (Some 1) 2 family_full family_1_and_2 /\
  mem family_full 1 /\ mem family_1_and_2 1.
Proof.
  split; [| split; vm_compute; reflexivity].
  apply (reach_dispatch (omega_of 2) family_trivial
           [bs_clear; family_1_and_2] 1 bs_clear family_full family_1_and_2);
    try (vm_compute; reflexivity).
  - vm_compute. split; [discriminate | reflexivity].
  - intros H. vm_compute in H. discriminate H.
  - intros H. vm_compute in H. discriminate H.
Qed.

(** C5, amended.  Every search state reached for a ground set [omega] below
    [MAX_SUBSETS] satisfies: [included] holds the empty set and [omega] and
    is closed under complement and under union of disjoint members; and no
    subset is marked in both [included] and [excluded], except, below the
    driver's top-level branch [m], the index [m] and its complement. *)
Theorem reachable_invariant (omega : Z) (top : option Z) (lb : Z)
    (inc exc : Bitset) :
  0 <= omega < MAX_SUBSETS ->
  reachable omega top lb inc exc ->
  mem inc 0 /\ mem inc omega /\ dynkin_closed omega (mem inc) /\
  (forall s, mem inc s -> mem exc s ->
     exists m, top = Some m /\ (s = m \/ s = Z.lxor omega m)) /\
  (top = None -> forall s, ~ (mem inc s /\ mem exc s)).
Proof.
  intros Ho Hr.
  destruct (reachable_state_ok omega top lb inc exc Ho Hr)
    as [_ [_ [_ [H0 [H1 [H2 H3]]]]]].
  split; [exact H0 |]. split; [exact H1 |]. split; [exact H2 |].
  split; [exact H3 |].
  intros Htop s [Hi He]. destruct (H3 s Hi He) as [m [Hm _]]. congruence.
Qed.

Lemma reachable_invariant_witness :
  mem family_full 0 /\ mem family_full 3 /\
  dynkin_closed 3 (mem family_full) /\
  (forall s, mem family_full s -> mem family_1_and_2 s ->
     exists m, Some 1 = Some m /\ (s = m \/ s = Z.lxor 3 m)) /\
  (Some 1 = None -> forall s, ~ (mem family_full s /\ mem family_1_and_2 s)).
Proof.
  apply (reachable_invariant 3 (Some 1) 2 family_full family_1_and_2).
  - change MAX_SUBSETS with 128. lia.
  - apply (reach_dispatch 3 family_trivial
             [bs_clear; family_1_and_2] 1 bs_clear family_full family_1_and_2);
      try (vm_compute; reflexivity).
    + vm_compute. split; [discriminate | reflexivity].
    + intros H. vm_compute in H. discriminate H.
    + intros H. vm_compute in H. discriminate H.
Defined.

(** * More of the program *)

(** ** The bitset operations *)

Lemma bs_get_out_of_range (bs : Bitset) (s : Z) :
  wf_bitset bs -> ~ in_range s -> bs_get bs s = OutOfBounds.
Proof.
  intros Hwf Hs. destruct (bs_get bs s) as [v | |] eqn:E.
  - exfalso. apply Hs. exact (bs_get_Ok_range _ _ _ Hwf E).
  - reflexivity.
  - pose proof (bs_get_terminates bs s) as H. rewrite E in H. contradiction.
Qed.

Lemma bs_set_out_of_range (bs : Bitset) (s : Z) :
  wf_bitset bs -> ~ in_range s -> bs_set bs s = OutOfBounds.
Proof.
  intros Hwf Hs. destruct (bs_set bs s) as [v | |] eqn:E.
  - exfalso. apply Hs. apply (bs_set_Ok _ _ _ Hwf E).
  - reflexivity.
  - pose proof (bs_set_terminates bs s Hwf) as H. rewrite E in H.
    contradiction.
Qed.

Lemma bs_get_same_members (a b : Bitset) (s : Z) :
  wf_bitset a -> wf_bitset b -> (mem a s <-> mem b s) ->
  bs_get a s = bs_get b s.
Proof.
  intros Ha Hb Hm.
  destruct (Z_le_dec 0 s) as [H0 | H0];
    [destruct (Z_lt_dec s MAX_SUBSETS) as [H1 | H1] |].
  - assert (Hs : in_range s) by (split; assumption).
    rewrite (bs_get_in_range _ _ Ha Hs), (bs_get_in_range _ _ Hb Hs).
    rewrite (mem_bit _ _ Ha), (mem_bit _ _ Hb) in Hm.
    destruct (bit a s), (bit b s); try reflexivity;
      [assert (false = true) by tauto | assert (false = true) by tauto];
      discriminate.
  - rewrite !bs_get_out_of_range; unfold in_range; auto; lia.
  - rewrite !bs_get_out_of_range; unfold in_range; auto; lia.
Qed.

(** X1.  Setting bit [idx] of a well-formed bitset, for [idx] below
    [MAX_SUBSETS], stays inside the array, yields a well-formed bitset in
    which [bs_get] reads 1 at [idx], and leaves what [bs_get] returns at
    every other index as it was. *)
Theorem bs_set_then_get (bs : Bitset) (idx : Z) :
  wf_bitset bs -> 0 <= idx < MAX_SUBSETS ->
  exists bs', bs_set bs idx = Ok bs' /\ wf_bitset bs' /\
    bs_get bs' idx = Ok 1 /\
    forall j, j <> idx -> bs_get bs' j = bs_get bs j.
Proof.
  intros Hwf Hi. destruct (bs_set_spec bs idx Hwf Hi) as [bs' [H [Hwf' Hm]]].
  exists bs'. split; [exact H |]. split; [exact Hwf' |]. split.
  - apply Hm. auto.
  - intros j Hj. apply bs_get_same_members; try assumption.
    rewrite Hm. tauto.
Qed.

Lemma bs_set_then_get_witness :
  exists bs', bs_set family_trivial 2 = Ok bs' /\ wf_bitset bs' /\
    bs_get bs' 2 = Ok 1 /\
    forall j, j <> 2 -> bs_get bs' j = bs_get family_trivial j.
Proof.
  apply (bs_set_then_get family_trivial 2).
  - apply wf_bitsetb_spec. vm_compute. reflexivity.
  - change MAX_SUBSETS with 128. lia.
Defined.

(** X2.  On a well-formed bitset, [bs_get] and [bs_set] leave the word
    array exactly for the indices that are not below [MAX_SUBSETS]; inside,
    [bs_get] returns 0 or 1.  There is no check in the code: the bound is
    the caller's to keep. *)
Theorem bitset_bounds (bs : Bitset) (idx : Z) :
  wf_bitset bs ->
  (bs_get bs idx = OutOfBounds <-> ~ 0 <= idx < MAX_SUBSETS) /\
  (bs_set bs idx = OutOfBounds <-> ~ 0 <= idx < MAX_SUBSETS) /\
  (0 <= idx < MAX_SUBSETS -> bs_get bs idx = Ok 0 \/ bs_get bs idx = Ok 1).
Proof.
  intros Hwf. split; [| split].
  - split.
    + intros H Hr. rewrite (bs_get_in_range _ _ Hwf Hr) in H. discriminate.
    + apply bs_get_out_of_range, Hwf.
  - split.
    + intros H Hr. destruct (bs_set_spec bs idx Hwf Hr) as [b [Hb _]].
      rewrite Hb in H. discriminate.
    + apply bs_set_out_of_range, Hwf.
  - intros Hr. rewrite (bs_get_in_range _ _ Hwf Hr).
    destruct (bit bs idx); auto.
Qed.

Lemma bitset_bounds_witness :
  (bs_get family_full 128 = OutOfBounds <-> ~ 0 <= 128 < MAX_SUBSETS) /\
  (bs_set family_full 128 = OutOfBounds <-> ~ 0 <= 128 < MAX_SUBSETS) /\
  (0 <= 128 < MAX_SUBSETS ->
   bs_get family_full 128 = Ok 0 \/ bs_get family_full 128 = Ok 1).
Proof.
  apply (bitset_bounds family_full 128).
  apply wf_bitsetb_spec. vm_compute. reflexivity.
Defined.

(** X3.  A cleared bitset is well-formed and [bs_get] reads 0 at every
    index below [MAX_SUBSETS]. *)
Theorem bs_clear_reads_zero (idx : Z) :
  0 <= idx < MAX_SUBSETS ->
  wf_bitset bs_clear /\ bs_get bs_clear idx = Ok 0.
Proof.
  intros Hr. split; [exact wf_bs_clear |].
  apply bs_get_not_mem; [exact wf_bs_clear | exact Hr | apply mem_bs_clear].
Qed.

Lemma bs_clear_reads_zero_witness :
  wf_bitset bs_clear /\ bs_get bs_clear 100 = Ok 0.
Proof.
  apply (bs_clear_reads_zero 100). change MAX_SUBSETS with 128. lia.
Defined.

(** X4.  Setting bits commutes, and setting a bit twice is setting it
    once: the bitset reached does not depend on the order or on
    repetitions. *)
Theorem bs_set_commutes (bs : Bitset) (i j : Z) :
  wf_bitset bs -> 0 <= i < MAX_SUBSETS -> 0 <= j < MAX_SUBSETS ->
  exists a b c,
    bs_set bs i = Ok a /\ bs_set a j = Ok c /\
    bs_set bs j = Ok b /\ bs_set b i = Ok c /\
    bs_set a i = Ok a.
Proof.
  intros Hwf Hi Hj.
  destruct (bs_set_spec bs i Hwf Hi) as [a [Ha [Hwa Hma]]].
  destruct (bs_set_spec bs j Hwf Hj) as [b [Hb [Hwb Hmb]]].
  destruct (bs_set_spec a j Hwa Hj) as [c [Hc [Hwc Hmc]]].
  destruct (bs_set_spec b i Hwb Hi) as [c' [Hc' [Hwc' Hmc']]].
  exists a, b, c. split; [exact Ha |]. split; [exact Hc |].
  split; [exact Hb |]. split.
  - rewrite Hc'. f_equal. apply bitset_ext; try assumption.
    intros s. rewrite Hmc', Hmc, Hmb, Hma. tauto.
  - apply bs_set_mem_id; [exact Hwa |]. apply Hma. auto.
Qed.

Lemma bs_set_commutes_witness :
  exists a b c,
    bs_set family_trivial 1 = Ok a /\ bs_set a 70 = Ok c /\
    bs_set family_trivial 70 = Ok b /\ bs_set b 1 = Ok c /\
    bs_set a 1 = Ok a.
Proof.
  apply (bs_set_commutes family_trivial 1 70).
  - apply wf_bitsetb_spec. vm_compute. reflexivity.
  - change MAX_SUBSETS with 128. lia.
  - change MAX_SUBSETS with 128. lia.
Defined.

(** ** More about [extend_closure] *)

(** X5.  A reported contradiction is a real one: when [extend_closure]
    returns 0, every family that is closed under complement and disjoint
    union and holds [included] and [extension] holds an excluded subset
    (one that is neither in [included] nor the extension itself).  Pruning
    the branch loses no Dynkin system. *)
Theorem extend_closure_failure_sound (omega : Z)
    (included excluded : Bitset) (extension : Z) (cl : Bitset) :
  wf_bitset included -> wf_bitset excluded ->
  0 <= omega < MAX_SUBSETS -> 0 <= extension < MAX_SUBSETS ->
  extend_closure omega included extension excluded = Ok (false, cl) ->
  forall D : Z -> Prop,
    dynkin_closed omega D ->
    (forall s, mem included s -> D s) -> D extension ->
    exists z, D z /\ mem excluded z /\ ~ mem included z /\ z <> extension.
Proof.
  intros Hwi Hwe Ho He Hext D HD Hi HDe.
  destruct (extend_closure_facts omega included extension excluded
              Hwi Hwe Ho He)
    as [b [cl' [H [_ [Hsup [Hme [_ [_ [_ Hfail]]]]]]]]].
  rewrite Hext in H. inversion H; subst b cl'.
  destruct (Hfail eq_refl) as [z [Hz [Hez Hnz]]].
  exists z. split; [| split; [exact Hez | split]].
  - apply (generated_least omega included extension D HD Hi HDe z Hz).
  - intros Hzi. apply Hnz, Hsup, Hzi.
  - intros ->. contradiction.
Qed.

Lemma extend_closure_failure_sound_witness :
  extend_closure 3 family_trivial 1 family_1_and_2 =
    Ok (false, mkBitset [11; 0]) /\
  forall D : Z -> Prop,
    dynkin_closed 3 D ->
    (forall s, mem family_trivial s -> D s) -> D 1 ->
    exists z, D z /\ mem family_1_and_2 z /\ ~ mem family_trivial z /\ z <> 1.
Proof.
  split; [vm_compute; reflexivity |].
  apply (extend_closure_failure_sound 3 family_trivial family_1_and_2 1
           (mkBitset [11; 0])).
  - apply wf_bitsetb_spec. vm_compute. reflexivity.
  - apply wf_bitsetb_spec. vm_compute. reflexivity.
  - change MAX_SUBSETS with 128. lia.
  - change MAX_SUBSETS with 128. lia.
  - vm_compute. reflexivity.
Defined.

(** X6.  On a closed family, [extend_closure] consults [excluded] only
    outside [included]: two excluded families that agree outside
    [included] give the same verdict and, on success, the same closure. *)
Theorem extend_closure_ignores_decided (omega : Z) (included : Bitset)
    (extension : Z) (exc exc' : Bitset) :
  wf_bitset included -> wf_bitset exc -> wf_bitset exc' ->
  0 <= omega < MAX_SUBSETS -> 0 <= extension < MAX_SUBSETS ->
  dynkin_closed omega (mem included) ->
  (forall s, ~ mem included s -> (mem exc s <-> mem exc' s)) ->
  exists b cl cl',
    extend_closure omega included extension exc = Ok (b, cl) /\
    extend_closure omega included extension exc' = Ok (b, cl') /\
    (b = true -> cl = cl').
Proof.
  intros Hwi Hwe Hwe' Ho He Hd Hag.
  apply extend_closure_agree; assumption.
Qed.

Lemma extend_closure_ignores_decided_witness :
  exists b cl cl',
    extend_closure 3 family_trivial 1 bs_clear = Ok (b, cl) /\
    extend_closure 3 family_trivial 1 family_trivial = Ok (b, cl') /\
    (b = true -> cl = cl').
Proof.
  apply (extend_closure_ignores_decided 3 family_trivial 1
           bs_clear family_trivial).
  - apply wf_bitsetb_spec. vm_compute. reflexivity.
  - apply wf_bitsetb_spec. vm_compute. reflexivity.
  - apply wf_bitsetb_spec. vm_compute. reflexivity.
  - change MAX_SUBSETS with 128. lia.
  - change MAX_SUBSETS with 128. lia.
  - apply closedb_spec; [apply wf_bitsetb_spec |]; vm_compute; reflexivity.
  - intros s Hs. split; intros H.
    + exfalso. exact (mem_bs_clear s H).
    + contradiction.
Defined.

(** ** More about [inner] *)

Lemma inner_from_decided (omega : Z) (fuel : nat) :
  forall (m : Z) (included excluded : Bitset) (count : Z),
    wf_bitset included -> wf_bitset excluded -> in_range omega ->
    0 <= m -> midpoint omega - m <= Z.of_nat fuel ->
    (forall s, m <= s < midpoint omega ->
               mem included s \/ mem excluded s) ->
    inner_from fuel omega m included excluded count = Ok count.
Proof.
  induction fuel as [| fuel IH]; intros m inc exc count Hwi Hwe Ho Hm Hf Hd.
  - cbn [inner_from]. destruct (Z.ltb_spec m (midpoint omega)); [lia |].
    reflexivity.
  - destruct (Z_lt_dec m (midpoint omega)) as [Hlt | Hge].
    + rewrite inner_from_skip by (auto; apply Hd; lia).
      apply IH; auto; try lia. intros s Hs. apply Hd. lia.
    + cbn [inner_from]. destruct (Z.ltb_spec m (midpoint omega)); [lia |].
      reflexivity.
Qed.

(** X7.  When every index from [lb] up to the midpoint is already decided
    (marked in [included] or in [excluded]), [inner] attempts no extension
    and returns 1: the state itself is the one completed system. *)
Theorem inner_all_decided (omega lb : Z) (included excluded : Bitset) :
  wf_bitset included -> wf_bitset excluded ->
  0 <= omega < MAX_SUBSETS -> 0 <= lb ->
  (forall s, lb <= s < midpoint omega ->
             mem included s \/ mem excluded s) ->
  inner omega lb included excluded = Ok 1.
Proof.
  intros Hwi Hwe Ho Hlb Hd. unfold inner.
  apply inner_from_decided; auto. unfold inner_fuel. lia.
Qed.

Lemma inner_all_decided_witness :
  inner 3 1 family_full family_1_and_2 = Ok 1.
Proof.
  apply (inner_all_decided 3 1 family_full family_1_and_2).
  - apply wf_bitsetb_spec. vm_compute. reflexivity.
  - apply wf_bitsetb_spec. vm_compute. reflexivity.
  - change MAX_SUBSETS with 128. lia.
  - lia.
  - intros s Hs. change (midpoint 3) with 2 in Hs.
    assert (s = 1) by lia. subst s. left. vm_compute. reflexivity.
Defined.

(** X8.  Each undecided index at most doubles the count: for a lower bound
    from 1 on, [inner] returns at most 2 to the number of indices between
    the lower bound and the midpoint. *)
Theorem inner_at_most_doubling (omega lb : Z) (included excluded : Bitset) :
  wf_bitset included -> wf_bitset excluded ->
  0 <= omega < MAX_SUBSETS -> 1 <= lb ->
  exists c, inner omega lb included excluded = Ok c /\
            1 <= c <= 2 ^ Z.max 0 (midpoint omega - lb).
Proof.
  intros Hwi Hwe Ho Hlb. unfold inner.
  destruct (midpoint_in_range omega Ho) as [_ Hmid].
  assert (Hexp : Z.of_nat (inner_fuel omega lb) =
                 Z.max 0 (midpoint omega - lb))
    by (unfold inner_fuel; lia).
  assert (Hp : 2 ^ Z.of_nat (inner_fuel omega lb) <= 2 ^ 63)
    by (apply Z.pow_le_mono_r; lia).
  destruct (inner_from_bound omega (inner_fuel omega lb) lb
              included excluded 1 Hwi Hwe Ho) as [c [Hc Hb]]; try lia.
  exists c. split; [exact Hc |]. rewrite <- Hexp. lia.
Qed.

Lemma inner_at_most_doubling_witness :
  exists c, inner 7 1 (mkBitset [129; 0]) bs_clear = Ok c /\
            1 <= c <= 2 ^ Z.max 0 (midpoint 7 - 1).
Proof.
  apply (inner_at_most_doubling 7 1 (mkBitset [129; 0]) bs_clear).
  - apply wf_bitsetb_spec. vm_compute. reflexivity.
  - apply wf_bitsetb_spec. vm_compute. reflexivity.
  - change MAX_SUBSETS with 128. lia.
  - lia.
Defined.

(** X9.  On a closed family, the count of [inner] depends on [excluded]
    only outside [included]: marking members of [included] as excluded, as
    the driver does for the index of its branch, does not change it. *)
Theorem inner_ignores_decided (omega lb : Z) (included exc exc' : Bitset) :
  wf_bitset included -> wf_bitset exc -> wf_bitset exc' ->
  0 <= omega < MAX_SUBSETS -> 0 <= lb ->
  dynkin_closed omega (mem included) ->
  (forall s, ~ mem included s -> (mem exc s <-> mem exc' s)) ->
  inner omega lb included exc = inner omega lb included exc'.
Proof.
  intros Hwi Hwe Hwe' Ho Hlb Hd Hag. unfold inner.
  apply inner_from_agree; assumption.
Qed.

Lemma inner_ignores_decided_witness :
  inner 3 1 family_trivial bs_clear = inner 3 1 family_trivial family_trivial.
Proof.
  apply (inner_ignores_decided 3 1 family_trivial bs_clear family_trivial).
  - apply wf_bitsetb_spec. vm_compute. reflexivity.
  - apply wf_bitsetb_spec. vm_compute. reflexivity.
  - apply wf_bitsetb_spec. vm_compute. reflexivity.
  - change MAX_SUBSETS with 128. lia.
  - lia.
  - apply closedb_spec; [apply wf_bitsetb_spec |]; vm_compute; reflexivity.
  - intros s Hs. split; intros H.
    + exfalso. exact (mem_bs_clear s H).
    + contradiction.
Defined.

(** ** What the program counts *)

(** The complement within a ground set of [n] elements. *)
Lemma complement_sub (n s : Z) :
  0 <= n -> 0 <= s < 2 ^ n -> Z.lxor (2 ^ n - 1) s = 2 ^ n - 1 - s.
Proof.
  intros Hn Hs.
  replace (2 ^ n - 1) with (Z.ones n) by (rewrite Z.ones_equiv; lia).
  assert (Hd : Z.land (Z.lxor (Z.ones n) s) s = 0).
  { apply Z.bits_inj'. intros k Hk.
    rewrite Z.land_spec, Z.lxor_spec, Z.bits_0.
    destruct (Z.testbit s k) eqn:Hb; [| apply andb_false_r].
    destruct (Z_lt_dec k n) as [Hlt | Hge].
    - rewrite Z.ones_spec_low by lia. reflexivity.
    - rewrite (proj1 (Z.bounded_iff_bits_nonneg' n s Hn ltac:(lia)))
        in Hb by lia.
      discriminate. }
  pose proof (Z.add_nocarry_lxor _ _ Hd) as Hadd.
  rewrite Z.lxor_assoc, Z.lxor_nilpotent, Z.lxor_0_r in Hadd.
  lia.
Qed.

Lemma subsets_closed (n : Z) :
  0 <= n -> dynkin_closed (2 ^ n - 1) (fun s => 0 <= s <= 2 ^ n - 1).
Proof.
  intros Hn. split.
  - intros s Hs. rewrite complement_sub by lia. lia.
  - intros x y Hx Hy _.
    assert (H : 0 <= Z.lor x y < 2 ^ n); [| lia].
    apply (Z.bounded_iff_bits_nonneg' n); [lia | |].
    + apply Z.lor_nonneg. lia.
    + intros l Hl. rewrite Z.lor_spec.
      rewrite (proj1 (Z.bounded_iff_bits_nonneg' n x Hn ltac:(lia))) by lia.
      rewrite (proj1 (Z.bounded_iff_bits_nonneg' n y Hn ltac:(lia))) by lia.
      reflexivity.
Qed.

(** A Dynkin system over the ground set [omega], as a bitset: it holds the
    empty set, all its members are subsets of [omega], and it is closed
    under complement and under union of disjoint members. *)
Definition dynkin_system (omega : Z) (D : Bitset) : Prop :=
  wf_bitset D /\ mem D 0 /\
  (forall s, mem D s -> 0 <= s <= omega) /\
  dynkin_closed omega (mem D).

(** [D] completes the search state: it is a Dynkin system that holds every
    included subset and no excluded one. *)
Definition completes (omega : Z) (inc exc D : Bitset) : Prop :=
  dynkin_system omega D /\
  (forall s, mem inc s -> mem D s) /\
  (forall s, mem exc s -> ~ mem D s).

(** The loop of [inner] from [m] on adds to [count] the number of Dynkin
    systems that complete the state, less the one that the caller has
    counted. *)
Lemma inner_from_exact (n : Z) (fuel : nat) :
  1 <= n <= MAX_N ->
  forall (m : Z) (inc exc : Bitset) (count : Z),
    dynkin_system (omega_of n) inc -> wf_bitset exc ->
    (forall s, mem inc s -> ~ mem exc s) ->
    (forall s, 0 <= s < m -> mem inc s \/ mem exc s) ->
    0 <= m -> midpoint (omega_of n) - m <= Z.of_nat fuel ->
    0 <= count -> count + 2 ^ Z.of_nat fuel - 1 < 2 ^ 64 ->
    exists l : list Bitset,
      NoDup l /\
      (forall D, D ∈ l <-> completes (omega_of n) inc exc D) /\
      inner_from fuel (omega_of n) m inc exc count =
      Ok (count + Z.of_nat (length l) - 1).
Proof.
  intros Hn. destruct (omega_of_spec n Hn) as [Hon [Ho [Hmid Hm1]]].
  assert (Hpow : 2 ^ n = 2 * 2 ^ (n - 1)).
  { replace n with (Z.succ (n - 1)) at 1 by lia.
    rewrite Z.pow_succ_r by lia. reflexivity. }
  induction fuel as [| fuel IH];
    intros m inc exc count Hsys Hwe Hdisj Hdec Hm Hfuel Hc0 Hsum.
  - destruct (inner_from_bound (omega_of n) 0 m inc exc count
                ltac:(apply Hsys) Hwe Ho Hm Hfuel Hc0 Hsum) as [c [Hc _]].
    cbn [inner_from] in Hc |- *.
    destruct (Z.ltb_spec m (midpoint (omega_of n))); [lia |].
    exists [inc]. split; [apply NoDup_singleton |].
    split; [| simpl; f_equal; lia].
    intros D. rewrite list_elem_of_singleton. split.
    + intros ->. split; [exact Hsys |]. split; [auto |].
      intros s He Hi. exact (Hdisj s Hi He).
    + intros [[HwD [HD0 [HDr HDc]]] [Hsup Havoid]].
      destruct Hsys as [Hwi [Hi0 [Hir Hic]]].
      apply bitset_ext; try assumption. intros s. split; [| apply Hsup].
      intros Hs.
      assert (Hlow : forall t, 0 <= t < midpoint (omega_of n) ->
                               mem D t -> mem inc t).
      { intros t Ht HDt. destruct (Hdec t ltac:(lia)) as [Hti | Hte];
          [exact Hti | exfalso; exact (Havoid t Hte HDt)]. }
      pose proof (HDr s Hs) as Hsr.
      destruct (Z_lt_dec s (midpoint (omega_of n))) as [Hlt | Hge].
      * apply Hlow; [lia | exact Hs].
      * rewrite <- (lxor_involutive (omega_of n) s). apply Hic.
        apply Hlow; [| apply HDc; exact Hs].
        rewrite Hon in *. rewrite complement_sub by lia. lia.
  - destruct (Z_lt_dec m (midpoint (omega_of n))) as [Hlt | Hge].
    2:{ destruct (IH m inc exc count Hsys Hwe Hdisj Hdec Hm ltac:(lia) Hc0)
          as [l [Hnd [Hl Hr]]].
        { rewrite pow2_S in Hsum. pose proof (pow2_pos fuel). lia. }
        exists l. split; [exact Hnd |]. split; [exact Hl |].
        rewrite <- Hr. apply inner_from_fuel; lia. }
    pose proof Hsys as [Hwi [Hi0 [Hir Hic]]].
    pose proof (pow2_pos fuel) as Hp. rewrite pow2_S in Hsum.
    destruct (below_midpoint_in_range _ _ Ho (conj Hm Hlt)) as [Hmr [Hcr Hmo]].
    assert (Hdec' : forall (i e : Bitset),
              (forall s, mem inc s -> mem i s) ->
              (forall s, mem exc s -> mem e s) ->
              (mem i m \/ mem e m) ->
              forall s, 0 <= s < m + 1 -> mem i s \/ mem e s).
    { intros i e Hi He Hmm s Hs. destruct (Z.eq_dec s m) as [-> | Hne];
        [exact Hmm |].
      destruct (Hdec s ltac:(lia)); auto. }
    destruct (mem_dec inc m) as [Hmi | Hni];
      [| destruct (mem_dec exc m) as [Hme | Hne]].
    + rewrite inner_from_skip by auto.
      apply IH; auto; try lia; apply (Hdec' inc exc); auto.
    + rewrite inner_from_skip by auto.
      apply IH; auto; try lia; apply (Hdec' inc exc); auto.
    + destruct (inner_from_try (omega_of n) fuel m inc exc count
                  Hwi Hwe Ho (conj Hm Hlt) Hni Hne)
        as [b [cl [e2 [Hext [Hcom Hstep]]]]].
      rewrite Hstep. clear Hstep.
      destruct (commit_spec (omega_of n) m exc Hwe Hmr Hcr)
        as [x [Hx [Hwe2 Hme2]]].
      rewrite Hcom in Hx. inversion Hx; subst x. clear Hx.
      destruct (extend_closure_facts (omega_of n) inc m exc Hwi Hwe Ho Hmr)
        as [b' [cl' [H [Hwcl [Hsup [Hmm [Hgen [Hnew [_ Hfail]]]]]]]]].
      rewrite Hext in H. inversion H; subst b' cl'. clear H.
      assert (Hdisj2 : forall s, mem inc s -> ~ mem e2 s).
      { intros s Hs He. apply Hme2 in He. destruct He as [-> | [-> | He]].
        - contradiction.
        - apply Hni. rewrite <- (lxor_involutive (omega_of n) m).
          apply Hic. exact Hs.
        - exact (Hdisj s Hs He). }
      assert (Hout : forall D, completes (omega_of n) inc exc D ->
                ~ mem D m -> completes (omega_of n) inc e2 D).
      { intros D [HD [HDs HDa]] HDm. split; [exact HD |].
        split; [exact HDs |]. intros s Hs HDs'. apply Hme2 in Hs.
        destruct Hs as [-> | [-> | Hs]].
        - contradiction.
        - apply HDm. rewrite <- (lxor_involutive (omega_of n) m).
          apply HD. exact HDs'.
        - exact (HDa s Hs HDs'). }
      assert (Hback : forall D, completes (omega_of n) inc e2 D ->
                completes (omega_of n) inc exc D /\ ~ mem D m).
      { intros D [HD [HDs HDa]]. split.
        - split; [exact HD |]. split; [exact HDs |].
          intros s Hs. apply HDa, Hme2. auto.
        - apply HDa, Hme2. auto. }
      assert (Hforced : forall D, completes (omega_of n) inc exc D ->
                mem D m -> forall s,
                generated (omega_of n) inc m s -> mem D s).
      { intros D [HD [HDs _]] HDm.
        apply generated_least; [apply HD | exact HDs | exact HDm]. }
      destruct b.
      * assert (Hsys1 : dynkin_system (omega_of n) cl).
        { split; [exact Hwcl |]. split; [apply Hsup, Hi0 |]. split.
          - intros s Hs. apply Hgen in Hs. revert s Hs.
            apply generated_least; [| exact Hir | lia].
            rewrite Hon. apply subsets_closed. lia.
          - apply (extend_closure_closed _ _ _ _ _ Hwi Hwe Ho Hmr Hic Hext). }
        assert (Hdisj1 : forall s, mem cl s -> ~ mem exc s).
        { intros s Hs He. destruct (Hnew s Hs) as [Hi | [-> | Hnx]].
          - exact (Hdisj s Hi He).
          - contradiction.
          - contradiction. }
        destruct (inner_from_bound (omega_of n) fuel (m + 1) cl exc 1
                    Hwcl Hwe Ho ltac:(lia) ltac:(lia) ltac:(lia) ltac:(lia))
          as [r [Hr Hrb]].
        destruct (IH (m + 1) cl exc 1 Hsys1 Hwe Hdisj1
                    ltac:(apply (Hdec' cl exc); auto)
                    ltac:(lia) ltac:(lia) ltac:(lia) ltac:(lia))
          as [l1 [Hnd1 [Hl1 Hr1]]].
        rewrite Hr1 in Hr. inversion Hr; subst r. clear Hr.
        rewrite Hr1. cbn [bind].
        assert (Hu : u64 (count + (1 + Z.of_nat (length l1) - 1)) =
                     count + Z.of_nat (length l1))
          by (unfold u64; rewrite Z.mod_small; lia).
        rewrite Hu.
        destruct (IH (m + 1) inc e2 (count + Z.of_nat (length l1))
                    Hsys Hwe2 Hdisj2
                    ltac:(apply (Hdec' inc e2); auto;
                          [intros s Hs; apply Hme2; auto
                          | right; apply Hme2; auto])
                    ltac:(lia) ltac:(lia) ltac:(lia) ltac:(lia))
          as [l2 [Hnd2 [Hl2 Hr2]]].
        exists (l1 ++ l2). split; [| split].
        -- apply NoDup_app. split; [exact Hnd1 |]. split; [| exact Hnd2].
           intros D H1 H2. apply Hl1 in H1. apply Hl2 in H2.
           destruct H1 as [_ [H1 _]]. destruct (Hback D H2) as [_ H2'].
           apply H2', H1, Hmm.
        -- intros D. rewrite elem_of_app, Hl1, Hl2. split.
           ++ intros [[HD [HDs HDa]] | HD2].
              ** split; [exact HD |]. split; [| exact HDa].
                 intros s Hs. apply HDs, Hsup, Hs.
              ** apply (Hback D HD2).
           ++ intros HD. destruct (mem_dec D m) as [HDm | HDm].
              ** left. destruct HD as [HD0 [HDs HDa]].
                 split; [exact HD0 |]. split; [| exact HDa].
                 intros s Hs.
                 apply (Hforced D (conj HD0 (conj HDs HDa)) HDm), Hgen, Hs.
              ** right. apply Hout; assumption.
        -- rewrite Hr2, length_app. f_equal. lia.
      * destruct (IH (m + 1) inc e2 count Hsys Hwe2 Hdisj2
                    ltac:(apply (Hdec' inc e2); auto;
                          [intros s Hs; apply Hme2; auto
                          | right; apply Hme2; auto])
                    ltac:(lia) ltac:(lia) ltac:(lia) ltac:(lia))
          as [l2 [Hnd2 [Hl2 Hr2]]].
        exists l2. split; [exact Hnd2 |]. split; [| exact Hr2].
        intros D. rewrite Hl2. split; [apply Hback |].
        intros HD. apply Hout; [exact HD |]. intros HDm.
        destruct (Hfail eq_refl) as [z [Hz [Hez _]]].
        destruct HD as [HD0 [HDs HDa]].
        apply (HDa z Hez).
        apply (Hforced D (conj HD0 (conj HDs HDa)) HDm z Hz).
Qed.

(** X10.  [inner] counts exactly the completions of its state.  For a
    ground set of [n] elements, a lower bound from 1 on, an [included] that
    is a Dynkin system, an [excluded] disjoint from it, and every index
    below the lower bound decided: the count is the number of Dynkin
    systems that hold every included subset and no excluded one. *)
Theorem inner_counts_completions (n lb : Z) (inc exc : Bitset) :
  1 <= n <= MAX_N -> 1 <= lb ->
  dynkin_system (omega_of n) inc -> wf_bitset exc ->
  (forall s, mem inc s -> ~ mem exc s) ->
  (forall s, 0 <= s < lb -> mem inc s \/ mem exc s) ->
  exists l : list Bitset,
    NoDup l /\
    (forall D, D ∈ l <-> completes (omega_of n) inc exc D) /\
    inner (omega_of n) lb inc exc = Ok (Z.of_nat (length l)).
Proof.
  intros Hn Hlb Hsys Hwe Hdisj Hdec.
  destruct (omega_of_spec n Hn) as [_ [Ho _]].
  destruct (midpoint_in_range _ Ho) as [_ Hmid].
  assert (Hp : 2 ^ Z.of_nat (inner_fuel (omega_of n) lb) <= 2 ^ 63)
    by (apply Z.pow_le_mono_r; unfold inner_fuel; lia).
  destruct (inner_from_exact n (inner_fuel (omega_of n) lb) Hn lb inc exc 1
              Hsys Hwe Hdisj Hdec) as [l [Hnd [Hl Hr]]];
    try (unfold inner_fuel; lia); try lia.
  exists l. split; [exact Hnd |]. split; [exact Hl |].
  unfold inner. rewrite Hr. f_equal. lia.
Qed.

Lemma inner_counts_completions_witness :
  exists l : list Bitset,
    NoDup l /\
    (forall D, D ∈ l <-> completes (omega_of 2) family_trivial bs_clear D) /\
    inner (omega_of 2) 1 family_trivial bs_clear = Ok (Z.of_nat (length l)).
Proof.
  apply (inner_counts_completions 2 1 family_trivial bs_clear).
  - change MAX_N with 7. lia.
  - lia.
  - change (omega_of 2) with 3.
    assert (Hwf : wf_bitset family_trivial)
      by (apply wf_bitsetb_spec; vm_compute; reflexivity).
    split; [exact Hwf |]. split; [vm_compute; reflexivity |]. split.
    + apply boundedb_spec; [exact Hwf | vm_compute; reflexivity].
    + apply closedb_spec; [exact Hwf | vm_compute; reflexivity].
  - apply wf_bitsetb_spec. vm_compute. reflexivity.
  - intros s _. apply mem_bs_clear.
  - intros s Hs. assert (s = 0) by lia. subst s. left.
    vm_compute. reflexivity.
Defined.

Lemma driver_count_zero_systems :
  exists l : list Bitset,
    NoDup l /\ (forall D, D ∈ l <-> dynkin_system (omega_of 0) D) /\
    driver_count 0 = Ok (Z.of_nat (length l)).
Proof.
  change (omega_of 0) with 0.
  assert (Hwf : wf_bitset (mkBitset [1; 0]))
    by (apply wf_bitsetb_spec; vm_compute; reflexivity).
  assert (Hb : forall s, mem (mkBitset [1; 0]) s -> 0 <= s <= 0)
    by (apply boundedb_spec; [exact Hwf | vm_compute; reflexivity]).
  exists [mkBitset [1; 0]]. split; [apply NoDup_singleton |].
  split; [| vm_compute; reflexivity].
  intros D. rewrite list_elem_of_singleton. split.
  - intros ->. split; [exact Hwf |]. split; [vm_compute; reflexivity |].
    split; [exact Hb |].
    apply closedb_spec; [exact Hwf | vm_compute; reflexivity].
  - intros [HwD [HD0 [HDr _]]]. apply bitset_ext; try assumption.
    intros s. split; intros Hs.
    + assert (s = 0) by (specialize (HDr s Hs); lia). subst s.
      vm_compute. reflexivity.
    + assert (s = 0) by (specialize (Hb s Hs); lia). subst s. exact HD0.
Qed.

(** X11.  The count that the driver prints for [n] is the number of Dynkin
    systems over a ground set of [n] elements, for every [n] from 0 to
    [MAX_N]: there is a duplicate-free list of exactly the Dynkin systems
    over [omega], and the count is its length. *)
Theorem driver_counts_dynkin_systems (n : Z) :
  0 <= n <= MAX_N ->
  exists l : list Bitset,
    NoDup l /\ (forall D, D ∈ l <-> dynkin_system (omega_of n) D) /\
    driver_count n = Ok (Z.of_nat (length l)).
Proof.
  intros Hn. destruct (Z.eq_dec n 0) as [-> | Hn0];
    [exact driver_count_zero_systems |].
  assert (Hn1 : 1 <= n <= MAX_N) by lia.
  destruct (omega_of_spec n Hn1) as [_ [Ho _]].
  destruct (driver_serial n Hn1) as [base [c [Hbase [Hdrv [Hin _]]]]].
  destruct (base_included_spec _ Ho) as [b [Hb [Hwb [Hmb Hdb]]]].
  rewrite Hbase in Hb. inversion Hb; subst b. clear Hb.
  assert (Hsys : dynkin_system (omega_of n) base).
  { split; [exact Hwb |]. split; [apply Hmb; auto |]. split; [| exact Hdb].
    intros s Hs. apply Hmb in Hs. unfold in_range in Ho. lia. }
  destruct (inner_from_exact n (inner_fuel (omega_of n) 1) Hn1 1 base bs_clear 1
              Hsys wf_bs_clear) as [l [Hnd [Hl Hr]]];
    try (unfold inner_fuel; lia); try lia.
  - intros s _. apply mem_bs_clear.
  - intros s Hs. assert (s = 0) by lia. subst s. left. apply Hmb. auto.
  - destruct (midpoint_in_range _ Ho) as [_ Hmid].
    assert (2 ^ Z.of_nat (inner_fuel (omega_of n) 1) <= 2 ^ 63)
      by (apply Z.pow_le_mono_r; unfold inner_fuel; lia).
    lia.
  - exists l. split; [exact Hnd |]. split.
    + intros D. rewrite Hl. split; [intros [HD _]; exact HD |].
      intros HD. split; [exact HD |]. split.
      * intros s Hs. apply Hmb in Hs. destruct HD as [_ [HD0 [_ [HDc _]]]].
        destruct Hs as [-> | ->]; [exact HD0 |].
        rewrite <- (Z.lxor_0_r (omega_of n)). apply HDc, HD0.
      * intros s Hs. exfalso. exact (mem_bs_clear s Hs).
    + rewrite Hdrv. unfold inner in Hin. rewrite Hr in Hin.
      inversion Hin. f_equal. lia.
Qed.

Lemma driver_counts_dynkin_systems_witness :
  exists l : list Bitset,
    NoDup l /\ (forall D, D ∈ l <-> dynkin_system (omega_of 3) D) /\
    driver_count 3 = Ok (Z.of_nat (length l)).
Proof.
  apply (driver_counts_dynkin_systems 3). change MAX_N with 7. lia.
Defined.

(** ** More about the driver *)

(** X12.  The table [root_excluded] of the driver, for a ground set below
    [MAX_SUBSETS] with at least one index to decide: it has one entry per
    index below the midpoint, and entry [j] marks exactly the indices
    [1 .. j] and their complements, which is what a serial run has
    excluded when it reaches index [j + 1].  With midpoint 0 the table
    has no entry and the precomputation would write outside it; the driver
    returns before. *)
Theorem root_excluded_table (omega : Z) :
  0 <= omega < MAX_SUBSETS ->
  (midpoint omega = 0 -> root_excluded omega = OutOfBounds) /\
  (1 <= midpoint omega ->
   exists re, root_excluded omega = Ok re /\
     Z.of_nat (length re) = midpoint omega /\
     forall (j : nat) (e : Bitset), re !! j = Some e ->
       wf_bitset e /\
       forall s, mem e s <->
         exists i, 1 <= i <= Z.of_nat j /\ (s = i \/ s = Z.lxor omega i)).
Proof.
  intros Ho. split.
  - intros H0. unfold root_excluded. rewrite H0. reflexivity.
  - intros Hmid.
    destruct (root_excluded_spec omega Ho Hmid) as [re [Hre [Hlen [Hwf Hch]]]].
    exists re. split; [exact Hre |]. split; [exact Hlen |].
    intros j e He. split.
    + rewrite Forall_lookup in Hwf. exact (Hwf _ _ He).
    + apply (chain_members omega re j Ho Hwf); [| lia | exact He].
      rewrite Hlen. exact Hch.
Qed.

Lemma root_excluded_table_witness :
  (midpoint 7 = 0 -> root_excluded 7 = OutOfBounds) /\
  (1 <= midpoint 7 ->
   exists re, root_excluded 7 = Ok re /\
     Z.of_nat (length re) = midpoint 7 /\
     forall (j : nat) (e : Bitset), re !! j = Some e ->
       wf_bitset e /\
       forall s, mem e s <->
         exists i, 1 <= i <= Z.of_nat j /\ (s = i \/ s = Z.lxor 7 i)).
Proof.
  apply (root_excluded_table 7). change MAX_SUBSETS with 128. lia.
Defined.

(** X13.  The base family that the driver seeds, for a ground set below
    [MAX_SUBSETS]: it marks exactly the empty set and [omega], it is a
    Dynkin system, and every Dynkin system over [omega] holds it. *)
Theorem base_family_least (omega : Z) :
  0 <= omega < MAX_SUBSETS ->
  exists base, base_included omega = Ok base /\
    (forall s, mem base s <-> s = 0 \/ s = omega) /\
    dynkin_system omega base /\
    forall D, dynkin_system omega D -> forall s, mem base s -> mem D s.
Proof.
  intros Ho. destruct (base_included_spec omega Ho) as [b [Hb [Hwb [Hmb Hdb]]]].
  exists b. split; [exact Hb |]. split; [exact Hmb |]. split.
  - split; [exact Hwb |]. split; [apply Hmb; auto |]. split; [| exact Hdb].
    intros s Hs. apply Hmb in Hs. lia.
  - intros D [_ [HD0 [_ [HDc _]]]] s Hs. apply Hmb in Hs.
    destruct Hs as [-> | ->]; [exact HD0 |].
    rewrite <- (Z.lxor_0_r omega). apply HDc, HD0.
Qed.

Lemma base_family_least_witness :
  exists base, base_included 3 = Ok base /\
    (forall s, mem base s <-> s = 0 \/ s = 3) /\
    dynkin_system 3 base /\
    forall D, dynkin_system 3 D -> forall s, mem base s -> mem D s.
Proof.
  apply (base_family_least 3). change MAX_SUBSETS with 128. lia.
Defined.

(** The line that the driver prints for [n] carries the number of Dynkin
    systems over [n] elements. *)
Lemma driver_line_systems (n : Z) :
  0 <= n <= MAX_N ->
  exists l : list Bitset,
    NoDup l /\ (forall D, D ∈ l <-> dynkin_system (omega_of n) D) /\
    (1 <= length l)%nat /\
    driver_count n = Ok (Z.of_nat (length l)) /\
    driver_line n = Ok (print_line n (Z.of_nat (length l))).
Proof.
  intros Hn.
  assert (Hcount : exists l : list Bitset,
             NoDup l /\ (forall D, D ∈ l <-> dynkin_system (omega_of n) D) /\
             driver_count n = Ok (Z.of_nat (length l))).
  { destruct (Z.eq_dec n 0) as [-> | Hn0];
      [exact driver_count_zero_systems |].
    assert (Hn1 : 1 <= n <= MAX_N) by lia.
    destruct (omega_of_spec n Hn1) as [_ [Ho _]].
    destruct (driver_serial n Hn1) as [base [c [Hbase [Hdrv [Hin _]]]]].
    destruct (base_included_spec _ Ho) as [b [Hb [Hwb [Hmb Hdb]]]].
    rewrite Hbase in Hb. inversion Hb; subst b. clear Hb.
    assert (Hbase_le : forall D, dynkin_system (omega_of n) D ->
                                 forall s, mem base s -> mem D s).
    { intros D [_ [HD0 [_ [HDc _]]]] s Hs. apply Hmb in Hs.
      destruct Hs as [-> | ->]; [exact HD0 |].
      rewrite <- (Z.lxor_0_r (omega_of n)). apply HDc, HD0. }
    assert (Hsys : dynkin_system (omega_of n) base).
    { split; [exact Hwb |]. split; [apply Hmb; auto |]. split; [| exact Hdb].
      intros s Hs. apply Hmb in Hs. unfold in_range in Ho. lia. }
    destruct (midpoint_in_range _ Ho) as [_ Hmid].
    assert (Hpow : 2 ^ Z.of_nat (inner_fuel (omega_of n) 1) <= 2 ^ 63)
      by (apply Z.pow_le_mono_r; unfold inner_fuel; lia).
    destruct (inner_from_exact n (inner_fuel (omega_of n) 1) Hn1 1 base
                bs_clear 1 Hsys wf_bs_clear) as [l [Hnd [Hl Hr]]];
      try (unfold inner_fuel; lia); try lia.
    - intros s _. apply mem_bs_clear.
    - intros s Hs. assert (s = 0) by lia. subst s. left. apply Hmb. auto.
    - exists l. split; [exact Hnd |]. split.
      + intros D. rewrite Hl. split; [intros [HD _]; exact HD |].
        intros HD. split; [exact HD |]. split; [exact (Hbase_le D HD) |].
        intros s Hs. exfalso. exact (mem_bs_clear s Hs).
      + rewrite Hdrv. unfold inner in Hin. rewrite Hr in Hin.
        inversion Hin. f_equal. lia. }
  destruct Hcount as [l [Hnd [Hl Hc]]].
  exists l. split; [exact Hnd |]. split; [exact Hl |].
  split; [| split; [exact Hc |]].
  - destruct (Z.eq_dec n 0) as [-> | Hn0].
    + rewrite (ltac:(vm_compute; reflexivity) : driver_count 0 = Ok 1) in Hc.
      inversion Hc. lia.
    + destruct (driver_serial n ltac:(lia)) as [base [c [_ [Hc' [_ Hb]]]]].
      rewrite Hc in Hc'. inversion Hc'. lia.
  - unfold driver_line. rewrite Hc. reflexivity.
Qed.

Lemma main_from_spec (k : nat) :
  forall n0, 0 <= n0 -> n0 + Z.of_nat k <= MAX_N + 1 ->
    exists lines, main_from k n0 = Ok lines /\ length lines = k /\
      forall i : nat, (i < k)%nat ->
        exists line, driver_line (n0 + Z.of_nat i) = Ok line /\
                     lines !! i = Some line.
Proof.
  induction k as [| k IH]; intros n0 H0 Hk.
  - exists []. split; [reflexivity |]. split; [reflexivity |].
    intros i Hi. lia.
  - destruct (driver_line_systems n0 ltac:(lia)) as [l [_ [_ [_ [_ Hline]]]]].
    destruct (IH (n0 + 1) ltac:(lia) ltac:(lia)) as [rest [Hr [Hlen Hrest]]].
    exists (print_line n0 (Z.of_nat (length l)) :: rest). split; [| split].
    + cbn [main_from]. rewrite Hline. cbn [bind]. rewrite Hr. reflexivity.
    + simpl. lia.
    + intros [| i] Hi.
      * exists (print_line n0 (Z.of_nat (length l))).
        rewrite Z.add_0_r. split; [exact Hline | reflexivity].
      * destruct (Hrest i ltac:(lia)) as [line [H1 H2]].
        exists line. replace (n0 + Z.of_nat (S i)) with (n0 + 1 + Z.of_nat i)
          by lia.
        split; [exact H1 | exact H2].
Qed.

(** X14.  The whole program runs to its end without an access outside an
    array and prints the numbers of Dynkin systems: [main] prints
    [MAX_N + 1] lines, and line [n] is [n] followed by the number of Dynkin
    systems over a ground set of [n] elements, which is the count that the
    driver computed for [n] in its 64-bit counter and is at least 1. *)
Theorem main_prints_all_lines :
  exists lines, main = Ok lines /\
    length lines = Z.to_nat (MAX_N + 1) /\
    forall n, 0 <= n <= MAX_N ->
      exists l : list Bitset,
        NoDup l /\ (forall D, D ∈ l <-> dynkin_system (omega_of n) D) /\
        (1 <= length l)%nat /\
        driver_count n = Ok (Z.of_nat (length l)) /\
        lines !! Z.to_nat n = Some (print_line n (Z.of_nat (length l))).
Proof.
  destruct (main_from_spec (Z.to_nat (MAX_N + 1)) 0 ltac:(lia))
    as [lines [Hm [Hlen Hl]]].
  { change MAX_N with 7. lia. }
  exists lines. split; [exact Hm |]. split; [exact Hlen |].
  intros n Hn. destruct (Hl (Z.to_nat n)) as [line [Hline Hlook]].
  { change MAX_N with 7 in *. lia. }
  replace (0 + Z.of_nat (Z.to_nat n)) with n in Hline by lia.
  destruct (driver_line_systems n Hn) as [l [Hnd [Hsys [Hpos [Hc Hpr]]]]].
  rewrite Hpr in Hline. inversion Hline; subst line.
  exists l. split; [exact Hnd |]. split; [exact Hsys |].
  split; [exact Hpos |]. split; [exact Hc | exact Hlook].
Qed.

(** X15.  Only one subset of each complementary pair needs a decision: for
    a ground set of [n] elements the complement [omega ^ s] of a subset is
    [omega - s], and it lies at or above the midpoint exactly when [s] lies
    below it. *)
Theorem complement_swaps_halves (n s : Z) :
  1 <= n <= MAX_N -> 0 <= s <= omega_of n ->
  Z.lxor (omega_of n) s = omega_of n - s /\
  (s < midpoint (omega_of n) <->
   midpoint (omega_of n) <= Z.lxor (omega_of n) s).
Proof.
  intros Hn Hs. destruct (omega_of_spec n Hn) as [Hon [_ [Hmid _]]].
  assert (Hpow : 2 ^ n = 2 * 2 ^ (n - 1)).
  { replace n with (Z.succ (n - 1)) at 1 by lia.
    rewrite Z.pow_succ_r by lia. reflexivity. }
  rewrite Hmid, Hon in *. rewrite complement_sub by lia. lia.
Qed.

Lemma complement_swaps_halves_witness :
  Z.lxor (omega_of 3) 2 = omega_of 3 - 2 /\
  (2 < midpoint (omega_of 3) <-> midpoint (omega_of 3) <= Z.lxor (omega_of 3) 2).
Proof.
  apply (complement_swaps_halves 3 2).
  - change MAX_N with 7. lia.
  - change (omega_of 3) with 7. lia.
Defined.

(** ** The decision frontier *)

(** X16.  In every search state the lower bound is a decision frontier:
    every index below it is marked in [included] or in [excluded]; and
    [excluded] is closed under complement. *)
Theorem reachable_frontier (omega : Z) (top : option Z) (lb : Z)
    (inc exc : Bitset) :
  0 <= omega < MAX_SUBSETS ->
  reachable omega top lb inc exc ->
  (forall s, 0 <= s < lb -> mem inc s \/ mem exc s) /\
  (forall s, mem exc s -> mem exc (Z.lxor omega s)).
Proof.
  intros Ho Hr.
  pose proof (reachable_state_ok omega top lb inc exc Ho Hr) as Hok.
  induction Hr as
    [ base Hbase
    | top m inc exc Hr IH Hm Hskip
    | top m inc exc cl Hr IH Hm Hni Hne Hext
    | top m inc exc e2 Hr IH Hm Hni Hne Hcom
    | base re m e cl e2 Hbase Hre Hm He Hnb Hne Hext Hcom ].
  - destruct Hok as [_ [_ [_ [H0 _]]]]. split.
    + intros s Hs. assert (s = 0) by lia. subst s. auto.
    + intros s Hs. exfalso. exact (mem_bs_clear s Hs).
  - pose proof (reachable_state_ok _ _ _ _ _ Ho Hr) as Hok'.
    destruct (IH Hok') as [Hd Hc]. split; [| exact Hc].
    intros s Hs. destruct (Z.eq_dec s m) as [-> | Hsm]; [exact Hskip |].
    apply Hd. lia.
  - pose proof (reachable_state_ok _ _ _ _ _ Ho Hr) as Hok'.
    destruct (IH Hok') as [Hd Hc].
    destruct Hok' as [H1 [H2 [H3 _]]].
    destruct (below_midpoint_in_range omega m Ho ltac:(lia)) as [Hmr _].
    destruct (extend_closure_facts omega inc m exc H2 H3 Ho Hmr)
      as [b [cl' [H [_ [Hsup [Hmm _]]]]]].
    rewrite Hext in H. inversion H; subst b cl'.
    rewrite !bs_copy_eq. split; [| exact Hc].
    intros s Hs. destruct (Z.eq_dec s m) as [-> | Hsm]; [auto |].
    destruct (Hd s ltac:(lia)); auto.
  - pose proof (reachable_state_ok _ _ _ _ _ Ho Hr) as Hok'.
    destruct (IH Hok') as [Hd Hc].
    destruct Hok' as [H1 [H2 [H3 _]]].
    destruct (below_midpoint_in_range omega m Ho ltac:(lia)) as [Hmr [Hcr _]].
    destruct (commit_spec omega m exc H3 Hmr Hcr) as [x [Hx [_ Hmx]]].
    rewrite Hcom in Hx. inversion Hx; subst x. split.
    + intros s Hs. destruct (Z.eq_dec s m) as [-> | Hsm].
      * right. apply Hmx. auto.
      * destruct (Hd s ltac:(lia)); [auto |]. right. apply Hmx. auto.
    + intros s Hs. apply Hmx. apply Hmx in Hs.
      destruct Hs as [-> | [-> | Hs]]; [auto | | auto].
      left. apply lxor_involutive.
  - destruct (base_included_spec omega Ho) as [b [Hb [Hwb [Hmb Hdb]]]].
    rewrite Hbase in Hb. inversion Hb; subst b.
    destruct (root_excluded_spec omega Ho ltac:(lia))
      as [re' [Hre' [Hlen [Hwf Hch]]]].
    rewrite Hre in Hre'. inversion Hre'; subst re'.
    apply arr_get_Ok in He. destruct He as [_ He].
    assert (Hwe : wf_bitset e).
    { rewrite Forall_lookup in Hwf. exact (Hwf _ _ He). }
    destruct (below_midpoint_in_range omega m Ho ltac:(lia)) as [Hmr [Hcr _]].
    destruct (extend_closure_facts omega base m e Hwb Hwe Ho Hmr)
      as [b [cl' [H [_ [Hsup [Hmm _]]]]]].
    rewrite Hext in H. inversion H; subst b cl'.
    rewrite bs_copy_eq in Hcom.
    destruct (commit_spec omega m e Hwe Hmr Hcr) as [x [Hx [_ Hmx]]].
    rewrite Hcom in Hx. inversion Hx; subst x.
    pose proof (chain_members omega re _ Ho Hwf
                  ltac:(rewrite Hlen; exact Hch) ltac:(lia) e He) as Hme.
    split.
    + intros s Hs. destruct (Z.eq_dec s 0) as [-> | Hs0];
        [left; apply Hsup, Hmb; auto |].
      destruct (Z.eq_dec s m) as [-> | Hsm]; [auto |].
      right. apply Hmx. right. right. apply Hme. exists s.
      split; [lia | auto].
    + intros s Hs. apply Hmx. apply Hmx in Hs.
      destruct Hs as [-> | [-> | Hs]]; [auto | | ].
      * left. apply lxor_involutive.
      * right. right. apply Hme. apply Hme in Hs.
        destruct Hs as [i [Hi [-> | ->]]]; exists i; split; auto.
        left. apply lxor_involutive.
Qed.

Lemma reachable_frontier_witness :
  (forall s, 0 <= s < 2 -> mem family_full s \/ mem family_1_and_2 s) /\
  (forall s, mem family_1_and_2 s -> mem family_1_and_2 (Z.lxor 3 s)).
Proof.
  apply (reachable_frontier 3 (Some 1) 2 family_full family_1_and_2).
  - change MAX_SUBSETS with 128. lia.
  - apply (reach_dispatch 3 family_trivial
             [bs_clear; family_1_and_2] 1 bs_clear family_full family_1_and_2);
      try (vm_compute; reflexivity).
    + vm_compute. split; [discriminate | reflexivity].
    + intros H. vm_compute in H. discriminate H.
    + intros H. vm_compute in H. discriminate H.
Defined.

(** ** The scan of a word *)

(** X17.  The bit loop of [extend_closure] takes the set bits of a word
    one by one from the lowest: for a non-zero 64-bit word,
    [__builtin_ctzll] is the index of the lowest set bit, which is below
    64, and [word & (word - 1)] is the word with exactly that bit
    cleared. *)
Theorem lowest_bit_step (word : Z) :
  0 < word < 2 ^ 64 ->
  0 <= ctzll word < 64 /\
  Z.testbit word (ctzll word) = true /\
  (forall j, 0 <= j < ctzll word -> Z.testbit word j = false) /\
  0 <= Z.land word (word - 1) < word /\
  (forall j, 0 <= j ->
     Z.testbit (Z.land word (word - 1)) j =
     Z.testbit word j && negb (j =? ctzll word)).
Proof.
  intros Hw. destruct (ctzll_spec word ltac:(lia)) as [H0 [H1 [H2 H3]]].
  assert (H64 : ctzll word < 64).
  { destruct (Z_lt_dec (ctzll word) 64) as [H | H]; [exact H |].
    rewrite (proj1 (Z.bounded_iff_bits_nonneg' 64 word ltac:(lia) ltac:(lia)))
      in H1 by lia.
    discriminate. }
  split; [lia |]. split; [exact H1 |]. split; [exact H2 |].
  split; [| exact H3].
  assert (Hnn : 0 <= Z.land word (word - 1))
    by (apply Z.land_nonneg; lia).
  split; [exact Hnn |].
  assert (Hsum : Z.land word (word - 1) + 2 ^ ctzll word = word).
  { assert (Hd : Z.land (Z.land word (word - 1)) (2 ^ ctzll word) = 0).
    { apply Z.bits_inj'. intros k Hk.
      rewrite Z.land_spec, H3, Z.pow2_bits_eqb, Z.bits_0 by lia.
      destruct (Z.eqb_spec k (ctzll word)) as [-> | Hne].
      - rewrite Z.eqb_refl. simpl. rewrite andb_false_r. reflexivity.
      - replace (ctzll word =? k) with false
          by (symmetry; apply Z.eqb_neq; lia).
        apply andb_false_r. }
    rewrite (Z.add_nocarry_lxor _ _ Hd).
    apply Z.bits_inj'. intros k Hk.
    rewrite Z.lxor_spec, H3, Z.pow2_bits_eqb by lia.
    destruct (Z.eqb_spec k (ctzll word)) as [-> | Hne].
    - rewrite Z.eqb_refl, H1. reflexivity.
    - replace (ctzll word =? k) with false
        by (symmetry; apply Z.eqb_neq; lia).
      simpl. rewrite andb_true_r, xorb_false_r. reflexivity. }
  pose proof (Z.pow_pos_nonneg 2 (ctzll word)). lia.
Qed.

Lemma lowest_bit_step_witness :
  0 <= ctzll 12 < 64 /\
  Z.testbit 12 (ctzll 12) = true /\
  (forall j, 0 <= j < ctzll 12 -> Z.testbit 12 j = false) /\
  0 <= Z.land 12 (12 - 1) < 12 /\
  (forall j, 0 <= j ->
     Z.testbit (Z.land 12 (12 - 1)) j =
     Z.testbit 12 j && negb (j =? ctzll 12)).
Proof.
  apply (lowest_bit_step 12). lia.
Defined.

(** ** The verdict of [extend_closure] *)

(** X18.  On a closed family that is disjoint from [excluded], and for an
    extension that is not excluded (the callers' check), [extend_closure]
    succeeds exactly when no subset forced by the closure axioms is
    excluded. *)
Theorem extend_closure_verdict (omega : Z) (included excluded : Bitset)
    (extension : Z) :
  wf_bitset included -> wf_bitset excluded ->
  0 <= omega < MAX_SUBSETS -> 0 <= extension < MAX_SUBSETS ->
  dynkin_closed omega (mem included) ->
  (forall s, mem included s -> ~ mem excluded s) ->
  ~ mem excluded extension ->
  exists b cl,
    extend_closure omega included extension excluded = Ok (b, cl) /\
    (b = true <->
     forall z, generated omega included extension z -> ~ mem excluded z).
Proof.
  intros Hwi Hwe Ho He Hd Hdisj Hne.
  destruct (extend_closure_facts omega included extension excluded
              Hwi Hwe Ho He)
    as [b [cl [H [_ [_ [_ [_ [Hnew [_ Hfail]]]]]]]]].
  exists b, cl. split; [exact H |]. split.
  - intros ->. intros z Hz Hez.
    apply (extend_closure_generated _ _ _ _ _ Hwi Hwe Ho He Hd H) in Hz.
    destruct (Hnew z Hz) as [Hi | [-> | Hn]].
    + exact (Hdisj z Hi Hez).
    + contradiction.
    + contradiction.
  - intros Hall. destruct b; [reflexivity |].
    destruct (Hfail eq_refl) as [z [Hz [Hez _]]].
    exfalso. exact (Hall z Hz Hez).
Qed.

Lemma extend_closure_verdict_witness :
  exists b cl,
    extend_closure 3 family_trivial 1 bs_clear = Ok (b, cl) /\
    (b = true <->
     forall z, generated 3 family_trivial 1 z -> ~ mem bs_clear z).
Proof.
  apply (extend_closure_verdict 3 family_trivial bs_clear 1).
  - apply wf_bitsetb_spec. vm_compute. reflexivity.
  - apply wf_bitsetb_spec. vm_compute. reflexivity.
  - change MAX_SUBSETS with 128. lia.
  - change MAX_SUBSETS with 128. lia.
  - apply closedb_spec; [apply wf_bitsetb_spec |]; vm_compute; reflexivity.
  - intros s _. apply mem_bs_clear.
  - apply mem_bs_clear.
Defined.

(** ** The capacity *)

(** X19.  [MAX_N] is the largest ground set whose subsets fit the bitset:
    for [n] below the width of [uint32_t], the full set [omega] that the
    driver computes is [2^n - 1] (0 for [n = 0]), and it is below
    [MAX_SUBSETS] exactly when [n] is at most [MAX_N]. *)
Theorem omega_fits_bitset (n : Z) :
  0 <= n < 32 ->
  omega_of n = 2 ^ n - 1 /\ (omega_of n < MAX_SUBSETS <-> n <= MAX_N).
Proof.
  intros Hn.
  assert (Ho : omega_of n = 2 ^ n - 1).
  { unfold omega_of. destruct (Z.ltb_spec 0 n) as [Hpos | Hz].
    - rewrite Z.shiftl_1_l.
      assert (Hlt : 2 ^ n < 2 ^ 32) by (apply Z.pow_lt_mono_r; lia).
      pose proof (Z.pow_pos_nonneg 2 n) as Hp.
      unfold u32. rewrite (Z.mod_small (2 ^ n)) by lia.
      rewrite Z.mod_small by lia. reflexivity.
    - replace n with 0 by lia. reflexivity. }
  split; [exact Ho |]. rewrite Ho.
  change MAX_SUBSETS with (2 ^ 7). change MAX_N with 7. split.
  - intros H. destruct (Z_le_dec n 7) as [Hle | Hgt]; [exact Hle |].
    assert (2 ^ 8 <= 2 ^ n) by (apply Z.pow_le_mono_r; lia). lia.
  - intros H. assert (2 ^ n <= 2 ^ 7) by (apply Z.pow_le_mono_r; lia). lia.
Qed.

Lemma omega_fits_bitset_witness :
  omega_of 8 = 2 ^ 8 - 1 /\ (omega_of 8 < MAX_SUBSETS <-> 8 <= MAX_N).
Proof.
  apply (omega_fits_bitset 8). lia.
Defined.
